(** * Cell acuteness scoring (acuteness_wasm.cpp)

    A shallow embedding of [calculateAngle], [calculateCellAcuteness] and
    [updateCellAcuteness], and the properties of the scoring engine proved
    on it.

    - [float] is IEEE 754 binary32 (precision 24, emax 128), computed by the
      Standard Library's [SpecFloat] operations, round to nearest even,
      every operation rounded on its own (the WebAssembly target has no
      fused multiply-add).
    - [int] is a 32-bit signed integer carried as a [Z]; [size_t] is the
      32-bit unsigned type of the WebAssembly target, with its wrap-around
      written out.
    - A computation is an [option]: [None] stands for an execution whose
      behaviour C++ leaves undefined (operator[] outside the vector, signed
      overflow, an iterator before [begin()], a comparator that is not a
      strict weak ordering).
    - [std::acos] comes from the C library; it is a parameter [acosf] of the
      functions that call it.

    The second part embeds what [compute_periodic_delaunay_js]
    (periodic_delaunay.cpp) does around the call of Geogram: the loops that
    bring a coordinate into [0, 1), on [double], the processor's binary64,
    and the loop that maps the vertex indices of the tetrahedra and drops
    the duplicates.  The triangulation itself is a parameter. *)

From Stdlib Require Import ZArith List Lia Bool Permutation Sorted.
From Stdlib Require Import Floats.SpecFloat.
From Stdlib Require Floats.PrimFloat Floats.FloatOps Floats.FloatAxioms.
From Stdlib Require Import Reals Lra Machin.
Import ListNotations.
Open Scope Z_scope.

(** ** Undefined behaviour as [None] *)

Definition bind {A B : Type} (m : option A) (k : A -> option B) : option B :=
  match m with
  | Some a => k a
  | None => None
  end.

Notation "x <- m ;; k" := (bind m (fun x => k))
  (at level 61, m at next level, right associativity).

(** ** Machine integers *)

Definition INT_MIN : Z := - 2 ^ 31.
Definition INT_MAX : Z := 2 ^ 31 - 1.

Definition in_int (n : Z) : bool := (INT_MIN <=? n) && (n <=? INT_MAX).

(** The result of a signed [int] operation: defined when it is
    representable. *)
Definition int_op (n : Z) : option Z := if in_int n then Some n else None.

Definition SIZE_BITS : Z := 32.

(** Conversion of an [int] to [size_t], and [size_t] subtraction. *)
Definition to_size_t (n : Z) : Z := n mod 2 ^ SIZE_BITS.

Definition size {A : Type} (v : list A) : Z := Z.of_nat (length v).

(** [v.size() - 1], computed in [size_t]. *)
Definition size_minus_1 {A : Type} (v : list A) : Z := to_size_t (size v - 1).

(** [v[i]] for an [int] or [size_t] index. *)
Definition at_ {A : Type} (v : list A) (i : Z) : option A :=
  if i <? 0 then None else nth_error v (Z.to_nat i).

(** [v[i] = a]. *)
Fixpoint set_nth {A : Type} (v : list A) (n : nat) (a : A) : option (list A) :=
  match v, n with
  | [], _ => None
  | _ :: t, O => Some (a :: t)
  | h :: t, S n' => t' <- set_nth t n' a ;; Some (h :: t')
  end.

Definition assign {A : Type} (v : list A) (i : Z) (a : A) : option (list A) :=
  if i <? 0 then None else set_nth v (Z.to_nat i) a.

(** ** Loops *)

Fixpoint for_fuel {S : Type} (fuel : nat) (i : Z)
    (body : Z -> S -> option S) (s : S) : option S :=
  match fuel with
  | O => Some s
  | Datatypes.S fuel' =>
      match body i s with
      | Some s' => for_fuel fuel' (i + 1) body s'
      | None => None
      end
  end.

(** [for (i = lo; i < hi; i++) s = body(i, s)]. *)
Definition for_range {S : Type} (lo hi : Z)
    (body : Z -> S -> option S) (s : S) : option S :=
  for_fuel (Z.to_nat (hi - lo)) lo body s.

(** [for (x : v) s = body(x, s)]. *)
Fixpoint for_each {A S : Type} (v : list A)
    (body : A -> S -> option S) (s : S) : option S :=
  match v with
  | [] => Some s
  | a :: v' =>
      match body a s with
      | Some s' => for_each v' body s'
      | None => None
      end
  end.

(** ** binary32 *)

Definition float : Type := spec_float.

Definition prec : Z := 24.
Definition emax : Z := 128.

Definition fadd : float -> float -> float := SFadd prec emax.
Definition fsub : float -> float -> float := SFsub prec emax.
Definition fmul : float -> float -> float := SFmul prec emax.
Definition fdiv : float -> float -> float := SFdiv prec emax.
Definition fsqrt : float -> float := SFsqrt prec emax.
Definition flt : float -> float -> bool := SFltb.
Definition feq : float -> float -> bool := SFeqb.

Definition float_of_Z (n : Z) : float := binary_normalize prec emax n 0 false.

Definition fzero : float := S754_zero false.
Definition fone : float := float_of_Z 1.
Definition fminus_one : float := float_of_Z (-1).

Definition is_nan (f : float) : bool :=
  match f with
  | S754_nan => true
  | _ => false
  end.

(** [std::min(a, b)] and [std::max(a, b)]: [(b < a) ? b : a] and
    [(a < b) ? b : a]. *)
Definition std_min (a b : float) : float := if flt b a then b else a.
Definition std_max (a b : float) : float := if flt a b then b else a.

(** ** Vec3 *)

Module Vec3.

Record t : Type := make { x : float; y : float; z : float }.

Definition dot (a other : t) : float :=
  fadd (fadd (fmul (x a) (x other)) (fmul (y a) (y other)))
       (fmul (z a) (z other)).

Definition lengthSquared (a : t) : float :=
  fadd (fadd (fmul (x a) (x a)) (fmul (y a) (y a))) (fmul (z a) (z a)).

(** [operator-]. *)
Definition sub (a other : t) : t :=
  make (fsub (x a) (x other)) (fsub (y a) (y other)) (fsub (z a) (z other)).

End Vec3.

(** The literal [1.5707963f]: the binary32 value nearest to the decimal
    1.5707963, which is 13176794 * 2^-23 = 1.57079625129699707... *)
Definition HALF_PI : float := S754_finite false 13176794 (-23).

(** The binary32 value nearest to the real pi/2 = 1.5707963267948966...,
    13176795 * 2^-23 = 1.57079637050628662..., one unit in the last place
    above [HALF_PI]. *)
Definition nearest_half_pi : float := S754_finite false 13176795 (-23).

(** The real number a binary32 value stands for, for the finite values. *)
Definition float_value (f : float) : R :=
  match f with
  | S754_finite s m e =>
      ((if s then -1 else 1) * IZR (Zpos m) * powerRZ 2 e)%R
  | _ => 0%R
  end.

(** The test [angle < HALF_PI] of both scoring loops. *)
Definition is_acute (angle : float) : bool := flt angle HALF_PI.

Section Acuteness.

(** [std::acos] on [float]. *)
Variable acosf : float -> float.

Definition clamp (cosTheta : float) : float :=
  std_max fminus_one (std_min fone cosTheta).

Definition calculateAngle (v1 v2 : Vec3.t) : float :=
  let dot := Vec3.dot v1 v2 in
  let len1Sq := Vec3.lengthSquared v1 in
  let len2Sq := Vec3.lengthSquared v2 in
  if feq len1Sq fzero || feq len2Sq fzero then fzero
  else
    let cosTheta := fdiv dot (fsqrt (fmul len1Sq len2Sq)) in
    let cosTheta := clamp cosTheta in
    acosf cosTheta.

(** [Vec3 w(vertices[idx], vertices[idx + 1], vertices[idx + 2])]. *)
Definition vertex_at (vertices : list float) (idx : Z) : option Vec3.t :=
  a <- at_ vertices idx ;;
  i1 <- int_op (idx + 1) ;;
  b <- at_ vertices i1 ;;
  i2 <- int_op (idx + 2) ;;
  c <- at_ vertices i2 ;;
  Some (Vec3.make a b c).

(** [start + n * 3]. *)
Definition vertex_index (start n : Z) : option Z :=
  n3 <- int_op (n * 3) ;;
  int_op (start + n3).

(** The lexicographic [operator<] of [std::pair<float, int>]. *)
Definition pair_lt (a b : float * Z) : bool :=
  flt (fst a) (fst b) || (negb (flt (fst b) (fst a)) && (snd a <? snd b)).

Fixpoint insert (a : float * Z) (l : list (float * Z)) : list (float * Z) :=
  match l with
  | [] => [a]
  | b :: l' => if pair_lt a b then a :: l else b :: insert a l'
  end.

Fixpoint sort (l : list (float * Z)) : list (float * Z) :=
  match l with
  | [] => []
  | a :: l' => insert a (sort l')
  end.

(** Two elements neither of which is before the other. *)
Definition pair_equiv (a b : float * Z) : bool :=
  negb (pair_lt a b) && negb (pair_lt b a).

(** The requirement of the sorting algorithms of the standard library on
    their comparison: [operator<] induces a strict weak ordering on the
    elements of [l].  It is irreflexive and transitive on them, and so is
    the equivalence of the elements neither of which is before the
    other. *)
Definition strict_weak_ordering (l : list (float * Z)) : bool :=
  forallb (fun a => negb (pair_lt a a)) l
  && forallb
       (fun a =>
          forallb
            (fun b =>
               forallb
                 (fun c =>
                    implb (pair_lt a b && pair_lt b c) (pair_lt a c)
                    && implb (pair_equiv a b && pair_equiv b c)
                         (pair_equiv a c))
                 l)
            l)
       l.

(** [std::partial_sort(d.begin(), d.begin() + middle, d.end())].  The
    call is undefined for a [middle] before [begin()] and when
    [operator<] is not a strict weak ordering on the elements.  A NaN
    distance compares false both ways, which leaves the order of its pair
    to the indices: that can break transitivity (5, NaN, 1 at the indices
    0, 1, 2), and need not (all distances NaN, or 1, NaN, 5).  Where the
    call is defined, positions [0 .. middle) receive the [middle] smallest
    elements in ascending order, and no two elements are equivalent
    because their second components differ, so these positions are
    determined; the order of the remaining positions is unspecified and
    the caller does not read them, so the embedding leaves them sorted
    too. *)
Definition partial_sort (middle : Z) (distances : list (float * Z))
    : option (list (float * Z)) :=
  if middle <? 0 then None
  else if strict_weak_ordering distances then Some (sort distances)
  else None.

(** Lines 73-82: squared distances from [center] to the other vertices of
    the cell. *)
Definition collect_distances (vertices : list float)
    (start cellSize v : Z) (center : Vec3.t) : option (list (float * Z)) :=
  for_range 0 cellSize
    (fun other distances =>
       if other =? v then Some distances
       else
         oIdx <- vertex_index start other ;;
         otherVec <- vertex_at vertices oIdx ;;
         let diff := Vec3.sub otherVec center in
         let distSq := Vec3.lengthSquared diff in
         Some (distances ++ [(distSq, other)]))
    [].

(** [vertices[start + distances[j].second * 3 ...] - center]. *)
Definition neighbor_vec (vertices : list float) (start : Z)
    (center : Vec3.t) (distances : list (float * Z)) (j : Z)
    : option Vec3.t :=
  d <- at_ distances j ;;
  idx <- vertex_index start (snd d) ;;
  w <- vertex_at vertices idx ;;
  Some (Vec3.sub w center).

(** Lines 92-107: the angles between the pairs of the first
    [numNeighbors] entries. *)
Definition count_acute_pairs (vertices : list float) (start : Z)
    (center : Vec3.t) (distances : list (float * Z)) (numNeighbors : Z)
    (acuteAngles : Z) : option Z :=
  for_range 0 numNeighbors
    (fun j acuteAngles =>
       vec1 <- neighbor_vec vertices start center distances j ;;
       for_range (j + 1) numNeighbors
         (fun k acuteAngles =>
            vec2 <- neighbor_vec vertices start center distances k ;;
            let angle := calculateAngle vec1 vec2 in
            if is_acute angle then int_op (acuteAngles + 1)
            else Some acuteAngles)
         acuteAngles)
    acuteAngles.

(** Lines 72-89: the neighbor selection for the vertex [v]. *)
Definition select_neighbors (vertices : list float)
    (start cellSize v : Z) (center : Vec3.t) (maxNeighbors : Z)
    : option (list (float * Z) * Z) :=
  distances <- collect_distances vertices start cellSize v center ;;
  sorted <- partial_sort (Z.min maxNeighbors (size distances)) distances ;;
  let numNeighbors := Z.min maxNeighbors (size distances) in
  Some (sorted, numNeighbors).

(** Lines 69-107: the body of the loop over the vertices of a cell. *)
Definition score_vertex (vertices : list float) (start cellSize : Z)
    (maxNeighbors : Z) (v : Z) (acuteAngles : Z) : option Z :=
  vIdx <- vertex_index start v ;;
  center <- vertex_at vertices vIdx ;;
  sel <- select_neighbors vertices start cellSize v center maxNeighbors ;;
  count_acute_pairs vertices start center (fst sel) (snd sel) acuteAngles.

(** Lines 65-108. *)
Definition cell_acute_angles (vertices : list float) (start cellSize : Z)
    (maxNeighbors : Z) : option Z :=
  for_range 0 cellSize (score_vertex vertices start cellSize maxNeighbors) 0.

(** [(end - start) / 3]. *)
Definition cell_size (start end_ : Z) : option Z :=
  d <- int_op (end_ - start) ;;
  Some (Z.quot d 3).

(** Lines 56-110: the body of the loop over the cells. *)
Definition score_cell (vertices : list float) (cellIndices : list Z)
    (maxNeighbors : Z) (i : Z) (scores : list Z) : option (list Z) :=
  start <- at_ cellIndices i ;;
  end_ <- at_ cellIndices (to_size_t (i + 1)) ;;
  cellSize <- cell_size start end_ ;;
  if cellSize <? 4 then Some (scores ++ [0])
  else
    acuteAngles <- cell_acute_angles vertices start cellSize maxNeighbors ;;
    Some (scores ++ [Z.quot acuteAngles cellSize]).

Definition calculateCellAcuteness (vertices : list float)
    (cellIndices : list Z) (maxNeighbors : Z) : option (list Z) :=
  for_range 0 (size_minus_1 cellIndices)
    (score_cell vertices cellIndices maxNeighbors) [].

End Acuteness.

(** Lines 126-141: the body of the loop over the changed cells.  Where the
    full pass has its scoring loops, the source has the comment "(same
    logic as calculateCellAcuteness for single cell)" and no code, so
    [acuteAngles] is still 0 when the score is stored; [vertices] is never
    read. *)
Definition update_cell (cellIndices : list Z) (cellIdx : Z)
    (previousScores : list Z) : option (list Z) :=
  if to_size_t cellIdx >=? size_minus_1 cellIndices then Some previousScores
  else
    start <- at_ cellIndices cellIdx ;;
    next <- int_op (cellIdx + 1) ;;
    end_ <- at_ cellIndices next ;;
    cellSize <- cell_size start end_ ;;
    if cellSize <? 4 then assign previousScores cellIdx 0
    else
      let acuteAngles := 0 in
      assign previousScores cellIdx (Z.quot acuteAngles cellSize).

Definition updateCellAcuteness (vertices : list float)
    (cellIndices : list Z) (changedCells : list Z)
    (previousScores : list Z) : option (list Z) :=
  for_each changedCells (update_cell cellIndices) previousScores.

(** ** Vocabulary: tables and vectors *)

(** The default of [maxNeighbors]. *)
Definition DEFAULT_MAX_NEIGHBORS : Z := 6.

(** A [std::vector] of the 32-bit target holds at most [PTRDIFF_MAX]
    elements. *)
Definition vector_fits {A : Type} (v : list A) : Prop := size v <= INT_MAX.

(** A CellTable has N + 1 entries for N cells: at least one. *)
Definition has_cells (cellIndices : list Z) : Prop := 1 <= size cellIndices.

(** The number N of cells of a CellTable. *)
Definition cell_count (cellIndices : list Z) : Z := size cellIndices - 1.

(** The score of the cell with offsets [start] and [end_]: what one run of
    [score_cell] appends (lines 58-110). *)
Definition cell_score (acosf : float -> float) (vertices : list float)
    (start end_ maxNeighbors : Z) : option Z :=
  cellSize <- cell_size start end_ ;;
  if cellSize <? 4 then Some 0
  else
    acuteAngles <-
      cell_acute_angles acosf vertices start cellSize maxNeighbors ;;
    Some (Z.quot acuteAngles cellSize).

(** The indices [0 .. n). *)
Definition range (n : Z) : list Z := map Z.of_nat (seq 0 (Z.to_nat n)).

(** The entries [k .. n) of a vector. *)
Definition slice {A : Type} (v : list A) (k n : Z) : list A :=
  firstn (Z.to_nat (n - k)) (skipn (Z.to_nat k) v).

(** The sum of a list of integers. *)
Definition sum_Z (l : list Z) : Z := fold_right Z.add 0 l.

(** ** Vocabulary: binary32 values *)

(** [a <= b]. *)
Definition fle : float -> float -> bool := SFleb.

(** A zero, of either sign. *)
Definition is_zero (f : float) : bool :=
  match f with
  | S754_zero _ => true
  | _ => false
  end.

(** A vector of zero length: all its components are zeros. *)
Definition zero_vector (v : Vec3.t) : bool :=
  is_zero (Vec3.x v) && is_zero (Vec3.y v) && is_zero (Vec3.z v).

(** The binary32 values that are numbers, and those that are not
    negative. *)
Definition is_finite (f : float) : bool :=
  match f with
  | S754_zero _ => true
  | S754_finite _ _ _ => true
  | _ => false
  end.

Definition nonneg (f : float) : bool :=
  match f with
  | S754_zero false => true
  | S754_infinity false => true
  | S754_finite false _ _ => true
  | _ => false
  end.

(** Equality of two binary32 values as data. *)
Definition float_same (a b : float) : bool :=
  match a, b with
  | S754_zero s, S754_zero s' => Bool.eqb s s'
  | S754_infinity s, S754_infinity s' => Bool.eqb s s'
  | S754_nan, S754_nan => true
  | S754_finite s m e, S754_finite s' m' e' =>
      Bool.eqb s s' && Pos.eqb m m' && Z.eqb e e'
  | _, _ => false
  end.

(** A rank of the binary32 values: on the values that are not NaN, [a < b]
    is the lexicographic order of the ranks. *)
Definition rank (f : float) : Z * Z * Z :=
  match f with
  | S754_zero _ => (0, 0, 0)
  | S754_nan => (0, 0, 0)
  | S754_infinity false => (2, 0, 0)
  | S754_infinity true => (-2, 0, 0)
  | S754_finite false m e => (1, e, Zpos m)
  | S754_finite true m e => (-1, - e, Zneg m)
  end.

Definition lex_lt (p q : Z * Z * Z) : Prop :=
  fst (fst p) < fst (fst q)
  \/ (fst (fst p) = fst (fst q)
      /\ (snd (fst p) < snd (fst q)
          \/ (snd (fst p) = snd (fst q) /\ snd p < snd q))).

(** [a] is not after [b] in the order of [operator<] on pairs. *)
Definition pair_le (a b : float * Z) : Prop := pair_lt b a = false.

Definition no_nan (l : list (float * Z)) : Prop :=
  Forall (fun p => is_nan (fst p) = false) l.

(** The cosine of line 41, before the clamp. *)
Definition cosine (v1 v2 : Vec3.t) : float :=
  fdiv (Vec3.dot v1 v2)
       (fsqrt (fmul (Vec3.lengthSquared v1) (Vec3.lengthSquared v2))).

(** ** Vocabulary: the geometry of a cell *)

(** The vertices of a cell of [cellSize] vertices other than [v]. *)
Definition others (cellSize v : Z) : list Z :=
  filter (fun other => negb (other =? v)) (range cellSize).

(** The position of vertex [n] of the cell that starts at [start], where
    the buffer holds it. *)
Definition position (vertices : list float) (start n : Z) : Vec3.t :=
  match (idx <- vertex_index start n ;; vertex_at vertices idx) with
  | Some w => w
  | None => Vec3.make fzero fzero fzero
  end.

(** The squared Euclidean distance, in binary32, from vertex [v] to vertex
    [other] of the cell. *)
Definition distance_squared (vertices : list float) (start v other : Z)
    : float :=
  Vec3.lengthSquared
    (Vec3.sub (position vertices start other) (position vertices start v)).

(** The [cellSize] vertices of the cell lie inside the buffer. *)
Definition cell_readable (vertices : list float) (start cellSize : Z) : Prop :=
  forall n, 0 <= n < cellSize ->
    exists idx w,
      vertex_index start n = Some idx /\ vertex_at vertices idx = Some w.

(** The displacement from [center] to the vertex of an entry of the
    selection, and the classification of the angle at [center] between the
    vertices of two entries. *)
Definition displacement (vertices : list float) (start : Z)
    (center : Vec3.t) (d : float * Z) : Vec3.t :=
  Vec3.sub (position vertices start (snd d)) center.

Definition acute_entries (acosf : float -> float) (vertices : list float)
    (start : Z) (center : Vec3.t) (d1 d2 : float * Z) : bool :=
  is_acute
    (calculateAngle acosf (displacement vertices start center d1)
       (displacement vertices start center d2)).

(** What lets the full pass run without undefined behaviour: a CellTable
    whose offsets lie in the buffer, and for every cell of four or more
    vertices squared distances that are not NaN and a count of acute pairs
    that fits an [int]. *)
Definition offsets_in_buffer (vertices : list float) (cellIndices : list Z)
    : Prop :=
  Forall (fun offset => 0 <= offset <= size vertices) cellIndices.

Definition cell_scorable (vertices : list float) (start cellSize : Z)
    (maxNeighbors : Z) : Prop :=
  (forall v other, 0 <= v < cellSize -> 0 <= other < cellSize ->
     is_nan (distance_squared vertices start v other) = false)
  /\ cellSize * (Z.min maxNeighbors (cellSize - 1)
                 * (Z.min maxNeighbors (cellSize - 1) - 1)) <= 2 * INT_MAX.

(** ** Vocabulary: what a run of the full pass selects and counts *)

(** The unordered pairs of the elements of a list. *)
Fixpoint unordered_pairs {A : Type} (l : list A) : list (A * A) :=
  match l with
  | [] => []
  | a :: l' => map (pair a) l' ++ unordered_pairs l'
  end.

(** The neighbors the code selects for vertex [v], read off its run: the
    vertices of the first [numNeighbors] entries that [select_neighbors]
    returns, none where it is undefined. *)
Definition selected_neighbors (vertices : list float)
    (start cellSize maxNeighbors v : Z) : list Z :=
  match select_neighbors vertices start cellSize v
          (position vertices start v) maxNeighbors with
  | Some (sorted, numNeighbors) =>
      map snd (firstn (Z.to_nat numNeighbors) sorted)
  | None => []
  end.

(** The angle between the neighbors [fst ab] and [snd ab], seen from [v],
    is classified acute. *)
Definition acute_at (acosf : float -> float) (vertices : list float)
    (start v : Z) (ab : Z * Z) : bool :=
  let center := position vertices start v in
  is_acute
    (calculateAngle acosf
       (Vec3.sub (position vertices start (fst ab)) center)
       (Vec3.sub (position vertices start (snd ab)) center)).

(** The number of unordered pairs of the neighbors the code selects for
    [v] whose angle seen from [v] is classified acute. *)
Definition acute_pairs_at (acosf : float -> float) (vertices : list float)
    (start cellSize maxNeighbors v : Z) : Z :=
  size (filter (acute_at acosf vertices start v)
          (unordered_pairs
             (selected_neighbors vertices start cellSize maxNeighbors v))).

(** The total of these numbers over the vertices of the cell. *)
Definition total_acute (acosf : float -> float) (vertices : list float)
    (start cellSize maxNeighbors : Z) : Z :=
  sum_Z (map (acute_pairs_at acosf vertices start cellSize maxNeighbors)
         (range cellSize)).

(** ** The selection and the score in the words of the specification *)

(** These definitions follow sections 3, 4.1 and 4.3 of the specification
    and use none of the functions of the code: the coordinates are read off
    the buffer, the distances and the displacements are written out in the
    arithmetic of binary32, and the classification of an angle, which
    section 4.2 specifies, is a parameter. *)
Module Spec.

(** Section 3: the triple that starts at the index of a vertex is its
    coordinate; vertex [n] of the cell whose offset is [start] is at
    [start + 3 n]. *)
Definition component (vertices : list float) (k : Z) : float :=
  nth (Z.to_nat k) vertices fzero.

Definition coordinate (vertices : list float) (start n : Z) : Vec3.t :=
  Vec3.make (component vertices (start + 3 * n))
            (component vertices (start + 3 * n + 1))
            (component vertices (start + 3 * n + 2)).

(** The displacement from the coordinate [p] to the coordinate [q], in
    single precision. *)
Definition displacement (p q : Vec3.t) : Vec3.t :=
  Vec3.make (fsub (Vec3.x q) (Vec3.x p))
            (fsub (Vec3.y q) (Vec3.y p))
            (fsub (Vec3.z q) (Vec3.z p)).

(** Section 4.1: the squared Euclidean distance, in single precision. *)
Definition squared_distance (p q : Vec3.t) : float :=
  let dx := fsub (Vec3.x q) (Vec3.x p) in
  let dy := fsub (Vec3.y q) (Vec3.y p) in
  let dz := fsub (Vec3.z q) (Vec3.z p) in
  fadd (fadd (fmul dx dx) (fmul dy dy)) (fmul dz dz).

(** The squared Euclidean distance of two coordinates as real numbers. *)
Definition exact_squared_distance (p q : Vec3.t) : R :=
  ((float_value (Vec3.x q) - float_value (Vec3.x p))
   * (float_value (Vec3.x q) - float_value (Vec3.x p))
   + (float_value (Vec3.y q) - float_value (Vec3.y p))
     * (float_value (Vec3.y q) - float_value (Vec3.y p))
   + (float_value (Vec3.z q) - float_value (Vec3.z p))
     * (float_value (Vec3.z q) - float_value (Vec3.z p)))%R.

(** The distance from vertex [v] of the cell to its vertex [other]. *)
Definition distance (vertices : list float) (start v other : Z) : float :=
  squared_distance (coordinate vertices start v)
    (coordinate vertices start other).

(** Section 4.1: the candidates for vertex [v] are the other vertices of
    the cell, each with its distance to [v]. *)
Definition candidates (vertices : list float) (start cellSize v : Z)
    : list (float * Z) :=
  map (fun other => (distance vertices start v other, other))
      (filter (fun other => negb (other =? v))
         (map Z.of_nat (seq 0 (Z.to_nat cellSize)))).

(** Nearest first: the candidate [a] is not after the candidate [b] when
    [b] is not nearer than [a] and, where [a] is not nearer than [b] either
    (equal distances, or one that is NaN), [a] has the lower index. *)
Definition not_after (a b : float * Z) : Prop :=
  flt (fst b) (fst a) = false
  /\ (flt (fst a) (fst b) = false -> snd a <= snd b).

(** Section 4.1: [selected] is a choice of the nearest others of [v]:
    min(K, cellSize - 1) different vertices of the cell other than [v],
    none of them farther from [v] than a vertex that is left out. *)
Definition nearest_others (vertices : list float)
    (start cellSize K v : Z) (selected : list Z) : Prop :=
  NoDup selected
  /\ (forall a, In a selected -> 0 <= a < cellSize /\ a <> v)
  /\ size selected = Z.min K (cellSize - 1)
  /\ (forall a b,
        In a selected -> 0 <= b < cellSize -> b <> v -> ~ In b selected ->
        flt (distance vertices start v b) (distance vertices start v a)
        = false).



End Spec.


(** ** Test data *)

(** A function that agrees with the arc cosine at -1, 0 and 1 and decreases
    in between: pi/2 - (pi/2) * c, in binary32.  It instantiates [acosf]
    where a concrete function is needed. *)
Definition acos_chord (c : float) : float :=
  fsub nearest_half_pi (fmul nearest_half_pi c).

Definition unit_square : list float :=
  map float_of_Z [0; 0; 0;  1; 0; 0;  0; 1; 0;  1; 1; 0].

(** The cosine of 45 degrees as line 41 computes it in the unit square,
    1 / sqrt(1 * 2): 11863283 * 2^-24 = 0.707106769... *)
Definition cos45 : float := fdiv fone (fsqrt (fmul fone (float_of_Z 2))).

(** [acosf] with its values at the two cosines of the unit square replaced
    by a right angle and by the angle 0. *)
Definition acos_square (acosf : float -> float) (c : float) : float :=
  if float_same c fzero then nearest_half_pi
  else if float_same c cos45 then fzero
  else acosf c.

(** 2^-80 along the x axis: a vector that is not zero and whose squared
    length, 2^-160, is below the smallest positive binary32 value. *)
Definition tiny_vector : Vec3.t :=
  Vec3.make (S754_finite false 8388608 (-103)) fzero fzero.

Definition minus_x_axis : Vec3.t := Vec3.make fminus_one fzero fzero.

(** Two displacements at a right angle, (1, 0, 0) and (0, 1, 0), of cosine
    0. *)
Definition x_axis : Vec3.t := Vec3.make fone fzero fzero.

Definition y_axis : Vec3.t := Vec3.make fzero fone fzero.

(** A cell of four vertices in which vertex 2 = (1, 0, 0) is nearer to
    vertex 0 = (0, 0, 0) than vertex 1 = (1, 2^-13, 0), by 2^-26, and both
    squared distances are 1 in binary32. *)
Definition two_pow_minus_13 : float := S754_finite false 8388608 (-36).

Definition tie_cell : list float :=
  [fzero; fzero; fzero;  fone; two_pow_minus_13; fzero;
   fone; fzero; fzero;  float_of_Z 2; fzero; fzero].

(** A cell of four vertices whose coordinates are all NaN. *)
Definition nan_cell : list float := repeat S754_nan 12.

(** ** Vocabulary: beyond the claims *)

(** What one iteration of the update does with an index, whatever the
    ScoreTable: [Some false] when line 126 skips it, [Some true] when it
    goes on to store a score, [None] when reading the CellTable is
    undefined. *)
Definition update_action (cellIndices : list Z) (cellIdx : Z) : option bool :=
  if to_size_t cellIdx >=? size_minus_1 cellIndices then Some false
  else
    start <- at_ cellIndices cellIdx ;;
    next <- int_op (cellIdx + 1) ;;
    end_ <- at_ cellIndices next ;;
    cellSize <- cell_size start end_ ;;
    Some true.


(** * periodic_delaunay.cpp: the tetrahedra handed back to JavaScript *)

(** [a % b] on [int]: undefined for [b == 0] and for [INT_MIN % -1],
    otherwise the remainder of the truncated division. *)
Definition int_rem (a b : Z) : option Z :=
  if b =? 0 then None
  else if (a =? INT_MIN) && (b =? -1) then None
  else Some (Z.rem a b).

Fixpoint insert_int (a : Z) (l : list Z) : list Z :=
  match l with
  | [] => [a]
  | b :: l' => if a <=? b then a :: l else b :: insert_int a l'
  end.

(** [std::sort] on a [std::vector<int>]: the sorted permutation. *)
Definition sort_int (l : list Z) : list Z := fold_right insert_int [] l.

(** [std::set<std::vector<int>>], of which the code uses [insert] and the
    [second] component of its result. *)
Module TetSet.

Definition t : Type := list (list Z).

Definition empty : t := [].

Definition mem (x : list Z) (s : t) : bool :=
  if in_dec (list_eq_dec Z.eq_dec) x s then true else false.

(** [s.insert(x)]: the set after the call, and whether [x] was new. *)
Definition insert (x : list Z) (s : t) : t * bool :=
  if mem x s then (s, false) else (x :: s, true).

End TetSet.

(** The state of the loop of lines 124-160. *)
Record tets : Type := {
  unique_tets : TetSet.t;
  duplicate_count : Z;
  result : list (list Z)
}.

Section PeriodicDelaunay.

(** [delaunay->cell_vertex(t, v)] as the [int] the code stores it in.  The
    triangulation is computed by Geogram; lines 97-167 are modelled for
    any triangulation. *)
Variable cell_vertex : Z -> Z -> Z.

Variable is_periodic : bool.
Variable num_points : Z.

(** Lines 128-140: from the index of a vertex or of one of its periodic
    copies to the index of a point. *)
Definition map_vertex (raw : Z) : option Z :=
  let nb_vertices_non_periodic := num_points in
  mapped <-
    (if is_periodic && (raw >=? nb_vertices_non_periodic)
     then int_rem raw nb_vertices_non_periodic
     else Some raw) ;;
  if (mapped <? 0) || (mapped >=? nb_vertices_non_periodic) then Some 0
  else Some mapped.

(** Lines 125-143: [tet_indices] of tetrahedron [t]. *)
Definition tet_indices (t : Z) : option (list Z) :=
  for_range 0 4
    (fun v tet =>
       mapped <- map_vertex (cell_vertex t v) ;;
       assign tet v mapped)
    [0; 0; 0; 0].

(** Lines 124-160: one iteration of the loop over the tetrahedra. *)
Definition collect_tet (t : Z) (s : tets) : option tets :=
  tet <- tet_indices t ;;
  let sorted_indices := sort_int tet in
  let (inserted, second) := TetSet.insert sorted_indices (unique_tets s) in
  if second then
    Some {| unique_tets := inserted;
            duplicate_count := duplicate_count s;
            result := result s ++ [tet] |}
  else
    d <- int_op (duplicate_count s + 1) ;;
    Some {| unique_tets := inserted;
            duplicate_count := d;
            result := result s |}.

Definition collect_tets (num_tets : Z) : option tets :=
  for_range 0 num_tets collect_tet
    {| unique_tets := TetSet.empty; duplicate_count := 0; result := [] |}.

(** Lines 97-167: the array returned once the triangulation has
    [num_tets] tetrahedra. *)
Definition returned_tets (num_tets : Z) : option (list (list Z)) :=
  if num_tets =? 0 then Some []
  else s <- collect_tets num_tets ;; Some (result s).

(** The four indices of tetrahedron [t] as Geogram gives them. *)
Definition raw_tet (t : Z) : list Z :=
  [cell_vertex t 0; cell_vertex t 1; cell_vertex t 2; cell_vertex t 3].

End PeriodicDelaunay.

(** A triangulation of five points with two tetrahedra. *)
Definition two_tets (t v : Z) : Z := t + v.

(** A periodic triangulation of five points: the second tetrahedron is a
    periodic copy of the first, and the fourth holds copies of the
    vertices of the third in another order. *)
Definition periodic_tets (t v : Z) : Z :=
  if t =? 0 then v
  else if t =? 1 then v + 5
  else if t =? 2 then v + 1
  else 9 - v.

(** * periodic_delaunay.cpp: the coordinates handed to Geogram *)

(** binary64: the [double] of the code.  The operations are those of the
    processor, specified by [SpecFloat] at 53 bits. *)
Definition double : Type := PrimFloat.float.

(** [while (coord < 0.0) coord += 1.0;] (line 51), [None] when the
    condition still holds after [fuel] iterations. *)
Fixpoint add_while_negative (fuel : nat) (coord : double) : option double :=
  match fuel with
  | O => None
  | S fuel' =>
      if PrimFloat.ltb coord PrimFloat.zero
      then add_while_negative fuel' (PrimFloat.add coord PrimFloat.one)
      else Some coord
  end.

(** [while (coord >= 1.0) coord -= 1.0;] (line 52). *)
Fixpoint sub_while_at_least_one (fuel : nat) (coord : double)
    : option double :=
  match fuel with
  | O => None
  | S fuel' =>
      if PrimFloat.leb PrimFloat.one coord
      then sub_while_at_least_one fuel' (PrimFloat.sub coord PrimFloat.one)
      else Some coord
  end.

(** Lines 49-53: the coordinate pushed to [vertices]. *)
Definition wrap_coordinate (fuel : nat) (coord : double) : option double :=
  shifted <- add_while_negative fuel coord ;;
  sub_while_at_least_one fuel shifted.

(** A value that is not NaN and not below zero: a zero of either sign, a
    positive number or +infinity. *)
Definition not_below_zero (x : spec_float) : bool :=
  match x with
  | S754_zero _ => true
  | S754_infinity s | S754_finite s _ _ => negb s
  | S754_nan => false
  end.

Definition SF64zero : spec_float := S754_zero false.
Definition SF64one : spec_float := S754_finite false 4503599627370496 (-52).

(** 2^54: its neighbours among the binary64 numbers are 2 below and 4
    above. *)
Definition two_pow_54 : double :=
  Eval compute in PrimFloat.of_uint63 (Uint63Axioms.of_Z 18014398509481984).

(** -2.5 and 0.5. *)
Definition minus_two_and_a_half : double :=
  Eval compute in
    PrimFloat.opp
      (PrimFloat.div (PrimFloat.of_uint63 (Uint63Axioms.of_Z 5))
                     PrimFloat.two).

Definition one_half : double :=
  Eval compute in PrimFloat.div PrimFloat.one PrimFloat.two.

(** A number of magnitude below 2^53: a zero, or a finite number whose
    exponent, for a canonical mantissa, is at most 0. *)
Definition below_two_pow_53 (x : spec_float) : bool :=
  match x with
  | S754_zero _ => true
  | S754_finite _ _ e => e <=? 0
  | S754_infinity _ | S754_nan => false
  end.

(** The magnitude of a number in units of 2^-52; 0 for a number whose
    exponent is below -52, which is below 1 in magnitude. *)
Definition units (x : spec_float) : Z :=
  match x with
  | S754_finite _ m e => Z.pos m * 2 ^ (e + 52)
  | _ => 0
  end.

(** 2^53. *)
Definition two_pow_53 : double :=
  Eval compute in PrimFloat.of_uint63 (Uint63Axioms.of_Z 9007199254740992).

(** * Properties *)

(** ** Generic facts: the option monad, machine integers, vectors *)

Lemma bind_Some {A B : Type} (m : option A) (k : A -> option B) (b : B) :
  bind m k = Some b -> exists a, m = Some a /\ k a = Some b.
Proof.
  destruct m as [a|]; simpl; intros H; [eauto | discriminate].
Qed.

(** Decompose a hypothesis saying that a chain of binds is defined. *)
Ltac inv_bind H :=
  let a := fresh "a" in
  let Ha := fresh "E" in
  apply bind_Some in H; destruct H as (a & Ha & H).

Lemma int_op_Some (n m : Z) :
  int_op n = Some m -> m = n /\ INT_MIN <= n <= INT_MAX.
Proof.
  unfold int_op, in_int.
  destruct (INT_MIN <=? n) eqn:E1; destruct (n <=? INT_MAX) eqn:E2;
    simpl; intros H; inversion H; subst.
  split; [reflexivity | lia].
Qed.

Lemma int_op_in_range (n : Z) :
  INT_MIN <= n <= INT_MAX -> int_op n = Some n.
Proof.
  intros H. unfold int_op, in_int.
  replace (INT_MIN <=? n) with true by (symmetry; apply Z.leb_le; lia).
  replace (n <=? INT_MAX) with true by (symmetry; apply Z.leb_le; lia).
  reflexivity.
Qed.

Lemma at_Some {A : Type} (v : list A) (i : Z) (a : A) :
  at_ v i = Some a -> 0 <= i < size v.
Proof.
  unfold at_, size. destruct (i <? 0) eqn:E; [discriminate|].
  intros H. apply Z.ltb_ge in E.
  assert (Z.to_nat i < length v)%nat
    by (apply nth_error_Some; congruence).
  lia.
Qed.

Lemma at_in_range {A : Type} (v : list A) (i : Z) :
  0 <= i < size v -> exists a, at_ v i = Some a.
Proof.
  unfold at_, size. intros H.
  replace (i <? 0) with false by (symmetry; apply Z.ltb_ge; lia).
  destruct (nth_error v (Z.to_nat i)) eqn:E; [eauto|].
  apply nth_error_None in E. lia.
Qed.

Lemma at_app_left {A : Type} (v w : list A) (i : Z) :
  i < size v -> at_ (v ++ w) i = at_ v i.
Proof.
  unfold at_, size. intros H. destruct (i <? 0) eqn:E; [reflexivity|].
  apply Z.ltb_ge in E. apply nth_error_app1. lia.
Qed.

Lemma at_app_last {A : Type} (v : list A) (a : A) :
  at_ (v ++ [a]) (size v) = Some a.
Proof.
  unfold at_, size.
  replace (Z.of_nat (length v) <? 0) with false
    by (symmetry; apply Z.ltb_ge; lia).
  rewrite Nat2Z.id, nth_error_app2, Nat.sub_diag by lia. reflexivity.
Qed.

Lemma size_app {A : Type} (v w : list A) : size (v ++ w) = size v + size w.
Proof. unfold size. rewrite length_app. lia. Qed.

Lemma size_nonneg {A : Type} (v : list A) : 0 <= size v.
Proof. unfold size. lia. Qed.

Lemma set_nth_spec {A : Type} (v : list A) (n : nat) (a : A) (w : list A) :
  set_nth v n a = Some w ->
  length w = length v /\ nth_error w n = Some a /\
  forall m, m <> n -> nth_error w m = nth_error v m.
Proof.
  revert n w. induction v as [|h t IH]; intros n w H; simpl in H.
  - destruct n; discriminate.
  - destruct n as [|n'].
    + inversion H; subst. repeat split. intros [|m] Hm; [congruence|reflexivity].
    + inv_bind H. inversion H; subst.
      destruct (IH _ _ E) as (Hl & Hn & Ho). repeat split; simpl; auto.
      intros [|m] Hm; simpl; auto.
Qed.

Lemma set_nth_defined {A : Type} (v : list A) (n : nat) (a : A) :
  (n < length v)%nat -> exists w, set_nth v n a = Some w.
Proof.
  revert n. induction v as [|h t IH]; intros n H; simpl in *; [lia|].
  destruct n as [|n']; [eauto|].
  destruct (IH n') as (w & Hw); [lia|]. rewrite Hw. simpl. eauto.
Qed.

Lemma assign_spec {A : Type} (v : list A) (i : Z) (a : A) (w : list A) :
  assign v i a = Some w ->
  size w = size v /\ at_ w i = Some a /\
  forall j, j <> i -> at_ w j = at_ v j.
Proof.
  unfold assign, at_, size. destruct (i <? 0) eqn:E; [discriminate|].
  intros H. apply set_nth_spec in H. destruct H as (Hl & Hn & Ho).
  apply Z.ltb_ge in E. repeat split; [lia | assumption |].
  intros j Hj. destruct (j <? 0) eqn:Ej; [reflexivity|].
  apply Z.ltb_ge in Ej. apply Ho. lia.
Qed.

(** ** Loop rules *)

Lemma for_range_done {S : Type} (lo hi : Z) (body : Z -> S -> option S) s :
  hi <= lo -> for_range lo hi body s = Some s.
Proof.
  intros H. unfold for_range.
  replace (Z.to_nat (hi - lo)) with O by lia. reflexivity.
Qed.

Lemma for_range_step {S : Type} (lo hi : Z) (body : Z -> S -> option S) s :
  lo < hi ->
  for_range lo hi body s = (s' <- body lo s ;; for_range (lo + 1) hi body s').
Proof.
  intros H. unfold for_range.
  replace (Z.to_nat (hi - lo)) with (Datatypes.S (Z.to_nat (hi - (lo + 1))))
    by lia.
  simpl. destruct (body lo s); reflexivity.
Qed.

(** Invariant rule: an invariant that holds before the loop and is kept by
    every iteration that returns holds after a loop that returns. *)
Lemma for_range_invariant {S : Type} (P : Z -> S -> Prop)
    (lo hi : Z) (body : Z -> S -> option S) :
  lo <= hi ->
  (forall i s s', lo <= i < hi -> P i s -> body i s = Some s' -> P (i + 1) s') ->
  forall s s', P lo s -> for_range lo hi body s = Some s' -> P hi s'.
Proof.
  intros Hle Hstep. unfold for_range.
  remember (Z.to_nat (hi - lo)) as fuel eqn:Hf.
  revert lo Hle Hstep Hf. induction fuel as [|fuel IH]; intros lo Hle Hstep Hf s s' HP H.
  - simpl in H. inversion H; subst. replace hi with lo by lia. assumption.
  - simpl in H. destruct (body lo s) as [s1|] eqn:Hb; [|discriminate].
    apply (IH (lo + 1)) with (s := s1); try lia; auto.
    + intros i t t' Hi. apply Hstep. lia.
    + apply (Hstep lo s s1); auto. lia.
Qed.

(** Totality rule: a loop whose body is defined wherever the invariant
    holds returns. *)
Lemma for_range_defined {S : Type} (P : Z -> S -> Prop)
    (lo hi : Z) (body : Z -> S -> option S) :
  (forall i s, lo <= i < hi -> P i s ->
     exists s', body i s = Some s' /\ P (i + 1) s') ->
  forall s, P lo s -> exists s', for_range lo hi body s = Some s'.
Proof.
  intros Hstep. unfold for_range.
  remember (Z.to_nat (hi - lo)) as fuel eqn:Hf.
  revert lo Hstep Hf. induction fuel as [|fuel IH]; intros lo Hstep Hf s HP.
  - simpl. eauto.
  - simpl. destruct (Hstep lo s) as (s1 & Hb & HP1); [lia | assumption |].
    rewrite Hb. apply (IH (lo + 1)); auto; try lia.
    intros i t Hi. apply Hstep. lia.
Qed.

Lemma for_each_app {A S : Type} (v w : list A) (body : A -> S -> option S) s :
  for_each (v ++ w) body s = (s' <- for_each v body s ;; for_each w body s').
Proof.
  revert s. induction v as [|a v IH]; intros s; simpl; [reflexivity|].
  destruct (body a s); simpl; auto.
Qed.

(** ** Conversions to [size_t] *)

Lemma to_size_t_small (n : Z) : 0 <= n < 2 ^ SIZE_BITS -> to_size_t n = n.
Proof. intros H. unfold to_size_t. apply Z.mod_small. assumption. Qed.

Lemma to_size_t_negative (n : Z) :
  INT_MIN <= n < 0 -> to_size_t n = n + 2 ^ SIZE_BITS.
Proof.
  intros H. unfold to_size_t, INT_MIN, SIZE_BITS in *.
  symmetry. apply Z.mod_unique with (q := -1); lia.
Qed.

Lemma size_minus_1_nonempty {A : Type} (v : list A) :
  1 <= size v <= 2 ^ SIZE_BITS -> size_minus_1 v = size v - 1.
Proof.
  intros H. unfold size_minus_1. apply to_size_t_small. lia.
Qed.

Lemma size_minus_1_empty {A : Type} : @size_minus_1 A [] = 2 ^ SIZE_BITS - 1.
Proof. reflexivity. Qed.

Lemma size_minus_1_bounds {A : Type} (v : list A) :
  0 <= size_minus_1 v < 2 ^ SIZE_BITS.
Proof. unfold size_minus_1, to_size_t. apply Z.mod_pos_bound. reflexivity. Qed.

Lemma geb_false (a b : Z) : a < b -> (a >=? b) = false.
Proof. intros H. rewrite Z.geb_leb. apply Z.leb_gt. assumption. Qed.

(** ** The incremental update *)

Lemma update_cell_skip (cellIndices : list Z) (cellIdx : Z) (scores : list Z) :
  size_minus_1 cellIndices <= to_size_t cellIdx ->
  update_cell cellIndices cellIdx scores = Some scores.
Proof.
  intros H. unfold update_cell.
  replace (to_size_t cellIdx >=? size_minus_1 cellIndices) with true
    by (symmetry; apply Z.geb_le; lia).
  reflexivity.
Qed.

(** Every iteration either leaves the table alone or stores 0 at
    [cellIdx]. *)
Lemma update_cell_cases (cellIndices : list Z) (cellIdx : Z)
    (scores scores' : list Z) :
  update_cell cellIndices cellIdx scores = Some scores' ->
  scores' = scores \/ assign scores cellIdx 0 = Some scores'.
Proof.
  unfold update_cell.
  destruct (to_size_t cellIdx >=? size_minus_1 cellIndices).
  - intros H. inversion H. auto.
  - intros H. do 4 inv_bind H.
    destruct (a2 <? 4) eqn:E4; [auto|].
    right. apply Z.ltb_ge in E4. cbv zeta in H.
    rewrite Z.quot_0_l in H by lia. assumption.
Qed.

Lemma update_cell_frame (cellIndices : list Z) (cellIdx : Z)
    (scores scores' : list Z) (j : Z) :
  update_cell cellIndices cellIdx scores = Some scores' ->
  j <> cellIdx -> at_ scores' j = at_ scores j.
Proof.
  intros H Hj. apply update_cell_cases in H. destruct H as [->|H]; [reflexivity|].
  apply assign_spec in H. destruct H as (_ & _ & Ho). auto.
Qed.

Lemma update_cell_size (cellIndices : list Z) (cellIdx : Z)
    (scores scores' : list Z) :
  update_cell cellIndices cellIdx scores = Some scores' ->
  size scores' = size scores.
Proof.
  intros H. apply update_cell_cases in H. destruct H as [->|H]; [reflexivity|].
  apply assign_spec in H. tauto.
Qed.

(** Entries whose index is not listed keep their value, and the table
    keeps its length. *)
Lemma update_frame (vertices : list float) (cellIndices changedCells : list Z)
    (previousScores scores : list Z) :
  updateCellAcuteness vertices cellIndices changedCells previousScores
    = Some scores ->
  size scores = size previousScores /\
  forall j, ~ In j changedCells -> at_ scores j = at_ previousScores j.
Proof.
  unfold updateCellAcuteness. revert previousScores.
  induction changedCells as [|c l IH]; intros prev H; simpl in H.
  - inversion H. auto.
  - destruct (update_cell cellIndices c prev) as [s1|] eqn:E; [|discriminate].
    destruct (IH _ H) as (Hs & Hf). split.
    + rewrite Hs. eapply update_cell_size; eauto.
    + intros j Hj. simpl in Hj. rewrite Hf by tauto.
      eapply update_cell_frame; eauto.
Qed.

Lemma update_skip_one (vertices : list float) (cellIndices : list Z)
    (before after : list Z) (cellIdx : Z) (previousScores : list Z) :
  size_minus_1 cellIndices <= to_size_t cellIdx ->
  updateCellAcuteness vertices cellIndices (before ++ cellIdx :: after)
    previousScores
  = updateCellAcuteness vertices cellIndices (before ++ after) previousScores.
Proof.
  intros H. unfold updateCellAcuteness. rewrite !for_each_app.
  destruct (for_each before (update_cell cellIndices) previousScores) as [s|];
    simpl; [|reflexivity].
  rewrite update_cell_skip by assumption. reflexivity.
Qed.

(** C4: an index at or beyond the number of cells of a CellTable (which
    has at least one entry) is skipped: the update with that index in the
    list is the update without it, and on its own it returns the ScoreTable
    as it was, without reading a vector.  For a table of two cells, the
    ScoreTable [2, 5] and the list [7], the result is [2, 5]. *)
Theorem out_of_range_index_is_skipped :
  forall (vertices : list float) (cellIndices : list Z)
         (before after : list Z) (cellIdx : Z) (previousScores : list Z),
    has_cells cellIndices ->
    vector_fits cellIndices ->
    cell_count cellIndices <= cellIdx <= INT_MAX ->
    updateCellAcuteness vertices cellIndices (before ++ cellIdx :: after)
      previousScores
    = updateCellAcuteness vertices cellIndices (before ++ after) previousScores
    /\ updateCellAcuteness vertices cellIndices [cellIdx] previousScores
       = Some previousScores
    /\ (cell_count cellIndices = 2 ->
        updateCellAcuteness vertices cellIndices [7] [2; 5] = Some [2; 5]).
Proof.
  intros vertices cellIndices before after cellIdx prev Hc Hf Hi.
  unfold has_cells, vector_fits, cell_count, INT_MAX in *.
  assert (Hs : size_minus_1 cellIndices = size cellIndices - 1)
    by (apply size_minus_1_nonempty; unfold SIZE_BITS; lia).
  assert (Ht : to_size_t cellIdx = cellIdx)
    by (apply to_size_t_small; unfold SIZE_BITS; lia).
  split; [|split].
  - apply update_skip_one. lia.
  - apply (update_skip_one vertices cellIndices [] [] cellIdx prev). lia.
  - intros H2. apply (update_skip_one vertices cellIndices [] [] 7 [2; 5]).
    rewrite Hs, H2. vm_compute. discriminate.
Qed.

Lemma out_of_range_index_is_skipped_witness :
  updateCellAcuteness unit_square [0; 12; 12] [7] [2; 5] = Some [2; 5].
Proof.
  refine (proj1 (proj2 (out_of_range_index_is_skipped
    unit_square [0; 12; 12] [] [] 7 [2; 5] _ _ _)));
    unfold has_cells, vector_fits, cell_count, INT_MAX, size; simpl; lia.
Defined.

(** C10: a negative index is converted to a [size_t] of at least 2^31,
    above [cellIndices.size() - 1] for every CellTable (with at least one
    entry), so the test of line 126 skips it before any vector is indexed
    or written. *)
Theorem negative_index_is_skipped :
  forall (vertices : list float) (cellIndices : list Z)
         (before after : list Z) (cellIdx : Z) (previousScores : list Z),
    has_cells cellIndices ->
    vector_fits cellIndices ->
    INT_MIN <= cellIdx < 0 ->
    (to_size_t cellIdx >=? size_minus_1 cellIndices) = true
    /\ update_cell cellIndices cellIdx previousScores = Some previousScores
    /\ updateCellAcuteness vertices cellIndices (before ++ cellIdx :: after)
         previousScores
       = updateCellAcuteness vertices cellIndices (before ++ after)
           previousScores.
Proof.
  intros vertices cellIndices before after cellIdx prev Hc Hf Hi.
  unfold has_cells, vector_fits, INT_MAX in *.
  assert (Hs : size_minus_1 cellIndices = size cellIndices - 1)
    by (apply size_minus_1_nonempty; unfold SIZE_BITS; lia).
  assert (Ht : to_size_t cellIdx = cellIdx + 2 ^ SIZE_BITS)
    by (apply to_size_t_negative; assumption).
  assert (Hge : size_minus_1 cellIndices <= to_size_t cellIdx)
    by (rewrite Hs, Ht; unfold INT_MIN, SIZE_BITS in *; lia).
  split; [|split].
  - apply Z.geb_le. assumption.
  - apply update_cell_skip. assumption.
  - apply update_skip_one. assumption.
Qed.

Lemma negative_index_is_skipped_witness :
  updateCellAcuteness unit_square [0; 12] [0; -1] [2]
  = updateCellAcuteness unit_square [0; 12] [0] [2].
Proof.
  refine (proj2 (proj2 (negative_index_is_skipped
    unit_square [0; 12] [0] [] (-1) [2] _ _ _)));
    unfold has_cells, vector_fits, INT_MAX, INT_MIN, size; simpl; lia.
Defined.

(** On a vector without any entry [size() - 1] wraps to 2^32 - 1: the test
    of line 126 lets an index through and [cellIndices[cellIdx]] is read
    outside the vector. *)
Lemma update_empty_table (vertices : list float) (previousScores : list Z) :
  updateCellAcuteness vertices [] [7] previousScores = None
  /\ updateCellAcuteness vertices [] [-2] previousScores = None.
Proof. split; reflexivity. Qed.

(** ** The full pass, cell by cell *)

Lemma score_cell_cell_score (acosf : float -> float) (vertices : list float)
    (cellIndices : list Z) (maxNeighbors i : Z) (scores : list Z) :
  score_cell acosf vertices cellIndices maxNeighbors i scores =
  (start <- at_ cellIndices i ;;
   end_ <- at_ cellIndices (to_size_t (i + 1)) ;;
   s <- cell_score acosf vertices start end_ maxNeighbors ;;
   Some (scores ++ [s])).
Proof.
  unfold score_cell, cell_score.
  destruct (at_ cellIndices i) as [start|]; simpl; [|reflexivity].
  destruct (at_ cellIndices (to_size_t (i + 1))) as [end_|]; simpl;
    [|reflexivity].
  destruct (cell_size start end_) as [cs|]; simpl; [|reflexivity].
  destruct (cs <? 4); simpl; [reflexivity|].
  destruct (cell_acute_angles acosf vertices start cs maxNeighbors);
    reflexivity.
Qed.

(** A full pass that returns has visited the cells [0 .. size() - 1) in
    order and stored the score of cell [i] at position [i]. *)
Lemma full_pass_scores (acosf : float -> float) (vertices : list float)
    (cellIndices : list Z) (maxNeighbors : Z) (scores : list Z) :
  calculateCellAcuteness acosf vertices cellIndices maxNeighbors = Some scores ->
  size scores = size_minus_1 cellIndices /\
  forall i, 0 <= i < size_minus_1 cellIndices ->
    exists start end_ s,
      at_ cellIndices i = Some start /\
      at_ cellIndices (i + 1) = Some end_ /\
      cell_score acosf vertices start end_ maxNeighbors = Some s /\
      at_ scores i = Some s.
Proof.
  unfold calculateCellAcuteness.
  pose proof (size_minus_1_bounds cellIndices) as Hb.
  set (P := fun (n : Z) (sc : list Z) =>
    size sc = n /\
    forall i, 0 <= i < n ->
      exists start end_ s,
        at_ cellIndices i = Some start /\
        at_ cellIndices (i + 1) = Some end_ /\
        cell_score acosf vertices start end_ maxNeighbors = Some s /\
        at_ sc i = Some s).
  intros H.
  apply (for_range_invariant P) with (s := []) in H; [exact H | lia | | ].
  - intros i sc sc' Hi (Hsz & Hall) Hbody.
    rewrite score_cell_cell_score in Hbody.
    do 3 inv_bind Hbody. inversion Hbody; subst sc'; clear Hbody.
    rewrite to_size_t_small in E0 by lia.
    split.
    + rewrite size_app. unfold size at 2. simpl. lia.
    + intros j Hj. destruct (Z.eq_dec j i) as [->|Hne].
      * exists a, a0, a1. repeat split; auto.
        rewrite <- Hsz. apply at_app_last.
      * destruct (Hall j) as (st & en & sj & H1 & H2 & H3 & H4); [lia|].
        exists st, en, sj. repeat split; auto.
        rewrite at_app_left by lia. assumption.
  - split; [reflexivity | intros i Hi; lia].
Qed.

(** The full pass on a vector without any entry reads [cellIndices[0]]
    outside the vector. *)
Lemma full_pass_empty_table (acosf : float -> float) (vertices : list float)
    (maxNeighbors : Z) :
  calculateCellAcuteness acosf vertices [] maxNeighbors = None.
Proof.
  unfold calculateCellAcuteness. rewrite for_range_step; [reflexivity|].
  rewrite size_minus_1_empty. reflexivity.
Qed.

(** ** Cells of fewer than four vertices *)

(** Every listed cell that passes the range test holds 0 afterwards. *)
Lemma update_stores_zero (vertices : list float)
    (cellIndices changedCells : list Z) (previousScores scores : list Z)
    (i : Z) :
  In i changedCells ->
  to_size_t i < size_minus_1 cellIndices ->
  updateCellAcuteness vertices cellIndices changedCells previousScores
    = Some scores ->
  at_ scores i = Some 0.
Proof.
  unfold updateCellAcuteness. intros Hin Hlt.
  assert (Hkeep : forall l s s', at_ s i = Some 0 ->
            for_each l (update_cell cellIndices) s = Some s' ->
            at_ s' i = Some 0).
  { induction l as [|c l IH]; intros s s' H0 H; simpl in H.
    - inversion H; subst; assumption.
    - destruct (update_cell cellIndices c s) as [s1|] eqn:E; [|discriminate].
      apply (IH s1 s'); auto.
      destruct (update_cell_cases _ _ _ _ E) as [->|Ha]; [assumption|].
      apply assign_spec in Ha. destruct Ha as (_ & Hi & Ho).
      destruct (Z.eq_dec i c) as [->|Hne]; [assumption|].
      rewrite Ho by assumption. assumption. }
  revert previousScores.
  induction changedCells as [|c l IH]; intros prev H; simpl in *; [tauto|].
  destruct (update_cell cellIndices c prev) as [s1|] eqn:E; [|discriminate].
  destruct Hin as [->|Hin].
  - apply (Hkeep l s1 scores); auto.
    destruct (update_cell_cases _ _ _ _ E) as [->|Ha].
    + unfold update_cell in E.
      replace (to_size_t i >=? size_minus_1 cellIndices) with false in E
        by (symmetry; apply geb_false; lia).
      do 4 inv_bind E.
      destruct (a2 <? 4); cbv zeta in E; apply assign_spec in E; tauto.
    + apply assign_spec in Ha. tauto.
  - apply (IH Hin s1). assumption.
Qed.



(** ** The angle between two displacement vectors *)

Lemma flt_fle (a b : float) : flt a b = true -> fle a b = true.
Proof.
  unfold flt, fle, SFltb, SFleb.
  destruct (SFcompare a b) as [[| |]|]; congruence.
Qed.

Lemma clamp_bounds (c : float) :
  fle fminus_one (clamp c) = true /\ fle (clamp c) fone = true.
Proof.
  unfold clamp, std_max, std_min.
  destruct (flt c fone) eqn:E1.
  - destruct (flt fminus_one c) eqn:E2.
    + split; apply flt_fle; assumption.
    + split; reflexivity.
  - replace (flt fminus_one fone) with true by reflexivity.
    split; reflexivity.
Qed.

Lemma zero_vector_lengthSquared (v : Vec3.t) :
  zero_vector v = true -> Vec3.lengthSquared v = fzero.
Proof.
  destruct v as [a b c]. unfold zero_vector. simpl.
  destruct a as [sa| | |]; try discriminate.
  destruct b as [sb| | |]; try discriminate.
  destruct c as [sc| | |]; try discriminate.
  intros _. destruct sa, sb, sc; reflexivity.
Qed.

Lemma is_acute_zero : is_acute fzero = true.
Proof. reflexivity. Qed.

(** C6, as the code has it: the guard of line 39 is on the computed squared
    lengths.  When one of them compares equal to 0, which is the case of a
    zero vector, the angle is 0 and the pair counts as acute; otherwise the
    angle is [acosf] of the clamped cosine, and the clamped cosine lies in
    [-1, 1] whatever the cosine was. *)
Theorem calculateAngle_guard_and_clamp :
  forall (acosf : float -> float) (v1 v2 : Vec3.t),
    (zero_vector v1 || zero_vector v2 = true ->
     feq (Vec3.lengthSquared v1) fzero || feq (Vec3.lengthSquared v2) fzero
       = true)
    /\ (feq (Vec3.lengthSquared v1) fzero || feq (Vec3.lengthSquared v2) fzero
          = true ->
        calculateAngle acosf v1 v2 = fzero
        /\ is_acute (calculateAngle acosf v1 v2) = true)
    /\ (feq (Vec3.lengthSquared v1) fzero || feq (Vec3.lengthSquared v2) fzero
          = false ->
        calculateAngle acosf v1 v2 = acosf (clamp (cosine v1 v2)))
    /\ fle fminus_one (clamp (cosine v1 v2)) = true
    /\ fle (clamp (cosine v1 v2)) fone = true.
Proof.
  intros acosf v1 v2. split; [|split; [|split]].
  - intros H. apply orb_true_iff in H. apply orb_true_iff.
    destruct H as [H|H]; [left|right];
      rewrite (zero_vector_lengthSquared _ H); reflexivity.
  - intros H. unfold calculateAngle. cbv zeta. rewrite H.
    split; [reflexivity | apply is_acute_zero].
  - intros H. unfold calculateAngle. cbv zeta. rewrite H. reflexivity.
  - apply clamp_bounds.
Qed.

Lemma calculateAngle_guard_and_clamp_witness :
  calculateAngle acos_chord (Vec3.make fzero fzero fzero) minus_x_axis = fzero
  /\ is_acute
       (calculateAngle acos_chord (Vec3.make fzero fzero fzero) minus_x_axis)
     = true.
Proof.
  pose proof (calculateAngle_guard_and_clamp acos_chord
                (Vec3.make fzero fzero fzero) minus_x_axis) as (H1 & H2 & _).
  apply H2. apply H1. reflexivity.
Defined.

(** C6, as stated, fails: the vector (2^-80, 0, 0) is not of zero length,
    but its squared length underflows to 0, so against (-1, 0, 0) the guard
    returns the angle 0 where the clamped cosine is -1. *)
Lemma nonzero_vector_takes_the_guard :
  zero_vector tiny_vector = false
  /\ zero_vector minus_x_axis = false
  /\ clamp (cosine tiny_vector minus_x_axis) = fminus_one
  /\ (forall acosf, calculateAngle acosf tiny_vector minus_x_axis = fzero)
  /\ ~ (forall (acosf : float -> float) (v1 v2 : Vec3.t),
          zero_vector v1 = false -> zero_vector v2 = false ->
          calculateAngle acosf v1 v2 = acosf (clamp (cosine v1 v2))).
Proof.
  split; [reflexivity|]. split; [reflexivity|]. split; [vm_compute; reflexivity|].
  split; [intros acosf; reflexivity|].
  intros H.
  specialize (H acos_chord tiny_vector minus_x_axis eq_refl eq_refl).
  vm_compute in H. discriminate.
Qed.

(** ** The threshold *)

(** pi/2 lies between [HALF_PI] and the next binary32 value, nearer to the
    latter: by the series of 2 atan(1/3) + atan(1/7) to eight terms. *)
Lemma half_pi_enclosed :
  (float_value HALF_PI < PI / 2 < float_value nearest_half_pi)%R
  /\ (float_value nearest_half_pi - PI / 2
      < PI / 2 - float_value HALF_PI)%R.
Proof.
  assert (Hlo : (26353589 / 2 ^ 25 < PI / 4)%R).
  { pose proof (PI_2_3_7_ineq 3) as [H _].
    eapply Rlt_le_trans; [|exact H].
    unfold sum_f_R0, tg_alt, PI_2_3_7_tg, Ratan_seq. simpl. lra. }
  assert (Hhi : (PI / 4 < 13176795 / 2 ^ 24)%R).
  { pose proof (PI_2_3_7_ineq 3) as [_ H].
    eapply Rle_lt_trans; [exact H|].
    unfold sum_f_R0, tg_alt, PI_2_3_7_tg, Ratan_seq. simpl. lra. }
  unfold float_value, HALF_PI, nearest_half_pi, powerRZ. simpl.
  repeat split; lra.
Qed.

(** ** The scores depend on [acosf] through the classification only *)

Lemma bind_ext {A B : Type} (m : option A) (k1 k2 : A -> option B) :
  (forall a, k1 a = k2 a) -> bind m k1 = bind m k2.
Proof. intros H. destruct m; simpl; auto. Qed.

Lemma for_range_ext {S : Type} (lo hi : Z) (b1 b2 : Z -> S -> option S) s :
  (forall i t, b1 i t = b2 i t) ->
  for_range lo hi b1 s = for_range lo hi b2 s.
Proof.
  intros H. unfold for_range. generalize (Z.to_nat (hi - lo)) as fuel.
  intros fuel. revert lo s. induction fuel as [|fuel IH]; intros lo s; simpl.
  - reflexivity.
  - rewrite H. destruct (b2 lo s); auto.
Qed.

Section Classification.

Variables f g : float -> float.
Hypothesis same_class : forall c, is_acute (f c) = is_acute (g c).

Lemma calculateAngle_class (v1 v2 : Vec3.t) :
  is_acute (calculateAngle f v1 v2) = is_acute (calculateAngle g v1 v2).
Proof.
  unfold calculateAngle. cbv zeta.
  destruct (feq (Vec3.lengthSquared v1) fzero
            || feq (Vec3.lengthSquared v2) fzero); [reflexivity|].
  apply same_class.
Qed.

Lemma count_acute_pairs_class vertices start center distances n acc :
  count_acute_pairs f vertices start center distances n acc
  = count_acute_pairs g vertices start center distances n acc.
Proof.
  unfold count_acute_pairs. apply for_range_ext. intros j a.
  apply bind_ext. intros vec1. apply for_range_ext. intros k b.
  apply bind_ext. intros vec2. cbv zeta.
  rewrite calculateAngle_class. reflexivity.
Qed.

Lemma score_vertex_class vertices start cellSize K v acc :
  score_vertex f vertices start cellSize K v acc
  = score_vertex g vertices start cellSize K v acc.
Proof.
  unfold score_vertex. apply bind_ext. intros vIdx.
  apply bind_ext. intros center. apply bind_ext. intros sel.
  apply count_acute_pairs_class.
Qed.

Lemma cell_acute_angles_class vertices start cellSize K :
  cell_acute_angles f vertices start cellSize K
  = cell_acute_angles g vertices start cellSize K.
Proof.
  unfold cell_acute_angles. apply for_range_ext. intros v acc.
  apply score_vertex_class.
Qed.

Lemma calculateCellAcuteness_class vertices cellIndices K :
  calculateCellAcuteness f vertices cellIndices K
  = calculateCellAcuteness g vertices cellIndices K.
Proof.
  unfold calculateCellAcuteness. apply for_range_ext. intros i scores.
  unfold score_cell. apply bind_ext. intros start.
  apply bind_ext. intros end_. apply bind_ext. intros cs.
  rewrite cell_acute_angles_class. reflexivity.
Qed.

End Classification.

Lemma float_same_eq (a b : float) : float_same a b = true -> a = b.
Proof.
  destruct a as [s| s| |s m e], b as [s'| s'| |s' m' e']; simpl;
    try discriminate; try reflexivity.
  - intros H. apply Bool.eqb_prop in H. congruence.
  - intros H. apply Bool.eqb_prop in H. congruence.
  - intros H. apply andb_true_iff in H. destruct H as (H & He).
    apply andb_true_iff in H. destruct H as (Hs & Hm).
    apply Bool.eqb_prop in Hs. apply Pos.eqb_eq in Hm. apply Z.eqb_eq in He.
    congruence.
Qed.

Lemma acos_square_class (acosf : float -> float) :
  is_acute (acosf fzero) = false ->
  is_acute (acosf cos45) = true ->
  forall c, is_acute (acosf c) = is_acute (acos_square acosf c).
Proof.
  intros H0 H45 c. unfold acos_square.
  destruct (float_same c fzero) eqn:E0.
  - apply float_same_eq in E0. subst c. rewrite H0. reflexivity.
  - destruct (float_same c cos45) eqn:E45; [|reflexivity].
    apply float_same_eq in E45. subst c. rewrite H45. reflexivity.
Qed.

(** ** The incremental update against the full pass *)

(** C1 at the unit square: the update of the cell stores 0 where the full
    pass, for every [acosf] that classifies the right angle and the angle
    of 45 degrees as they are, scores the cell 2. *)
Theorem update_differs_from_full_pass :
  forall acosf : float -> float,
    is_acute (acosf fzero) = false ->
    is_acute (acosf cos45) = true ->
    calculateCellAcuteness acosf unit_square [0; 12] DEFAULT_MAX_NEIGHBORS
      = Some [2]
    /\ updateCellAcuteness unit_square [0; 12] [0] [2] = Some [0].
Proof.
  intros acosf H0 H45. split.
  - rewrite (calculateCellAcuteness_class _ _ (acos_square_class acosf H0 H45)).
    vm_compute. reflexivity.
  - reflexivity.
Qed.

Lemma update_differs_from_full_pass_witness :
  calculateCellAcuteness acos_chord unit_square [0; 12] DEFAULT_MAX_NEIGHBORS
    = Some [2]
  /\ updateCellAcuteness unit_square [0; 12] [0] [2] = Some [0].
Proof.
  apply (update_differs_from_full_pass acos_chord); vm_compute; reflexivity.
Defined.

(** ** The unit square *)

(** C8: with K = 6 the cell of the four corners of the unit square scores
    2, for every [acosf] that puts the angle of cosine 0 at or above the
    threshold and the angle of cosine 1/sqrt(2) below it.  Every vertex
    adds 2 to the count, the count of the cell is 8 and its size is 4. *)
Theorem unit_square_scores_two :
  forall acosf : float -> float,
    is_acute (acosf fzero) = false ->
    is_acute (acosf cos45) = true ->
    calculateCellAcuteness acosf unit_square [0; 12] DEFAULT_MAX_NEIGHBORS
      = Some [2]
    /\ cell_acute_angles acosf unit_square 0 4 DEFAULT_MAX_NEIGHBORS = Some 8
    /\ Forall
         (fun v =>
            score_vertex acosf unit_square 0 4 DEFAULT_MAX_NEIGHBORS v 0
              = Some 2)
         [0; 1; 2; 3].
Proof.
  intros acosf H0 H45.
  pose proof (acos_square_class acosf H0 H45) as Hc.
  split; [|split].
  - rewrite (calculateCellAcuteness_class _ _ Hc). vm_compute. reflexivity.
  - rewrite (cell_acute_angles_class _ _ Hc). vm_compute. reflexivity.
  - repeat constructor; rewrite (score_vertex_class _ _ Hc);
      vm_compute; reflexivity.
Qed.

Lemma unit_square_scores_two_witness :
  calculateCellAcuteness acos_chord unit_square [0; 12] DEFAULT_MAX_NEIGHBORS
    = Some [2].
Proof.
  refine (proj1 (unit_square_scores_two acos_chord _ _)); vm_compute;
    reflexivity.
Defined.

(** ** The order of binary32 and of the (distance, index) pairs *)

Lemma flt_rank (a b : float) :
  is_nan a = false -> is_nan b = false ->
  (flt a b = true <-> lex_lt (rank a) (rank b)).
Proof.
  unfold flt, SFltb, lex_lt.
  destruct a as [sa|sa| |sa ma ea], b as [sb|sb| |sb mb eb];
    try discriminate; intros _ _;
    try destruct sa; try destruct sb; simpl;
    try (split; [discriminate | lia]);
    try (split; [intros _; lia | reflexivity]);
    change (Pos.compare_cont Eq ma mb) with (Pos.compare ma mb);
    destruct (Z.compare_spec ea eb); destruct (Pos.compare_spec ma mb);
    simpl; split; intros Hx; try reflexivity; try discriminate; try lia.
Qed.

Lemma fle_rank (a b : float) :
  is_nan a = false -> is_nan b = false ->
  (fle a b = true <-> ~ lex_lt (rank b) (rank a)).
Proof.
  unfold fle, SFleb, lex_lt.
  destruct a as [sa|sa| |sa ma ea], b as [sb|sb| |sb mb eb];
    try discriminate; intros _ _;
    try destruct sa; try destruct sb; simpl;
    try (split; [discriminate | lia]);
    try (split; [intros _; lia | reflexivity]);
    change (Pos.compare_cont Eq ma mb) with (Pos.compare ma mb);
    destruct (Z.compare_spec ea eb); destruct (Pos.compare_spec ma mb);
    simpl; split; intros Hx; try reflexivity; try discriminate; try lia.
Qed.

Lemma pair_lt_rank (a b : float * Z) :
  is_nan (fst a) = false -> is_nan (fst b) = false ->
  (pair_lt a b = true <->
   lex_lt (rank (fst a)) (rank (fst b))
   \/ (~ lex_lt (rank (fst b)) (rank (fst a)) /\ snd a < snd b)).
Proof.
  intros Ha Hb. unfold pair_lt.
  pose proof (flt_rank _ _ Ha Hb) as Hab.
  pose proof (flt_rank _ _ Hb Ha) as Hba.
  rewrite orb_true_iff, andb_true_iff, negb_true_iff, Z.ltb_lt.
  destruct (flt (fst a) (fst b)); destruct (flt (fst b) (fst a));
    intuition congruence.
Qed.

Lemma pair_lt_false_rank (a b : float * Z) :
  is_nan (fst a) = false -> is_nan (fst b) = false ->
  (pair_lt a b = false <->
   ~ (lex_lt (rank (fst a)) (rank (fst b))
      \/ (~ lex_lt (rank (fst b)) (rank (fst a)) /\ snd a < snd b))).
Proof.
  intros Ha Hb. rewrite <- (pair_lt_rank a b Ha Hb).
  destruct (pair_lt a b); intuition congruence.
Qed.

(** Expose the ranks of the values in a goal about the order of pairs. *)
Ltac by_ranks :=
  unfold lex_lt in *;
  repeat match goal with
         | |- context [rank ?f] =>
             let r := fresh "r" in
             set (r := rank f) in *; clearbody r; destruct r as [[? ?] ?]
         | H : context [rank ?f] |- _ =>
             let r := fresh "r" in
             set (r := rank f) in *; clearbody r; destruct r as [[? ?] ?]
         end;
  simpl in *; lia.

Lemma pair_le_trans (a b c : float * Z) :
  is_nan (fst a) = false -> is_nan (fst b) = false ->
  is_nan (fst c) = false ->
  pair_le a b -> pair_le b c -> pair_le a c.
Proof.
  unfold pair_le. intros Ha Hb Hc Hab Hbc.
  apply (pair_lt_false_rank _ _ Hb Ha) in Hab.
  apply (pair_lt_false_rank _ _ Hc Hb) in Hbc.
  apply (pair_lt_false_rank _ _ Hc Ha).
  by_ranks.
Qed.

Lemma pair_lt_pair_le (a b : float * Z) :
  is_nan (fst a) = false -> is_nan (fst b) = false ->
  pair_lt a b = true -> pair_le a b.
Proof.
  unfold pair_le. intros Ha Hb Hab.
  apply (pair_lt_rank _ _ Ha Hb) in Hab.
  apply (pair_lt_false_rank _ _ Hb Ha).
  by_ranks.
Qed.

Lemma pair_le_fle (a b : float * Z) :
  is_nan (fst a) = false -> is_nan (fst b) = false ->
  pair_le a b -> fle (fst a) (fst b) = true.
Proof.
  unfold pair_le. intros Ha Hb Hab.
  apply (pair_lt_false_rank _ _ Hb Ha) in Hab.
  apply (fle_rank _ _ Ha Hb).
  by_ranks.
Qed.

(** ** Insertion sort *)

Lemma insert_perm (a : float * Z) (l : list (float * Z)) :
  Permutation (insert a l) (a :: l).
Proof.
  induction l as [|b l IH]; simpl; [reflexivity|].
  destruct (pair_lt a b); [reflexivity|].
  rewrite IH. apply perm_swap.
Qed.

Lemma sort_perm (l : list (float * Z)) : Permutation (sort l) l.
Proof.
  induction l as [|a l IH]; simpl; [reflexivity|].
  rewrite insert_perm. constructor. assumption.
Qed.

Lemma no_nan_perm (l l' : list (float * Z)) :
  Permutation l l' -> no_nan l -> no_nan l'.
Proof. unfold no_nan. intros Hp. apply Permutation_Forall. assumption. Qed.

Lemma insert_sorted (a : float * Z) (l : list (float * Z)) :
  is_nan (fst a) = false -> no_nan l ->
  StronglySorted pair_le l -> StronglySorted pair_le (insert a l).
Proof.
  intros Ha. induction l as [|b l IH]; intros Hn Hs; simpl.
  - repeat constructor.
  - inversion Hn as [|? ? Hb Hn']; subst.
    inversion Hs as [|? ? Hs' Hall]; subst.
    destruct (pair_lt a b) eqn:E.
    + constructor; [assumption|]. constructor.
      * apply pair_lt_pair_le; assumption.
      * rewrite Forall_forall in *. intros c Hc.
        apply pair_le_trans with (b := b); auto.
        apply pair_lt_pair_le; assumption.
    + constructor; [apply IH; assumption|].
      apply (Permutation_Forall (Permutation_sym (insert_perm a l))).
      constructor; [exact E | assumption].
Qed.

Lemma sort_sorted (l : list (float * Z)) :
  no_nan l -> StronglySorted pair_le (sort l).
Proof.
  induction l as [|a l IH]; intros Hn; simpl; [constructor|].
  inversion Hn; subst.
  apply insert_sorted; auto.
  apply (no_nan_perm l (sort l) (Permutation_sym (sort_perm l))). assumption.
Qed.

(** ** The strict weak ordering of the pairs *)

Lemma flt_irrefl (a : float) : flt a a = false.
Proof.
  unfold flt, SFltb, SFcompare. destruct a as [s|s| |s m e]; try reflexivity.
  - destruct s; reflexivity.
  - rewrite Z.compare_refl, Pos.compare_cont_refl. destruct s; reflexivity.
Qed.

Lemma pair_lt_irrefl (a : float * Z) : pair_lt a a = false.
Proof.
  unfold pair_lt. rewrite flt_irrefl, Z.ltb_irrefl. reflexivity.
Qed.

(** [operator<] is transitive on the elements of [l]. *)
Lemma strict_weak_ordering_trans (l : list (float * Z)) :
  strict_weak_ordering l = true ->
  forall a b c, In a l -> In b l -> In c l ->
    pair_lt a b = true -> pair_lt b c = true -> pair_lt a c = true.
Proof.
  unfold strict_weak_ordering. intros H a b c Ha Hb Hc Hab Hbc.
  apply andb_true_iff in H. destruct H as (_ & H).
  rewrite forallb_forall in H. specialize (H a Ha).
  rewrite forallb_forall in H. specialize (H b Hb).
  rewrite forallb_forall in H. specialize (H c Hc).
  apply andb_true_iff in H. destruct H as (H & _).
  rewrite Hab, Hbc in H. exact H.
Qed.

Lemma pair_lt_trans (a b c : float * Z) :
  is_nan (fst a) = false -> is_nan (fst b) = false ->
  is_nan (fst c) = false ->
  pair_lt a b = true -> pair_lt b c = true -> pair_lt a c = true.
Proof.
  intros Ha Hb Hc Hab Hbc.
  apply (pair_lt_rank _ _ Ha Hb) in Hab.
  apply (pair_lt_rank _ _ Hb Hc) in Hbc.
  apply (pair_lt_rank _ _ Ha Hc).
  by_ranks.
Qed.

Lemma pair_equiv_trans (a b c : float * Z) :
  is_nan (fst a) = false -> is_nan (fst b) = false ->
  is_nan (fst c) = false ->
  pair_equiv a b = true -> pair_equiv b c = true -> pair_equiv a c = true.
Proof.
  unfold pair_equiv. intros Ha Hb Hc Hab Hbc.
  apply andb_true_iff in Hab. destruct Hab as (H1 & H2).
  apply andb_true_iff in Hbc. destruct Hbc as (H3 & H4).
  apply negb_true_iff in H1, H2, H3, H4.
  apply (pair_lt_false_rank _ _ Ha Hb) in H1.
  apply (pair_lt_false_rank _ _ Hb Ha) in H2.
  apply (pair_lt_false_rank _ _ Hb Hc) in H3.
  apply (pair_lt_false_rank _ _ Hc Hb) in H4.
  apply andb_true_iff. split; apply negb_true_iff.
  - apply (pair_lt_false_rank _ _ Ha Hc). by_ranks.
  - apply (pair_lt_false_rank _ _ Hc Ha). by_ranks.
Qed.

(** Without a NaN the pairs are ordered by distance, then by index. *)
Lemma no_nan_strict_weak_ordering (l : list (float * Z)) :
  no_nan l -> strict_weak_ordering l = true.
Proof.
  unfold no_nan, strict_weak_ordering. rewrite Forall_forall. intros Hn.
  apply andb_true_iff. split.
  - apply forallb_forall. intros a _. rewrite pair_lt_irrefl. reflexivity.
  - apply forallb_forall. intros a Ha. apply forallb_forall. intros b Hb.
    apply forallb_forall. intros c Hc.
    apply andb_true_iff. split.
    + destruct (pair_lt a b) eqn:Eab; [|reflexivity].
      destruct (pair_lt b c) eqn:Ebc; [|reflexivity].
      rewrite (pair_lt_trans a b c); auto.
    + destruct (pair_equiv a b) eqn:Eab; [|reflexivity].
      destruct (pair_equiv b c) eqn:Ebc; [|reflexivity].
      rewrite (pair_equiv_trans a b c); auto.
Qed.

(** Insertion into a sorted list, for a transitive [operator<]. *)
Lemma insert_sorted_among (u : list (float * Z)) (a : float * Z)
    (l : list (float * Z)) :
  (forall x y z, In x u -> In y u -> In z u ->
     pair_lt x y = true -> pair_lt y z = true -> pair_lt x z = true) ->
  In a u -> incl l u ->
  StronglySorted pair_le l -> StronglySorted pair_le (insert a l).
Proof.
  intros Ht Ha. induction l as [|b l IH]; intros Hi Hs; simpl.
  - repeat constructor.
  - assert (Hb : In b u) by (apply Hi; left; reflexivity).
    assert (Hl : incl l u) by (intros x Hx; apply Hi; right; assumption).
    inversion Hs as [|? ? Hs' Hall]; subst.
    destruct (pair_lt a b) eqn:E.
    + assert (Hab : pair_le a b).
      { unfold pair_le. destruct (pair_lt b a) eqn:E'; [|reflexivity].
        rewrite <- (pair_lt_irrefl a). symmetry.
        apply (Ht a b a); assumption. }
      constructor; [assumption|]. constructor; [assumption|].
      rewrite Forall_forall in *. intros c Hc.
      unfold pair_le. destruct (pair_lt c a) eqn:E'; [|reflexivity].
      rewrite <- (Hall c Hc). symmetry.
      apply (Ht c a b); auto.
    + constructor; [apply IH; assumption|].
      apply (Permutation_Forall (Permutation_sym (insert_perm a l))).
      constructor; [exact E | assumption].
Qed.

Lemma sort_sorted_among (u l : list (float * Z)) :
  (forall x y z, In x u -> In y u -> In z u ->
     pair_lt x y = true -> pair_lt y z = true -> pair_lt x z = true) ->
  incl l u -> StronglySorted pair_le (sort l).
Proof.
  intros Ht. induction l as [|a l IH]; intros Hi; simpl; [constructor|].
  apply (insert_sorted_among u); auto.
  - apply Hi. left. reflexivity.
  - intros x Hx. apply Hi. right.
    apply (Permutation_in _ (sort_perm l)). assumption.
  - apply IH. intros x Hx. apply Hi. right. assumption.
Qed.

(** Where [operator<] is a strict weak ordering on the elements, the
    result is sorted: no element is before one that precedes it. *)
Lemma sort_sorted_ordering (l : list (float * Z)) :
  strict_weak_ordering l = true -> StronglySorted pair_le (sort l).
Proof.
  intros H. apply (sort_sorted_among l).
  - apply strict_weak_ordering_trans. assumption.
  - apply incl_refl.
Qed.

Lemma partial_sort_Some (middle : Z) (distances sorted : list (float * Z)) :
  partial_sort middle distances = Some sorted <->
  0 <= middle /\ strict_weak_ordering distances = true
  /\ sorted = sort distances.
Proof.
  unfold partial_sort. destruct (middle <? 0) eqn:Em.
  - apply Z.ltb_lt in Em. split; [discriminate | lia].
  - apply Z.ltb_ge in Em.
    destruct (strict_weak_ordering distances).
    + split.
      * intros H. inversion H. auto.
      * intros (_ & _ & ->). reflexivity.
    + split; [discriminate|]. intros (_ & Hn & _). discriminate.
Qed.

Lemma StronglySorted_app {A : Type} (R : A -> A -> Prop) (l1 l2 : list A) :
  StronglySorted R (l1 ++ l2) ->
  StronglySorted R l1 /\ StronglySorted R l2 /\
  forall a b, In a l1 -> In b l2 -> R a b.
Proof.
  induction l1 as [|x l1 IH]; simpl; intros H.
  - split; [constructor|]. split; [assumption|]. intros a b [].
  - inversion H as [|? ? Hs Hall]; subst.
    destruct (IH Hs) as (H1 & H2 & H3).
    rewrite Forall_app in Hall. destruct Hall as (Ha1 & Ha2).
    split; [constructor; assumption|]. split; [assumption|].
    intros a b [->|Ha] Hb.
    + rewrite Forall_forall in Ha2. auto.
    + auto.
Qed.

Lemma StronglySorted_weaken {A : Type} (R R' : A -> A -> Prop) (l : list A)
    (P : A -> Prop) :
  (forall a b, P a -> P b -> R a b -> R' a b) ->
  Forall P l -> StronglySorted R l -> StronglySorted R' l.
Proof.
  intros Hw. induction l as [|x l IH]; intros HP Hs; [constructor|].
  inversion HP; subst. inversion Hs as [|? ? Hs' Hall]; subst.
  constructor; [auto|].
  rewrite Forall_forall in *. auto.
Qed.

(** ** Index ranges *)

Lemma range_succ (n : Z) : 0 <= n -> range (n + 1) = range n ++ [n].
Proof.
  intros H. unfold range.
  replace (Z.to_nat (n + 1)) with (S (Z.to_nat n)) by lia.
  rewrite seq_S, map_app. simpl. rewrite Z2Nat.id by assumption. reflexivity.
Qed.

Lemma range_nonpos (n : Z) : n <= 0 -> range n = [].
Proof. intros H. unfold range. replace (Z.to_nat n) with O by lia. reflexivity. Qed.

Lemma In_range (n i : Z) : In i (range n) <-> 0 <= i < n.
Proof.
  unfold range. rewrite in_map_iff. split.
  - intros (k & <- & Hk). apply in_seq in Hk. lia.
  - intros H. exists (Z.to_nat i). split; [lia|]. apply in_seq. lia.
Qed.

Lemma others_succ (n v : Z) :
  0 <= n -> others (n + 1) v = others n v ++ (if n =? v then [] else [n]).
Proof.
  intros H. unfold others. rewrite range_succ by assumption.
  rewrite filter_app. simpl. destruct (n =? v); reflexivity.
Qed.

Lemma In_others (n v i : Z) : In i (others n v) <-> 0 <= i < n /\ i <> v.
Proof.
  unfold others. rewrite filter_In, In_range, negb_true_iff, Z.eqb_neq.
  tauto.
Qed.

Lemma size_others (n v : Z) :
  0 <= n -> size (others n v) = if (0 <=? v) && (v <? n) then n - 1 else n.
Proof.
  revert n. apply natlike_ind.
  - unfold others. rewrite range_nonpos by lia.
    destruct (0 <=? v) eqn:E1; destruct (v <? 0) eqn:E2; simpl; try reflexivity.
    apply Z.leb_le in E1. apply Z.ltb_lt in E2. lia.
  - intros n Hn IH. unfold Z.succ. rewrite others_succ, size_app, IH by assumption.
    destruct (0 <=? v) eqn:E0; simpl.
    + apply Z.leb_le in E0.
      destruct (n =? v) eqn:E1.
      * apply Z.eqb_eq in E1.
        replace (v <? n) with false by (symmetry; apply Z.ltb_ge; lia).
        replace (v <? n + 1) with true by (symmetry; apply Z.ltb_lt; lia).
        unfold size. simpl. lia.
      * apply Z.eqb_neq in E1.
        destruct (v <? n) eqn:E2.
        -- apply Z.ltb_lt in E2.
           replace (v <? n + 1) with true by (symmetry; apply Z.ltb_lt; lia).
           unfold size. simpl. lia.
        -- apply Z.ltb_ge in E2.
           replace (v <? n + 1) with false by (symmetry; apply Z.ltb_ge; lia).
           unfold size. simpl. lia.
    + apply Z.leb_gt in E0.
      replace (n =? v) with false by (symmetry; apply Z.eqb_neq; lia).
      unfold size. simpl. lia.
Qed.

Lemma size_others_in_cell (n v : Z) : 0 <= v < n -> size (others n v) = n - 1.
Proof.
  intros H. rewrite size_others by lia.
  replace (0 <=? v) with true by (symmetry; apply Z.leb_le; lia).
  replace (v <? n) with true by (symmetry; apply Z.ltb_lt; lia).
  reflexivity.
Qed.

(** ** The distances to the other vertices (lines 73-82) *)

Lemma position_read (vertices : list float) (start n idx : Z) (w : Vec3.t) :
  vertex_index start n = Some idx -> vertex_at vertices idx = Some w ->
  position vertices start n = w.
Proof. intros H1 H2. unfold position. rewrite H1. simpl. rewrite H2. reflexivity. Qed.

Lemma collect_distances_Some (vertices : list float) (start cellSize v : Z)
    (center : Vec3.t) (distances : list (float * Z)) :
  0 <= cellSize ->
  collect_distances vertices start cellSize v center = Some distances ->
  distances =
  map (fun other =>
         (Vec3.lengthSquared (Vec3.sub (position vertices start other) center),
          other))
      (others cellSize v).
Proof.
  intros Hcs H. unfold collect_distances in H.
  set (F := fun other =>
         (Vec3.lengthSquared (Vec3.sub (position vertices start other) center),
          other)).
  apply (for_range_invariant (fun i ds => ds = map F (others i v)))
    with (s := []) in H; [exact H | assumption | | ].
  - intros i ds ds' Hi -> Hb. rewrite others_succ by lia.
    destruct (i =? v).
    + inversion Hb. rewrite app_nil_r. reflexivity.
    + do 2 inv_bind Hb. inversion Hb; subst; clear Hb.
      rewrite map_app. simpl. unfold F.
      rewrite (position_read _ _ _ _ _ E E0). reflexivity.
  - unfold others. rewrite range_nonpos by lia. reflexivity.
Qed.

Lemma collect_distances_defined (vertices : list float) (start cellSize v : Z)
    (center : Vec3.t) :
  cell_readable vertices start cellSize ->
  exists distances,
    collect_distances vertices start cellSize v center = Some distances.
Proof.
  intros Hr. unfold collect_distances.
  apply (for_range_defined (fun _ _ => True)); [|trivial].
  intros i ds Hi _. destruct (i =? v); [eauto|].
  destruct (Hr i Hi) as (idx & w & H1 & H2).
  rewrite H1. simpl. rewrite H2. simpl. eauto.
Qed.

(** ** Squared distances between finite positions are not NaN *)

Lemma shr_1_nonneg (mrs : shr_record) : 0 <= shr_m mrs -> 0 <= shr_m (shr_1 mrs).
Proof.
  destruct mrs as [m r s]. simpl. intros H.
  destruct m as [|p|p]; simpl; try lia; destruct p; simpl; lia.
Qed.

Lemma iter_shr_1_nonneg (p : positive) (mrs : shr_record) :
  0 <= shr_m mrs -> 0 <= shr_m (SpecFloat.iter_pos shr_1 p mrs).
Proof.
  revert mrs. induction p as [p IH|p IH|]; intros mrs H; simpl.
  - apply IH, IH, shr_1_nonneg, H.
  - apply IH, IH, H.
  - apply shr_1_nonneg, H.
Qed.

Lemma shr_fexp_nonneg (m e : Z) (l : location) :
  0 <= m -> 0 <= shr_m (fst (shr_fexp prec emax m e l)).
Proof.
  intros H. unfold shr_fexp, shr.
  assert (H0 : 0 <= shr_m (shr_record_of_loc m l))
    by (destruct l as [|[| |]]; simpl; assumption).
  destruct (fexp prec emax (Zdigits2 m + e) - e); simpl;
    auto using iter_shr_1_nonneg.
Qed.

Lemma binary_round_aux_sign (sx : bool) (mx ex : Z) (lx : location) :
  0 <= mx ->
  match binary_round_aux prec emax sx mx ex lx with
  | S754_zero s | S754_infinity s | S754_finite s _ _ => s = sx
  | S754_nan => False
  end.
Proof.
  intros H. unfold binary_round_aux.
  pose proof (shr_fexp_nonneg mx ex lx H) as H1.
  destruct (shr_fexp prec emax mx ex lx) as [mrs' e']. simpl in H1.
  assert (H2 : 0 <= round_nearest_even (shr_m mrs') (loc_of_shr_record mrs')).
  { unfold round_nearest_even.
    destruct (loc_of_shr_record mrs') as [|[| |]]; try lia.
    destruct (Z.even (shr_m mrs')); lia. }
  pose proof (shr_fexp_nonneg _ e' loc_Exact H2) as H3.
  destruct (shr_fexp prec emax _ e' loc_Exact) as [mrs'' e'']. simpl in H3.
  destruct (shr_m mrs'') as [|p|p]; try reflexivity; [|lia].
  destruct (e'' <=? emax - prec); reflexivity.
Qed.

Lemma binary_round_sign (sx : bool) (mx : positive) (ex : Z) :
  match binary_round prec emax sx mx ex with
  | S754_zero s | S754_infinity s | S754_finite s _ _ => s = sx
  | S754_nan => False
  end.
Proof.
  unfold binary_round.
  destruct (shl_align mx ex (fexp prec emax (Z.pos (digits2_pos mx) + ex)))
    as [mz ez].
  apply binary_round_aux_sign. lia.
Qed.

Lemma binary_normalize_not_nan (m e : Z) (szero : bool) :
  is_nan (binary_normalize prec emax m e szero) = false.
Proof.
  unfold binary_normalize. destruct m as [|p|p]; [reflexivity| |].
  - pose proof (binary_round_sign false p e) as H.
    destruct (binary_round prec emax false p e); tauto.
  - pose proof (binary_round_sign true p e) as H.
    destruct (binary_round prec emax true p e); tauto.
Qed.

Lemma fsub_finite (a b : float) :
  is_finite a = true -> is_finite b = true -> is_nan (fsub a b) = false.
Proof.
  unfold fsub, SFsub.
  destruct a as [sa|sa| |sa ma ea], b as [sb|sb| |sb mb eb];
    try discriminate; intros _ _.
  - destruct sa, sb; reflexivity.
  - reflexivity.
  - reflexivity.
  - apply binary_normalize_not_nan.
Qed.

Lemma fmul_self_nonneg (a : float) :
  is_nan a = false -> nonneg (fmul a a) = true.
Proof.
  unfold fmul, SFmul. destruct a as [s|s| |s m e]; try discriminate; intros _.
  - destruct s; reflexivity.
  - destruct s; reflexivity.
  - pose proof (binary_round_aux_sign (xorb s s) (Z.pos (m * m)) (e + e)
                  loc_Exact ltac:(lia)) as H.
    rewrite xorb_nilpotent in *.
    destruct (binary_round_aux prec emax false (Z.pos (m * m)) (e + e) loc_Exact);
      try tauto; subst; reflexivity.
Qed.

Lemma fadd_nonneg (a b : float) :
  nonneg a = true -> nonneg b = true -> nonneg (fadd a b) = true.
Proof.
  unfold fadd, SFadd.
  destruct a as [[|]|[|]| |[|] ma ea], b as [[|]|[|]| |[|] mb eb];
    try discriminate; intros _ _; try reflexivity.
  simpl cond_Zopp. unfold binary_normalize. simpl Z.add. cbv beta iota.
  match goal with
  | |- nonneg (binary_round _ _ false ?m ?e) = true =>
      pose proof (binary_round_sign false m e) as H;
      destruct (binary_round prec emax false m e)
  end; try tauto; subst; reflexivity.
Qed.

Lemma nonneg_not_nan (a : float) : nonneg a = true -> is_nan a = false.
Proof. destruct a as [[|]|[|]| |[|] m e]; try discriminate; reflexivity. Qed.

Lemma lengthSquared_not_nan (w : Vec3.t) :
  is_nan (Vec3.x w) = false -> is_nan (Vec3.y w) = false ->
  is_nan (Vec3.z w) = false ->
  is_nan (Vec3.lengthSquared w) = false.
Proof.
  intros Hx Hy Hz. apply nonneg_not_nan. unfold Vec3.lengthSquared.
  repeat apply fadd_nonneg; apply fmul_self_nonneg; assumption.
Qed.

Lemma vertex_at_finite (vertices : list float) (idx : Z) (w : Vec3.t) :
  Forall (fun c => is_finite c = true) vertices ->
  vertex_at vertices idx = Some w ->
  is_finite (Vec3.x w) = true /\ is_finite (Vec3.y w) = true
  /\ is_finite (Vec3.z w) = true.
Proof.
  intros Hall H. unfold vertex_at in H. do 5 inv_bind H. inversion H; subst.
  rewrite Forall_forall in Hall.
  assert (Hin : forall i c, at_ vertices i = Some c -> In c vertices).
  { intros i c Hc. unfold at_ in Hc. destruct (i <? 0); [discriminate|].
    eapply nth_error_In; eauto. }
  simpl. repeat split; apply Hall; eapply Hin; eauto.
Qed.

Lemma position_finite (vertices : list float) (start n : Z) :
  Forall (fun c => is_finite c = true) vertices ->
  is_finite (Vec3.x (position vertices start n)) = true
  /\ is_finite (Vec3.y (position vertices start n)) = true
  /\ is_finite (Vec3.z (position vertices start n)) = true.
Proof.
  intros Hall. unfold position.
  destruct (idx <- vertex_index start n ;; vertex_at vertices idx) as [w|] eqn:E.
  - inv_bind E. eapply vertex_at_finite; eauto.
  - repeat split; reflexivity.
Qed.

Lemma finite_distance_not_nan (vertices : list float) (start v other : Z) :
  Forall (fun c => is_finite c = true) vertices ->
  is_nan (distance_squared vertices start v other) = false.
Proof.
  intros Hall. unfold distance_squared.
  destruct (position_finite vertices start other Hall) as (Ox & Oy & Oz).
  destruct (position_finite vertices start v Hall) as (Vx & Vy & Vz).
  apply lengthSquared_not_nan; simpl; apply fsub_finite; assumption.
Qed.

(** ** The neighbor selection (lines 72-89) *)

Lemma size_perm {A : Type} (l l' : list A) :
  Permutation l l' -> size l = size l'.
Proof. intros H. unfold size. rewrite (Permutation_length H). reflexivity. Qed.

Lemma size_map {A B : Type} (f : A -> B) (l : list A) : size (map f l) = size l.
Proof. unfold size. rewrite length_map. reflexivity. Qed.

Lemma size_firstn {A : Type} (l : list A) (m : Z) :
  0 <= m <= size l -> size (firstn (Z.to_nat m) l) = m.
Proof. unfold size. intros H. rewrite firstn_length_le by lia. lia. Qed.

(** The selection for a readable cell and distances that are not NaN: the
    distances to the other vertices, sorted. *)
Lemma select_neighbors_result (vertices : list float)
    (start cellSize v maxNeighbors : Z) :
  0 <= v < cellSize ->
  0 <= maxNeighbors ->
  cell_readable vertices start cellSize ->
  (forall other, 0 <= other < cellSize ->
     is_nan (distance_squared vertices start v other) = false) ->
  exists distances,
    distances = map (fun other =>
                       (distance_squared vertices start v other, other))
                    (others cellSize v)
    /\ no_nan distances
    /\ size distances = cellSize - 1
    /\ select_neighbors vertices start cellSize v (position vertices start v)
         maxNeighbors
       = Some (sort distances, Z.min maxNeighbors (cellSize - 1)).
Proof.
  intros Hv HK Hread Hnan.
  set (center := position vertices start v).
  destruct (collect_distances_defined vertices start cellSize v center Hread)
    as (ds & Hds).
  assert (Hcs0 : 0 <= cellSize) by lia.
  pose proof (collect_distances_Some vertices start cellSize v center ds
                Hcs0 Hds) as Heq.
  exists ds.
  assert (Hsize : size ds = cellSize - 1).
  { rewrite Heq, size_map. apply size_others_in_cell. assumption. }
  assert (Hnn : no_nan ds).
  { unfold no_nan. rewrite Heq. apply Forall_map. apply Forall_forall.
    intros o Ho. apply In_others in Ho. simpl. apply (Hnan o). lia. }
  split; [exact Heq|]. split; [exact Hnn|]. split; [exact Hsize|].
  unfold select_neighbors. fold center. rewrite Hds. simpl.
  assert (Hp : partial_sort (Z.min maxNeighbors (size ds)) ds = Some (sort ds)).
  { apply partial_sort_Some. pose proof (size_nonneg ds).
    split; [lia|]. split; [|reflexivity].
    apply no_nan_strict_weak_ordering. assumption. }
  rewrite Hp. simpl. rewrite Hsize. reflexivity.
Qed.

Lemma unit_square_readable : cell_readable unit_square 0 4.
Proof.
  intros n Hn.
  assert (Hc : n = 0 \/ n = 1 \/ n = 2 \/ n = 3) by lia.
  destruct Hc as [-> | [-> | [-> | ->]]]; do 2 eexists; split; reflexivity.
Defined.

(** ** Counting the acute pairs (lines 92-107) *)

Lemma slice_nil {A : Type} (v : list A) (k n : Z) : n <= k -> slice v k n = [].
Proof.
  intros H. unfold slice. replace (Z.to_nat (n - k)) with O by lia. reflexivity.
Qed.

Lemma skipn_nth_error {A : Type} (l : list A) (k : nat) (d : A) :
  nth_error l k = Some d -> skipn k l = d :: skipn (S k) l.
Proof.
  revert k. induction l as [|a l IH]; intros [|k] H; simpl in *;
    try discriminate.
  - inversion H. reflexivity.
  - apply IH. assumption.
Qed.

Lemma slice_cons {A : Type} (v : list A) (k n : Z) (d : A) :
  0 <= k < n -> at_ v k = Some d -> slice v k n = d :: slice v (k + 1) n.
Proof.
  intros Hk Hd. unfold slice, at_ in *.
  replace (k <? 0) with false in Hd by (symmetry; apply Z.ltb_ge; lia).
  rewrite (skipn_nth_error _ _ _ Hd).
  replace (Z.to_nat (n - k)) with (S (Z.to_nat (n - (k + 1)))) by lia.
  replace (Z.to_nat (k + 1)) with (S (Z.to_nat k)) by lia.
  reflexivity.
Qed.

Lemma slice_prefix {A : Type} (v : list A) (n : Z) :
  slice v 0 n = firstn (Z.to_nat n) v.
Proof. unfold slice. rewrite Z.sub_0_r. reflexivity. Qed.

Lemma size_cons {A : Type} (a : A) (l : list A) : size (a :: l) = 1 + size l.
Proof. unfold size. simpl length. lia. Qed.

Lemma size_filter_map {A B : Type} (p : B -> bool) (g : A -> B) (l : list A) :
  size (filter p (map g l)) = size (filter (fun a => p (g a)) l).
Proof.
  induction l as [|a l IH]; simpl; [reflexivity|].
  destruct (p (g a)); rewrite ?size_cons, IH; reflexivity.
Qed.

Lemma unordered_pairs_map {A B : Type} (g : A -> B) (l : list A) :
  unordered_pairs (map g l)
  = map (fun p => (g (fst p), g (snd p))) (unordered_pairs l).
Proof.
  induction l as [|a l IH]; simpl; [reflexivity|].
  rewrite map_app, !map_map, IH. reflexivity.
Qed.

Lemma size_unordered_pairs {A : Type} (l : list A) :
  2 * size (unordered_pairs l) = size l * (size l - 1).
Proof.
  induction l as [|a l IH]; [reflexivity|].
  simpl unordered_pairs. rewrite size_app, size_map, size_cons. lia.
Qed.

Lemma size_filter_le {A : Type} (p : A -> bool) (l : list A) :
  0 <= size (filter p l) <= size l.
Proof.
  unfold size. pose proof (filter_length_le p l). lia.
Qed.

Section Counting.

Variable acosf : float -> float.
Variable vertices : list float.
Variables (start : Z) (center : Vec3.t).
Variable distances : list (float * Z).
Variable numNeighbors : Z.

Local Abbreviation disp := (displacement vertices start center).
Local Abbreviation acute := (acute_entries acosf vertices start center).

Lemma neighbor_vec_Some (j : Z) (w : Vec3.t) :
  neighbor_vec vertices start center distances j = Some w ->
  exists d, at_ distances j = Some d /\ w = disp d.
Proof.
  unfold neighbor_vec. intros H. do 3 inv_bind H. inversion H; subst.
  exists a. split; [assumption|]. unfold displacement.
  rewrite (position_read _ _ _ _ _ E0 E1). reflexivity.
Qed.

Lemma inner_loop_count (d1 : float * Z) (fuel : nat) :
  forall k acc acc',
    Z.to_nat (numNeighbors - k) = fuel -> 0 <= k ->
    for_range k numNeighbors
      (fun k acuteAngles =>
         vec2 <- neighbor_vec vertices start center distances k ;;
         let angle := calculateAngle acosf (disp d1) vec2 in
         if is_acute angle then int_op (acuteAngles + 1)
         else Some acuteAngles)
      acc = Some acc' ->
    acc' = acc + size (filter (acute d1) (slice distances k numNeighbors)).
Proof.
  induction fuel as [|fuel IH]; intros k acc acc' Hf Hk H.
  - rewrite for_range_done in H by lia. inversion H.
    rewrite slice_nil by lia. unfold size. simpl. lia.
  - rewrite for_range_step in H by lia. inv_bind H. inv_bind E.
    apply neighbor_vec_Some in E0. destruct E0 as (d & Hd & ->).
    rewrite (slice_cons distances k numNeighbors d) by (assumption || lia).
    simpl filter.
    cbv zeta in E.
    change (is_acute (calculateAngle acosf (disp d1) (disp d)))
      with (acute d1 d) in E.
    apply IH in H; [|lia|lia].
    destruct (acute d1 d).
    + apply int_op_Some in E. rewrite size_cons. lia.
    + inversion E. lia.
Qed.

Lemma outer_loop_count (fuel : nat) :
  forall j acc acc',
    Z.to_nat (numNeighbors - j) = fuel -> 0 <= j ->
    for_range j numNeighbors
      (fun j acuteAngles =>
         vec1 <- neighbor_vec vertices start center distances j ;;
         for_range (j + 1) numNeighbors
           (fun k acuteAngles =>
              vec2 <- neighbor_vec vertices start center distances k ;;
              let angle := calculateAngle acosf vec1 vec2 in
              if is_acute angle then int_op (acuteAngles + 1)
              else Some acuteAngles)
           acuteAngles)
      acc = Some acc' ->
    acc' = acc + size (filter (fun p => acute (fst p) (snd p))
                         (unordered_pairs (slice distances j numNeighbors))).
Proof.
  induction fuel as [|fuel IH]; intros j acc acc' Hf Hj H.
  - rewrite for_range_done in H by lia. inversion H.
    rewrite slice_nil by lia. unfold size. simpl. lia.
  - rewrite for_range_step in H by lia. inv_bind H. inv_bind E.
    apply neighbor_vec_Some in E0. destruct E0 as (d & Hd & ->).
    rewrite (slice_cons distances j numNeighbors d) by (assumption || lia).
    simpl unordered_pairs.
    rewrite filter_app, size_app, size_filter_map. simpl.
    apply (inner_loop_count d (Z.to_nat (numNeighbors - (j + 1)))) in E;
      [|reflexivity|lia].
    apply IH in H; [|lia|lia].
    subst a acc'. rewrite Z.add_assoc. reflexivity.
Qed.

Lemma count_acute_pairs_count (acc acc' : Z) :
  count_acute_pairs acosf vertices start center distances numNeighbors acc
    = Some acc' ->
  acc' = acc + size (filter (fun p => acute (fst p) (snd p))
                       (unordered_pairs
                          (firstn (Z.to_nat numNeighbors) distances))).
Proof.
  intros H. rewrite <- slice_prefix.
  apply (outer_loop_count (Z.to_nat (numNeighbors - 0))); auto. lia.
Qed.

End Counting.

(** ** The count of a vertex and of a cell *)

Lemma select_neighbors_Some (vertices : list float) (start cellSize v : Z)
    (center : Vec3.t) (maxNeighbors : Z) (sorted : list (float * Z))
    (numNeighbors : Z) :
  select_neighbors vertices start cellSize v center maxNeighbors
    = Some (sorted, numNeighbors) ->
  exists distances,
    collect_distances vertices start cellSize v center = Some distances
    /\ strict_weak_ordering distances = true
    /\ sorted = sort distances
    /\ numNeighbors = Z.min maxNeighbors (size distances)
    /\ 0 <= numNeighbors <= size sorted.
Proof.
  unfold select_neighbors. intros H. do 2 inv_bind H. inversion H; subst.
  apply partial_sort_Some in E0. destruct E0 as (H0 & Hn & ->).
  exists a. repeat split; auto.
  rewrite (size_perm _ _ (sort_perm a)). lia.
Qed.

Lemma size_selected_neighbors (vertices : list float)
    (start cellSize maxNeighbors v : Z) :
  0 <= v < cellSize -> 0 <= maxNeighbors ->
  0 <= size (selected_neighbors vertices start cellSize maxNeighbors v)
    <= Z.min maxNeighbors (cellSize - 1).
Proof.
  intros Hv HK. unfold selected_neighbors.
  destruct (select_neighbors vertices start cellSize v
              (position vertices start v) maxNeighbors)
    as [[sorted m]|] eqn:E.
  - apply select_neighbors_Some in E.
    destruct E as (ds & Hc & _ & -> & -> & Hm).
    apply collect_distances_Some in Hc; [|lia].
    assert (Hs : size ds = cellSize - 1).
    { rewrite Hc, size_map. apply size_others_in_cell. assumption. }
    rewrite size_map, size_firstn by assumption. lia.
  - unfold size. simpl. lia.
Qed.

Lemma score_vertex_count (acosf : float -> float) (vertices : list float)
    (start cellSize maxNeighbors v acc acc' : Z) :
  score_vertex acosf vertices start cellSize maxNeighbors v acc = Some acc' ->
  acc' = acc + acute_pairs_at acosf vertices start cellSize maxNeighbors v.
Proof.
  unfold score_vertex. intros H. do 3 inv_bind H.
  rewrite <- (position_read _ _ _ _ _ E E0) in *.
  destruct a1 as [sorted m]. simpl in H.
  apply count_acute_pairs_count in H. rewrite H. f_equal.
  unfold acute_pairs_at, selected_neighbors. rewrite E1.
  rewrite unordered_pairs_map, size_filter_map. reflexivity.
Qed.

Lemma sum_Z_app (l l' : list Z) : sum_Z (l ++ l') = sum_Z l + sum_Z l'.
Proof.
  unfold sum_Z. induction l as [|a l IH]; simpl; [reflexivity|]. rewrite IH. lia.
Qed.

Lemma cell_acute_angles_total (acosf : float -> float)
    (vertices : list float) (start cellSize maxNeighbors acuteAngles : Z) :
  0 <= cellSize ->
  cell_acute_angles acosf vertices start cellSize maxNeighbors
    = Some acuteAngles ->
  acuteAngles = total_acute acosf vertices start cellSize maxNeighbors.
Proof.
  intros Hcs H. unfold cell_acute_angles, total_acute in *.
  set (f := acute_pairs_at acosf vertices start cellSize maxNeighbors).
  apply (for_range_invariant (fun i acc => acc = sum_Z (map f (range i))))
    with (s := 0) in H; [exact H | assumption | | reflexivity].
  intros i acc acc' Hi -> Hb. apply score_vertex_count in Hb.
  rewrite range_succ, map_app, sum_Z_app by lia. unfold sum_Z at 2. simpl.
  subst acc'. unfold f. lia.
Qed.

Lemma sum_Z_bounds (f : Z -> Z) (bound : Z) (l : list Z) :
  (forall a, In a l -> 0 <= f a /\ 2 * f a <= bound) ->
  0 <= sum_Z (map f l) /\ 2 * sum_Z (map f l) <= size l * bound.
Proof.
  induction l as [|a l IH]; intros H.
  - unfold sum_Z, size. simpl. lia.
  - destruct IH as (I1 & I2); [intros b Hb; apply H; right; assumption|].
    destruct (H a (or_introl eq_refl)) as (H1 & H2).
    rewrite size_cons. simpl map. unfold sum_Z in *. simpl fold_right. lia.
Qed.

Lemma size_range (n : Z) : 0 <= n -> size (range n) = n.
Proof.
  intros H. unfold size, range. rewrite length_map, length_seq. lia.
Qed.

Lemma pairs_mono (n m : Z) : 0 <= n <= m -> n * (n - 1) <= m * (m - 1).
Proof.
  intros H. destruct (Z.eq_dec m 0) as [->|Hm].
  - replace n with 0 by lia. lia.
  - assert (0 <= (m - n) * (m + n - 1)) by (apply Z.mul_nonneg_nonneg; lia).
    lia.
Qed.

Lemma acute_pairs_at_bounds (acosf : float -> float) (vertices : list float)
    (start cellSize maxNeighbors v : Z) :
  0 <= v < cellSize -> 0 <= maxNeighbors ->
  0 <= acute_pairs_at acosf vertices start cellSize maxNeighbors v
  /\ 2 * acute_pairs_at acosf vertices start cellSize maxNeighbors v
     <= Z.min maxNeighbors (cellSize - 1)
        * (Z.min maxNeighbors (cellSize - 1) - 1).
Proof.
  intros Hv HK. unfold acute_pairs_at.
  pose proof (size_selected_neighbors vertices start cellSize maxNeighbors v
                Hv HK) as Hs.
  set (l := selected_neighbors vertices start cellSize maxNeighbors v) in *.
  pose proof (size_filter_le (acute_at acosf vertices start v)
                (unordered_pairs l)) as Hf.
  pose proof (size_unordered_pairs l) as Hu.
  pose proof (pairs_mono (size l) (Z.min maxNeighbors (cellSize - 1))
                ltac:(lia)) as Hp.
  split; lia.
Qed.

Lemma total_acute_bounds (acosf : float -> float) (vertices : list float)
    (start cellSize maxNeighbors : Z) :
  0 <= cellSize -> 0 <= maxNeighbors ->
  0 <= total_acute acosf vertices start cellSize maxNeighbors
  /\ 2 * total_acute acosf vertices start cellSize maxNeighbors
     <= cellSize * (Z.min maxNeighbors (cellSize - 1)
                    * (Z.min maxNeighbors (cellSize - 1) - 1)).
Proof.
  intros Hcs HK. unfold total_acute.
  pose proof (sum_Z_bounds
                (acute_pairs_at acosf vertices start cellSize maxNeighbors)
                (Z.min maxNeighbors (cellSize - 1)
                 * (Z.min maxNeighbors (cellSize - 1) - 1))
                (range cellSize)) as H.
  rewrite size_range in H by assumption. apply H.
  intros v Hv. apply In_range in Hv.
  apply acute_pairs_at_bounds; assumption.
Qed.

Lemma product_of_consecutive_even (m : Z) : m * (m - 1) = 2 * (m * (m - 1) / 2).
Proof.
  apply Z.div_exact; [lia|].
  destruct (Z.Even_or_Odd m) as [[k ->]|[k ->]].
  - replace (2 * k * (2 * k - 1)) with ((k * (2 * k - 1)) * 2) by ring.
    apply Z.mod_mul. lia.
  - replace ((2 * k + 1) * (2 * k + 1 - 1)) with (((2 * k + 1) * k) * 2)
      by ring.
    apply Z.mod_mul. lia.
Qed.

Lemma total_acute_nonneg (acosf : float -> float) (vertices : list float)
    (start cellSize maxNeighbors : Z) :
  0 <= total_acute acosf vertices start cellSize maxNeighbors.
Proof.
  unfold total_acute. induction (range cellSize) as [|v l IH].
  - unfold sum_Z. simpl. lia.
  - simpl map. unfold sum_Z in *. simpl fold_right.
    unfold acute_pairs_at at 1.
    match goal with |- context [filter ?p ?pairs] =>
      pose proof (size_filter_le p pairs) end.
    lia.
Qed.

(** The score of a cell of at least four vertices, when the pass returns,
    is T / cellSize, the division truncating or flooring alike. *)
Lemma cell_score_large (acosf : float -> float) (vertices : list float)
    (start end_ maxNeighbors cellSize s : Z) :
  cell_size start end_ = Some cellSize ->
  4 <= cellSize ->
  cell_score acosf vertices start end_ maxNeighbors = Some s ->
  s = Z.quot (total_acute acosf vertices start cellSize maxNeighbors) cellSize
  /\ s = total_acute acosf vertices start cellSize maxNeighbors / cellSize.
Proof.
  intros Hcs H4 H. unfold cell_score in H. rewrite Hcs in H. simpl in H.
  replace (cellSize <? 4) with false in H by (symmetry; apply Z.ltb_ge; lia).
  inv_bind H. inversion H; subst s; clear H.
  apply cell_acute_angles_total in E; [|lia]. subst a.
  pose proof (total_acute_nonneg acosf vertices start cellSize maxNeighbors).
  rewrite Z.quot_div_nonneg by lia. split; reflexivity.
Qed.

(** ... and lies between 0 and the number of pairs of
    [min(K, cellSize - 1)] neighbors. *)
Lemma cell_score_bounds (acosf : float -> float) (vertices : list float)
    (start end_ maxNeighbors s : Z) :
  0 <= maxNeighbors ->
  cell_score acosf vertices start end_ maxNeighbors = Some s ->
  0 <= s <= maxNeighbors * (maxNeighbors - 1) / 2.
Proof.
  intros HK H.
  assert (HK0 : 0 <= maxNeighbors * (maxNeighbors - 1) / 2).
  { apply Z.div_pos; [|lia].
    pose proof (pairs_mono 0 maxNeighbors ltac:(lia)). lia. }
  pose proof H as Hs. unfold cell_score in H. inv_bind H.
  destruct (a <? 4) eqn:E4.
  - inversion H. lia.
  - apply Z.ltb_ge in E4.
    destruct (cell_score_large acosf vertices start end_ maxNeighbors a s E E4 Hs)
      as (_ & ->).
    destruct (total_acute_bounds acosf vertices start a maxNeighbors)
      as (HT0 & HT); [lia | assumption |].
    set (T := total_acute acosf vertices start a maxNeighbors) in *.
    set (m := Z.min maxNeighbors (a - 1)) in *.
    pose proof (pairs_mono m maxNeighbors ltac:(lia)) as Hm.
    rewrite (product_of_consecutive_even m) in HT.
    rewrite (product_of_consecutive_even m) in Hm.
    rewrite (product_of_consecutive_even maxNeighbors) in Hm.
    split.
    + apply Z.div_pos; lia.
    + apply Z.div_le_upper_bound; [lia|].
      apply Z.le_trans with (a * (m * (m - 1) / 2)); [lia|].
      apply Z.mul_le_mono_nonneg_l; lia.
Qed.

(** ** The full pass *)

Lemma Forall_at {A : Type} (P : A -> Prop) (l : list A) :
  (forall i a, at_ l i = Some a -> P a) -> Forall P l.
Proof.
  intros H. apply Forall_forall. intros a Ha.
  apply In_nth_error in Ha. destruct Ha as (n & Hn).
  apply (H (Z.of_nat n)). unfold at_.
  replace (Z.of_nat n <? 0) with false by (symmetry; apply Z.ltb_ge; lia).
  rewrite Nat2Z.id. assumption.
Qed.

(** C9: for K >= 0 every score of a full pass that returns lies in
    [0, K (K - 1) / 2]: a vertex of a cell of [cellSize] vertices adds at
    most the number of pairs of [min(K, cellSize - 1)] neighbors, and the
    total is divided by [cellSize]. *)
Theorem scores_are_bounded :
  forall (acosf : float -> float) (vertices : list float)
         (cellIndices : list Z) (maxNeighbors : Z) (scores : list Z),
    0 <= maxNeighbors ->
    calculateCellAcuteness acosf vertices cellIndices maxNeighbors
      = Some scores ->
    Forall (fun s => 0 <= s <= maxNeighbors * (maxNeighbors - 1) / 2) scores
    /\ (maxNeighbors = DEFAULT_MAX_NEIGHBORS ->
        Forall (fun s => 0 <= s <= 15) scores)
    /\ (forall start cellSize v,
          0 <= v < cellSize ->
          0 <= acute_pairs_at acosf vertices start cellSize maxNeighbors v
          /\ 2 * acute_pairs_at acosf vertices start cellSize maxNeighbors v
             <= Z.min maxNeighbors (cellSize - 1)
                * (Z.min maxNeighbors (cellSize - 1) - 1)).
Proof.
  intros acosf vertices cellIndices K scores HK H.
  assert (Hall : Forall (fun s => 0 <= s <= K * (K - 1) / 2) scores).
  { apply full_pass_scores in H. destruct H as (Hsz & H).
    apply Forall_at. intros i s Hs.
    pose proof (at_Some _ _ _ Hs) as Hi.
    destruct (H i) as (st & en & s' & _ & _ & Hc & Hs'); [lia|].
    rewrite Hs in Hs'. inversion Hs'; subst s'.
    apply (cell_score_bounds acosf vertices st en K s HK Hc). }
  split; [exact Hall|]. split.
  - intros ->. exact Hall.
  - intros start cs v Hv. apply acute_pairs_at_bounds; assumption.
Qed.

Lemma scores_are_bounded_witness :
  Forall (fun s => 0 <= s <= 6 * (6 - 1) / 2) [2].
Proof.
  refine (proj1 (scores_are_bounded acos_chord unit_square [0; 12] 6 [2] _ _)).
  - lia.
  - vm_compute. reflexivity.
Defined.

(** ** When the full pass returns *)

Lemma for_range_total {S : Type} (P : Z -> S -> Prop)
    (lo hi : Z) (body : Z -> S -> option S) :
  lo <= hi ->
  (forall i s, lo <= i < hi -> P i s ->
     exists s', body i s = Some s' /\ P (i + 1) s') ->
  forall s, P lo s -> exists s', for_range lo hi body s = Some s' /\ P hi s'.
Proof.
  intros Hle Hstep s HP.
  destruct (for_range_defined P lo hi body Hstep s HP) as (s' & Hs').
  exists s'. split; [assumption|].
  apply (for_range_invariant P lo hi body Hle) with (s := s); auto.
  intros i t t' Hi Ht Hb. destruct (Hstep i t Hi Ht) as (t'' & Hb' & Ht'').
  congruence.
Qed.

Lemma vertex_index_defined (start n : Z) :
  0 <= start -> 0 <= n -> start + 3 * n <= INT_MAX ->
  vertex_index start n = Some (start + n * 3).
Proof.
  intros Hs Hn Hm. unfold vertex_index.
  rewrite int_op_in_range by (unfold INT_MIN, INT_MAX in *; lia). simpl.
  apply int_op_in_range. unfold INT_MIN, INT_MAX in *. lia.
Qed.

Lemma vertex_at_defined (vertices : list float) (idx : Z) :
  vector_fits vertices -> 0 <= idx -> idx + 2 < size vertices ->
  exists w, vertex_at vertices idx = Some w.
Proof.
  unfold vector_fits. intros Hf Hi Hs. unfold vertex_at.
  destruct (at_in_range vertices idx) as (a & Ha); [lia|].
  destruct (at_in_range vertices (idx + 1)) as (b & Hb); [lia|].
  destruct (at_in_range vertices (idx + 2)) as (c & Hc); [lia|].
  rewrite Ha. simpl.
  rewrite int_op_in_range by (unfold INT_MIN, INT_MAX in *; lia). simpl.
  rewrite Hb. simpl.
  rewrite int_op_in_range by (unfold INT_MIN, INT_MAX in *; lia). simpl.
  rewrite Hc. simpl. eauto.
Qed.

Lemma cell_in_buffer_readable (vertices : list float) (start cellSize : Z) :
  vector_fits vertices -> 0 <= start ->
  start + 3 * cellSize <= size vertices ->
  cell_readable vertices start cellSize.
Proof.
  intros Hf Hs Hc n Hn. pose proof Hf as Hf'. unfold vector_fits in Hf'.
  exists (start + n * 3).
  destruct (vertex_at_defined vertices (start + n * 3)) as (w & Hw);
    [assumption | lia | lia |].
  exists w. split; [|assumption].
  apply vertex_index_defined; lia.
Qed.

Lemma neighbor_vec_defined (vertices : list float) (start cellSize : Z)
    (center : Vec3.t) (distances : list (float * Z)) (j : Z) (d : float * Z) :
  cell_readable vertices start cellSize ->
  at_ distances j = Some d -> 0 <= snd d < cellSize ->
  exists w, neighbor_vec vertices start center distances j = Some w.
Proof.
  intros Hr Hd Hs. unfold neighbor_vec. rewrite Hd. simpl.
  destruct (Hr (snd d) Hs) as (idx & w & H1 & H2).
  rewrite H1. simpl. rewrite H2. simpl. eauto.
Qed.

Lemma count_acute_pairs_defined (acosf : float -> float)
    (vertices : list float) (start cellSize : Z) (center : Vec3.t)
    (distances : list (float * Z)) (numNeighbors acc : Z) :
  cell_readable vertices start cellSize ->
  Forall (fun d => 0 <= snd d < cellSize) distances ->
  0 <= numNeighbors <= size distances ->
  0 <= acc ->
  2 * acc + numNeighbors * (numNeighbors - 1) <= 2 * INT_MAX ->
  exists acc',
    count_acute_pairs acosf vertices start center distances numNeighbors acc
      = Some acc'.
Proof.
  intros Hr Hall Hn Hacc Hmax. unfold count_acute_pairs.
  assert (Hvec : forall j, 0 <= j < numNeighbors ->
            exists w, neighbor_vec vertices start center distances j = Some w).
  { intros j Hj. destruct (at_in_range distances j) as (d & Hd); [lia|].
    apply (neighbor_vec_defined vertices start cellSize center distances j d);
      auto.
    rewrite Forall_forall in Hall. apply Hall.
    unfold at_ in Hd. destruct (j <? 0); [discriminate|].
    eapply nth_error_In; eauto. }
  set (n := numNeighbors) in *.
  destruct (for_range_total
    (fun j a => acc <= a /\ 2 * (a - acc) <= j * (2 * n - j - 1))
    0 n
    (fun j acuteAngles =>
       vec1 <- neighbor_vec vertices start center distances j ;;
       for_range (j + 1) n
         (fun k acuteAngles =>
            vec2 <- neighbor_vec vertices start center distances k ;;
            let angle := calculateAngle acosf vec1 vec2 in
            if is_acute angle then int_op (acuteAngles + 1)
            else Some acuteAngles)
         acuteAngles)) with (s := acc) as (acc' & Hacc' & _);
    [lia | | lia | eauto].
  intros j a Hj (Ha1 & Ha2).
  destruct (Hvec j Hj) as (vec1 & Hv1). rewrite Hv1. cbn [bind].
  pose proof (pairs_mono 0 (n - j - 1) ltac:(lia)) as Hpos.
  destruct (for_range_total
    (fun k b => a <= b <= a + (k - (j + 1)))
    (j + 1) n
    (fun k acuteAngles =>
       vec2 <- neighbor_vec vertices start center distances k ;;
       let angle := calculateAngle acosf vec1 vec2 in
       if is_acute angle then int_op (acuteAngles + 1)
       else Some acuteAngles)) with (s := a) as (a' & Ha' & Hb);
    [lia | | lia |].
  - intros k b Hk Hb.
    destruct (Hvec k ltac:(lia)) as (vec2 & Hv2). rewrite Hv2. cbn [bind].
    destruct (is_acute (calculateAngle acosf vec1 vec2)).
    + rewrite int_op_in_range by (unfold INT_MIN, INT_MAX in *; nia).
      eexists. split; [reflexivity | lia].
    + eexists. split; [reflexivity | lia].
  - exists a'. split; [assumption|]. split; [lia|].
    replace ((j + 1) * (2 * n - (j + 1) - 1))
      with (j * (2 * n - j - 1) + 2 * (n - j - 1)) by ring.
    lia.
Qed.

Lemma score_vertex_defined (acosf : float -> float) (vertices : list float)
    (start cellSize maxNeighbors v acc : Z) :
  cell_readable vertices start cellSize ->
  0 <= v < cellSize -> 0 <= maxNeighbors ->
  (forall other, 0 <= other < cellSize ->
     is_nan (distance_squared vertices start v other) = false) ->
  0 <= acc ->
  2 * acc + Z.min maxNeighbors (cellSize - 1)
            * (Z.min maxNeighbors (cellSize - 1) - 1) <= 2 * INT_MAX ->
  exists acc',
    score_vertex acosf vertices start cellSize maxNeighbors v acc = Some acc'.
Proof.
  intros Hr Hv HK Hnan Hacc Hmax. unfold score_vertex.
  destruct (Hr v Hv) as (vIdx & center & H1 & H2).
  rewrite H1. cbn [bind]. rewrite H2. cbn [bind].
  destruct (select_neighbors_result vertices start cellSize v maxNeighbors
              Hv HK Hr Hnan) as (ds & Heq & Hnn & Hsize & Hsel).
  rewrite (position_read _ _ _ _ _ H1 H2) in Hsel. rewrite Hsel. cbn [bind fst snd].
  apply (count_acute_pairs_defined acosf vertices start cellSize); auto.
  - apply (Permutation_Forall (Permutation_sym (sort_perm ds))).
    rewrite Heq. apply Forall_map. apply Forall_forall.
    intros o Ho. apply In_others in Ho. simpl. lia.
  - rewrite (size_perm _ _ (sort_perm ds)). lia.
Qed.

Lemma cell_acute_angles_defined (acosf : float -> float)
    (vertices : list float) (start cellSize maxNeighbors : Z) :
  cell_readable vertices start cellSize ->
  0 <= cellSize -> 0 <= maxNeighbors ->
  cell_scorable vertices start cellSize maxNeighbors ->
  exists acuteAngles,
    cell_acute_angles acosf vertices start cellSize maxNeighbors
      = Some acuteAngles.
Proof.
  intros Hr Hcs HK (Hnan & Hmax). unfold cell_acute_angles.
  set (m := Z.min maxNeighbors (cellSize - 1)) in *.
  destruct (for_range_total
    (fun v a => 0 <= a /\ 2 * a <= v * (m * (m - 1)))
    0 cellSize (score_vertex acosf vertices start cellSize maxNeighbors))
    with (s := 0) as (a & Ha & _); [assumption | | lia | eauto].
  intros v a Hv (Ha0 & Ha).
  assert (Hm : 0 <= m * (m - 1)).
  { destruct (Z.le_gt_cases 0 m) as [Hm|Hm].
    - pose proof (pairs_mono 0 m ltac:(lia)). lia.
    - nia. }
  assert (Hstep : (v + 1) * (m * (m - 1)) <= cellSize * (m * (m - 1)))
    by (apply Z.mul_le_mono_nonneg_r; lia).
  destruct (score_vertex_defined acosf vertices start cellSize maxNeighbors
              v a Hr Hv HK) as (a' & Ha').
  - intros other Ho. apply Hnan; assumption.
  - assumption.
  - fold m. lia.
  - exists a'. split; [assumption|].
    pose proof (score_vertex_count _ _ _ _ _ _ _ _ Ha') as Hc.
    destruct (acute_pairs_at_bounds acosf vertices start cellSize
                maxNeighbors v Hv HK) as (B0 & B1).
    fold m in B1. lia.
Qed.

Lemma cell_size_defined (start end_ : Z) :
  0 <= start <= INT_MAX -> 0 <= end_ <= INT_MAX ->
  cell_size start end_ = Some (Z.quot (end_ - start) 3).
Proof.
  intros Hs He. unfold cell_size.
  rewrite int_op_in_range by (unfold INT_MIN, INT_MAX in *; lia).
  reflexivity.
Qed.

Lemma quot_3_large (d : Z) :
  4 <= Z.quot d 3 -> 0 <= d /\ 3 * Z.quot d 3 <= d.
Proof.
  intros H4.
  assert (Hd : 0 <= d).
  { destruct (Z.le_gt_cases 0 d) as [H|H]; [assumption|].
    pose proof (Z.quot_opp_l (- d) 3 ltac:(lia)) as Ho.
    rewrite Z.opp_involutive in Ho.
    pose proof (Z.quot_pos (- d) 3 ltac:(lia) ltac:(lia)). lia. }
  split; [assumption|].
  rewrite Z.quot_div_nonneg by lia. apply Z.mul_div_le. lia.
Qed.

(** The full pass returns, with one score for each cell, on every
    CellTable whose offsets lie in the buffer, for K >= 0, when the cells
    of four or more vertices have distances that are not NaN and counts
    that fit an [int]. *)
Lemma full_pass_defined (acosf : float -> float) (vertices : list float)
    (cellIndices : list Z) (maxNeighbors : Z) :
  has_cells cellIndices ->
  vector_fits cellIndices ->
  vector_fits vertices ->
  offsets_in_buffer vertices cellIndices ->
  0 <= maxNeighbors ->
  (forall i start end_,
     at_ cellIndices i = Some start ->
     at_ cellIndices (i + 1) = Some end_ ->
     4 <= Z.quot (end_ - start) 3 ->
     cell_scorable vertices start (Z.quot (end_ - start) 3) maxNeighbors) ->
  exists scores,
    calculateCellAcuteness acosf vertices cellIndices maxNeighbors
      = Some scores
    /\ size scores = cell_count cellIndices.
Proof.
  intros Hc Hf Hfv Hoff HK Hcells.
  unfold has_cells, cell_count in *.
  pose proof Hf as Hf'. pose proof Hfv as Hfv'.
  unfold vector_fits, INT_MAX in Hf', Hfv'.
  assert (Hm : size_minus_1 cellIndices = size cellIndices - 1)
    by (apply size_minus_1_nonempty; unfold SIZE_BITS; lia).
  unfold calculateCellAcuteness. rewrite Hm.
  apply (for_range_total (fun i sc => size sc = i)); [lia | | reflexivity].
  intros i sc Hi Hsz.
  assert (Hnext : size (sc ++ [0]) = i + 1)
    by (rewrite size_app, Hsz; reflexivity).
  unfold score_cell.
  destruct (at_in_range cellIndices i) as (start & Hs); [lia|].
  destruct (at_in_range cellIndices (i + 1)) as (end_ & He); [lia|].
  rewrite to_size_t_small by (unfold SIZE_BITS; lia).
  rewrite Hs, He. cbn [bind].
  assert (Hin : forall j e, at_ cellIndices j = Some e ->
            0 <= e <= size vertices).
  { intros j e Hj. unfold offsets_in_buffer in Hoff.
    rewrite Forall_forall in Hoff. apply Hoff.
    unfold at_ in Hj. destruct (j <? 0); [discriminate|].
    eapply nth_error_In; eauto. }
  pose proof (Hin _ _ Hs) as Hs0. pose proof (Hin _ _ He) as He0.
  rewrite cell_size_defined by (unfold INT_MAX; lia). cbn [bind].
  destruct (Z.quot (end_ - start) 3 <? 4) eqn:E4.
  - exists (sc ++ [0]). split; [reflexivity | assumption].
  - apply Z.ltb_ge in E4.
    destruct (quot_3_large (end_ - start) E4) as (Hd & Hq).
    destruct (cell_acute_angles_defined acosf vertices start
                (Z.quot (end_ - start) 3) maxNeighbors) as (a & Ha).
    + apply cell_in_buffer_readable; [assumption | lia | lia].
    + lia.
    + assumption.
    + apply (Hcells i start end_); assumption.
    + rewrite Ha. cbn [bind]. eexists. split; [reflexivity|].
      rewrite size_app, Hsz. reflexivity.
Qed.

(** The unit square meets these conditions. *)
Lemma unit_square_defined (acosf : float -> float) :
  exists scores,
    calculateCellAcuteness acosf unit_square [0; 12] DEFAULT_MAX_NEIGHBORS
      = Some scores
    /\ size scores = 1.
Proof.
  apply full_pass_defined.
  - unfold has_cells, size. simpl. lia.
  - unfold vector_fits, INT_MAX, size. simpl. lia.
  - unfold vector_fits, INT_MAX, size. simpl. lia.
  - unfold offsets_in_buffer, size. simpl. repeat constructor; lia.
  - unfold DEFAULT_MAX_NEIGHBORS. lia.
  - intros i start end_ Hs He H4.
    pose proof (at_Some _ _ _ He) as Hi. pose proof (at_Some _ _ _ Hs) as Hi'.
    unfold size in Hi, Hi'. simpl in Hi, Hi'.
    assert (i = 0) by lia. subst i.
    inversion Hs; inversion He; subst start end_.
    change (Z.quot (12 - 0) 3) with 4 in *.
    split.
    + intros v other Hv Ho.
      assert (Hc : v = 0 \/ v = 1 \/ v = 2 \/ v = 3) by lia.
      assert (Hd : other = 0 \/ other = 1 \/ other = 2 \/ other = 3) by lia.
      destruct Hc as [-> | [-> | [-> | ->]]];
        destruct Hd as [-> | [-> | [-> | ->]]]; reflexivity.
    + vm_compute. discriminate.
Qed.

(** With finite coordinates the conditions reduce to the size of the
    counts. *)
Lemma full_pass_defined_finite (acosf : float -> float)
    (vertices : list float) (cellIndices : list Z) (maxNeighbors : Z) :
  has_cells cellIndices ->
  vector_fits cellIndices ->
  vector_fits vertices ->
  offsets_in_buffer vertices cellIndices ->
  Forall (fun c => is_finite c = true) vertices ->
  0 <= maxNeighbors ->
  size vertices * (maxNeighbors * (maxNeighbors - 1)) <= 2 * INT_MAX ->
  exists scores,
    calculateCellAcuteness acosf vertices cellIndices maxNeighbors
      = Some scores
    /\ size scores = cell_count cellIndices.
Proof.
  intros Hc Hf Hfv Hoff Hfin HK Hmax.
  apply full_pass_defined; auto.
  intros i start end_ Hs He H4. split.
  - intros v other _ _. apply finite_distance_not_nan. assumption.
  - unfold offsets_in_buffer in Hoff. rewrite Forall_forall in Hoff.
    assert (Hin : forall j e, at_ cellIndices j = Some e ->
              0 <= e <= size vertices).
    { intros j e Hj. apply Hoff. unfold at_ in Hj.
      destruct (j <? 0); [discriminate|]. eapply nth_error_In; eauto. }
    pose proof (Hin _ _ Hs) as Hs0. pose proof (Hin _ _ He) as He0.
    destruct (quot_3_large (end_ - start) H4) as (Hd & Hq).
    set (cs := Z.quot (end_ - start) 3) in *.
    assert (Hcs : cs <= size vertices) by lia.
    set (m := Z.min maxNeighbors (cs - 1)).
    pose proof (pairs_mono m maxNeighbors ltac:(lia)) as Hm.
    pose proof (pairs_mono 0 m ltac:(lia)) as Hm0.
    apply Z.le_trans with (size vertices * (maxNeighbors * (maxNeighbors - 1)));
      [|assumption].
    apply Z.mul_le_mono_nonneg; lia.
Qed.

(** * Beyond the claims *)

(** ** The update as a set of writes *)

Lemma at_ext {A : Type} (l l' : list A) :
  (forall j, at_ l j = at_ l' j) -> l = l'.
Proof.
  intros H. apply nth_error_ext. intros n.
  specialize (H (Z.of_nat n)). unfold at_ in H.
  replace (Z.of_nat n <? 0) with false in H by (symmetry; apply Z.ltb_ge; lia).
  rewrite Nat2Z.id in H. assumption.
Qed.

Lemma set_nth_None {A : Type} (v : list A) (n : nat) (a : A) :
  (length v <= n)%nat -> set_nth v n a = None.
Proof.
  revert n. induction v as [|h t IH]; intros n H; simpl in *.
  - destruct n; reflexivity.
  - destruct n as [|n']; [lia|]. rewrite IH by lia. reflexivity.
Qed.

Lemma assign_in_range {A : Type} (v : list A) (i : Z) (a : A) :
  0 <= i < size v -> exists w, assign v i a = Some w.
Proof.
  unfold assign, size. intros H.
  replace (i <? 0) with false by (symmetry; apply Z.ltb_ge; lia).
  apply set_nth_defined. lia.
Qed.

Lemma assign_out_of_range {A : Type} (v : list A) (i : Z) (a : A) :
  ~ 0 <= i < size v -> assign v i a = None.
Proof.
  unfold assign, size. intros H. destruct (i <? 0) eqn:E; [reflexivity|].
  apply Z.ltb_ge in E. apply set_nth_None. lia.
Qed.

Lemma assign_Some_range {A : Type} (v w : list A) (i : Z) (a : A) :
  assign v i a = Some w -> 0 <= i < size v.
Proof.
  intros H. destruct (Z_lt_dec i 0) as [Hn|Hn].
  - rewrite assign_out_of_range in H by lia. discriminate.
  - destruct (Z_lt_dec i (size v)) as [Hs|Hs]; [lia|].
    rewrite assign_out_of_range in H by lia. discriminate.
Qed.

(** Two stores of the same value commute, and the second of two stores to
    one entry changes nothing. *)
Lemma assign_comm {A : Type} (v : list A) (i j : Z) (a : A) :
  (w <- assign v i a ;; assign w j a) = (w <- assign v j a ;; assign w i a).
Proof.
  destruct (assign v i a) as [vi|] eqn:Ei; destruct (assign v j a) as [vj|] eqn:Ej;
    simpl.
  - pose proof (assign_spec _ _ _ _ Ei) as (Si & Ii & Oi).
    pose proof (assign_spec _ _ _ _ Ej) as (Sj & Ij & Oj).
    apply assign_Some_range in Ei. apply assign_Some_range in Ej.
    destruct (assign_in_range vi j a) as (vij & Eij); [lia|].
    destruct (assign_in_range vj i a) as (vji & Eji); [lia|].
    rewrite Eij, Eji. f_equal.
    pose proof (assign_spec _ _ _ _ Eij) as (_ & Iij & Oij).
    pose proof (assign_spec _ _ _ _ Eji) as (_ & Iji & Oji).
    apply at_ext. intros k.
    destruct (Z.eq_dec k j) as [Hj|Hj]; destruct (Z.eq_dec k i) as [Hi|Hi].
    + subst. congruence.
    + subst k. rewrite Iij, Oji, Ij by assumption. reflexivity.
    + subst k. rewrite Oij, Ii, Iji by assumption. reflexivity.
    + rewrite Oij, Oi, Oji, Oj by assumption. reflexivity.
  - pose proof (assign_spec _ _ _ _ Ei) as (Si & _).
    apply assign_out_of_range. intros H.
    destruct (assign_in_range v j a) as (w & Hw); [lia|]. congruence.
  - pose proof (assign_spec _ _ _ _ Ej) as (Sj & _).
    symmetry. apply assign_out_of_range. intros H.
    destruct (assign_in_range v i a) as (w & Hw); [lia|]. congruence.
  - reflexivity.
Qed.

Lemma assign_twice {A : Type} (v : list A) (i : Z) (a : A) :
  (w <- assign v i a ;; assign w i a) = assign v i a.
Proof.
  destruct (assign v i a) as [vi|] eqn:Ei; simpl; [|reflexivity].
  pose proof (assign_spec _ _ _ _ Ei) as (Si & Ii & Oi).
  apply assign_Some_range in Ei.
  destruct (assign_in_range vi i a) as (w & Hw); [lia|]. rewrite Hw. f_equal.
  pose proof (assign_spec _ _ _ _ Hw) as (_ & Iw & Ow).
  apply at_ext. intros k. destruct (Z.eq_dec k i) as [->|Hk].
  - congruence.
  - apply Ow. assumption.
Qed.

Lemma update_cell_action (cellIndices : list Z) (cellIdx : Z)
    (scores : list Z) :
  update_cell cellIndices cellIdx scores =
  match update_action cellIndices cellIdx with
  | Some true => assign scores cellIdx 0
  | Some false => Some scores
  | None => None
  end.
Proof.
  unfold update_cell, update_action.
  destruct (to_size_t cellIdx >=? size_minus_1 cellIndices); [reflexivity|].
  destruct (at_ cellIndices cellIdx) as [start|]; simpl; [|reflexivity].
  destruct (int_op (cellIdx + 1)) as [next|]; simpl; [|reflexivity].
  destruct (at_ cellIndices next) as [end_|]; simpl; [|reflexivity].
  destruct (cell_size start end_) as [cs|]; simpl; [|reflexivity].
  destruct (cs <? 4) eqn:E; [reflexivity|].
  apply Z.ltb_ge in E. rewrite Z.quot_0_l by lia. reflexivity.
Qed.

Lemma update_cell_comm (cellIndices : list Z) (a b : Z) (scores : list Z) :
  (s <- update_cell cellIndices a scores ;; update_cell cellIndices b s)
  = (s <- update_cell cellIndices b scores ;; update_cell cellIndices a s).
Proof.
  assert (Hb : forall (m : option (list Z)), (s <- m ;; Some s) = m)
    by (intros [s|]; reflexivity).
  assert (Hn : forall (m : option (list Z)),
            (s <- m ;; @None (list Z)) = None)
    by (intros [s|]; reflexivity).
  transitivity
    (s <- match update_action cellIndices a with
          | Some true => assign scores a 0
          | Some false => Some scores
          | None => None
          end ;;
     match update_action cellIndices b with
     | Some true => assign s b 0
     | Some false => Some s
     | None => None
     end).
  { rewrite update_cell_action. apply bind_ext. intros s.
    apply update_cell_action. }
  transitivity
    (s <- match update_action cellIndices b with
          | Some true => assign scores b 0
          | Some false => Some scores
          | None => None
          end ;;
     match update_action cellIndices a with
     | Some true => assign s a 0
     | Some false => Some s
     | None => None
     end).
  2: { rewrite (update_cell_action cellIndices b). apply bind_ext. intros s.
       symmetry. apply update_cell_action. }
  destruct (update_action cellIndices a) as [[|]|];
    destruct (update_action cellIndices b) as [[|]|]; simpl;
    rewrite ?Hb, ?Hn; try reflexivity.
  apply assign_comm.
Qed.

Lemma update_cell_twice (cellIndices : list Z) (a : Z) (scores : list Z) :
  (s <- update_cell cellIndices a scores ;; update_cell cellIndices a s)
  = update_cell cellIndices a scores.
Proof.
  transitivity
    (s <- update_cell cellIndices a scores ;;
     match update_action cellIndices a with
     | Some true => assign s a 0
     | Some false => Some s
     | None => None
     end).
  { apply bind_ext. intros s. apply update_cell_action. }
  rewrite update_cell_action.
  destruct (update_action cellIndices a) as [[|]|]; simpl; try reflexivity.
  apply assign_twice.
Qed.

Lemma for_each_perm {A S : Type} (body : A -> S -> option S) (l l' : list A) :
  (forall a b s, (t <- body a s ;; body b t) = (t <- body b s ;; body a t)) ->
  Permutation l l' ->
  forall s, for_each l body s = for_each l' body s.
Proof.
  intros Hswap Hp. induction Hp as [|x l l' Hp IH|x y l|l l' l'' H1 IH1 H2 IH2];
    intros s.
  - reflexivity.
  - simpl. destruct (body x s); auto.
  - simpl. pose proof (Hswap y x s) as H.
    destruct (body y s) as [t|]; destruct (body x s) as [u|]; simpl in *.
    + destruct (body x t) as [t'|]; destruct (body y u) as [u'|];
        try discriminate; [inversion H; reflexivity | reflexivity].
    + destruct (body x t); [discriminate | reflexivity].
    + destruct (body y u); [discriminate | reflexivity].
    + reflexivity.
  - rewrite IH1. apply IH2.
Qed.

Lemma update_perm (vertices : list float) (cellIndices : list Z)
    (changedCells changedCells' : list Z) (previousScores : list Z) :
  Permutation changedCells changedCells' ->
  updateCellAcuteness vertices cellIndices changedCells previousScores
  = updateCellAcuteness vertices cellIndices changedCells' previousScores.
Proof.
  intros Hp. unfold updateCellAcuteness.
  apply for_each_perm; [|assumption].
  intros a b s. apply update_cell_comm.
Qed.

Lemma update_absorb (vertices : list float) (cellIndices : list Z)
    (a : Z) (changedCells : list Z) (previousScores : list Z) :
  In a changedCells ->
  updateCellAcuteness vertices cellIndices (a :: changedCells) previousScores
  = updateCellAcuteness vertices cellIndices changedCells previousScores.
Proof.
  intros Hin. apply in_split in Hin. destruct Hin as (l1 & l2 & ->).
  assert (Hp : Permutation (l1 ++ a :: l2) (a :: l1 ++ l2))
    by (symmetry; apply Permutation_middle).
  rewrite (update_perm vertices cellIndices _ _ previousScores
             (perm_skip a Hp)).
  rewrite (update_perm vertices cellIndices _ _ previousScores Hp).
  unfold updateCellAcuteness. simpl.
  pose proof (update_cell_twice cellIndices a previousScores) as H.
  destruct (update_cell cellIndices a previousScores) as [s|]; simpl in *;
    [|reflexivity].
  rewrite H. reflexivity.
Qed.

Lemma update_nodup (vertices : list float) (cellIndices : list Z)
    (changedCells : list Z) (previousScores : list Z) :
  updateCellAcuteness vertices cellIndices changedCells previousScores
  = updateCellAcuteness vertices cellIndices (nodup Z.eq_dec changedCells)
      previousScores.
Proof.
  revert previousScores. induction changedCells as [|a l IH]; intros prev.
  - reflexivity.
  - simpl nodup. destruct (in_dec Z.eq_dec a l) as [Hin|Hin].
    + rewrite update_absorb by assumption. apply IH.
    + unfold updateCellAcuteness in *. simpl.
      destruct (update_cell cellIndices a prev); [apply IH | reflexivity].
Qed.

(** X1: what a run of the update that returns leaves in the ScoreTable: the
    table keeps its length, every listed index that passes the range test
    of line 126 holds 0, and every other entry holds what it held. *)
Theorem update_result :
  forall (vertices : list float) (cellIndices changedCells : list Z)
         (previousScores scores : list Z),
    updateCellAcuteness vertices cellIndices changedCells previousScores
      = Some scores ->
    size scores = size previousScores
    /\ forall j,
         (In j changedCells /\ to_size_t j < size_minus_1 cellIndices ->
          at_ scores j = Some 0)
         /\ (~ (In j changedCells /\ to_size_t j < size_minus_1 cellIndices) ->
             at_ scores j = at_ previousScores j).
Proof.
  intros vertices cellIndices changed prev scores H.
  split; [apply (update_frame vertices cellIndices changed); assumption|].
  intros j. split.
  - intros (Hin & Hlt).
    apply (update_stores_zero vertices cellIndices changed prev); assumption.
  - revert prev H. unfold updateCellAcuteness.
    induction changed as [|c l IH]; intros prev H Hn; simpl in H.
    + inversion H. reflexivity.
    + destruct (update_cell cellIndices c prev) as [s1|] eqn:E; [|discriminate].
      rewrite (IH s1 H) by (simpl in Hn; tauto).
      destruct (Z.eq_dec j c) as [->|Hne].
      * rewrite update_cell_action in E. unfold update_action in E.
        destruct (to_size_t c >=? size_minus_1 cellIndices) eqn:G.
        -- inversion E. reflexivity.
        -- exfalso. apply Hn. split; [left; reflexivity|].
           rewrite Z.geb_leb in G. apply Z.leb_gt in G. assumption.
      * eapply update_cell_frame; eauto.
Qed.

Lemma update_result_witness :
  size [0; 5] = size [2; 5].
Proof.
  refine (proj1 (update_result unit_square [0; 12; 12] [0; 7] [2; 5] [0; 5] _)).
  reflexivity.
Defined.

(** X2: the update depends on the set of the listed indices only: two
    lists with the same elements, in any order and with any repetitions,
    give the same result, undefined runs included. *)
Theorem update_depends_on_listed_set :
  forall (vertices : list float) (cellIndices : list Z)
         (changedCells changedCells' : list Z) (previousScores : list Z),
    (forall cellIdx, In cellIdx changedCells <-> In cellIdx changedCells') ->
    updateCellAcuteness vertices cellIndices changedCells previousScores
    = updateCellAcuteness vertices cellIndices changedCells' previousScores.
Proof.
  intros vertices cellIndices l l' prev Hsame.
  rewrite (update_nodup vertices cellIndices l).
  rewrite (update_nodup vertices cellIndices l').
  apply update_perm. apply NoDup_Permutation; try apply NoDup_nodup.
  intros x. rewrite !nodup_In. apply Hsame.
Qed.

Lemma update_depends_on_listed_set_witness :
  updateCellAcuteness unit_square [0; 12; 12] [1; 0; 1] [2; 5]
  = updateCellAcuteness unit_square [0; 12; 12] [0; 1] [2; 5].
Proof.
  apply update_depends_on_listed_set.
  intros x. simpl. tauto.
Defined.

(** ** The shape of the full pass's result *)

(** X3: a full pass that returns was given a CellTable with at least one
    entry and returns exactly one score per cell, so the ScoreTable is
    index-aligned with the CellTable. *)
Theorem full_pass_one_score_per_cell :
  forall (acosf : float -> float) (vertices : list float)
         (cellIndices : list Z) (maxNeighbors : Z) (scores : list Z),
    vector_fits cellIndices ->
    calculateCellAcuteness acosf vertices cellIndices maxNeighbors
      = Some scores ->
    has_cells cellIndices /\ size scores = cell_count cellIndices.
Proof.
  intros acosf vertices cellIndices K scores Hf H.
  assert (Hc : has_cells cellIndices).
  { destruct cellIndices as [|e l].
    - rewrite full_pass_empty_table in H. discriminate.
    - unfold has_cells. rewrite size_cons. pose proof (size_nonneg l). lia. }
  split; [assumption|].
  apply full_pass_scores in H. destruct H as (Hs & _).
  unfold has_cells, vector_fits, INT_MAX, cell_count in *.
  rewrite Hs. apply size_minus_1_nonempty. unfold SIZE_BITS. lia.
Qed.

Lemma full_pass_one_score_per_cell_witness :
  has_cells [0; 12] /\ size [2] = cell_count [0; 12].
Proof.
  apply (full_pass_one_score_per_cell acos_chord unit_square [0; 12]
           DEFAULT_MAX_NEIGHBORS [2]).
  - unfold vector_fits, INT_MAX, size. simpl. lia.
  - vm_compute. reflexivity.
Defined.

(** X4: on a CellTable vector without any entry, [size() - 1] wraps to
    2^32 - 1: the full pass reads [cellIndices[0]] outside the vector
    whatever its other arguments, and the update does the same with every
    listed index except -1, the one index the wrapped bound still skips. *)
Theorem empty_table_is_undefined :
  forall (acosf : float -> float) (vertices : list float)
         (maxNeighbors cellIdx : Z) (previousScores : list Z),
    INT_MIN <= cellIdx <= INT_MAX ->
    calculateCellAcuteness acosf vertices [] maxNeighbors = None
    /\ (cellIdx <> -1 ->
        updateCellAcuteness vertices [] [cellIdx] previousScores = None)
    /\ updateCellAcuteness vertices [] [-1] previousScores
       = Some previousScores.
Proof.
  intros acosf vertices K idx prev Hi.
  split; [apply full_pass_empty_table|]. split; [|reflexivity].
  intros Hne. unfold updateCellAcuteness. simpl.
  unfold update_cell. rewrite size_minus_1_empty.
  assert (Hlt : to_size_t idx < 2 ^ SIZE_BITS - 1).
  { destruct (Z_lt_dec idx 0) as [Hneg|Hpos].
    - rewrite to_size_t_negative by lia. lia.
    - rewrite to_size_t_small by (unfold INT_MAX, SIZE_BITS in *; lia).
      unfold INT_MAX, SIZE_BITS in *. lia. }
  rewrite geb_false by assumption.
  assert (Hat : at_ (@nil Z) idx = None).
  { unfold at_. destruct (idx <? 0); [reflexivity|].
    destruct (Z.to_nat idx); reflexivity. }
  rewrite Hat. reflexivity.
Qed.

Lemma empty_table_is_undefined_witness :
  updateCellAcuteness unit_square [] [0] [2] = None.
Proof.
  refine (proj1 (proj2 (empty_table_is_undefined acos_chord unit_square
                          DEFAULT_MAX_NEIGHBORS 0 [2] _)) _).
  - unfold INT_MIN, INT_MAX. lia.
  - discriminate.
Defined.

(** ** The neighbor count at its edges *)

Lemma score_vertex_negative (acosf : float -> float) (vertices : list float)
    (start cellSize maxNeighbors v acc : Z) :
  maxNeighbors < 0 ->
  score_vertex acosf vertices start cellSize maxNeighbors v acc = None.
Proof.
  intros HK. unfold score_vertex.
  destruct (vertex_index start v) as [vIdx|]; simpl; [|reflexivity].
  destruct (vertex_at vertices vIdx) as [center|]; simpl; [|reflexivity].
  unfold select_neighbors.
  destruct (collect_distances vertices start cellSize v center) as [ds|];
    simpl; [|reflexivity].
  unfold partial_sort.
  replace (Z.min maxNeighbors (size ds) <? 0) with true
    by (symmetry; apply Z.ltb_lt; lia).
  reflexivity.
Qed.

Lemma cell_score_negative (acosf : float -> float) (vertices : list float)
    (start end_ maxNeighbors s : Z) :
  maxNeighbors < 0 ->
  cell_score acosf vertices start end_ maxNeighbors = Some s ->
  s = 0 /\ exists cellSize, cell_size start end_ = Some cellSize /\ cellSize < 4.
Proof.
  intros HK H. unfold cell_score in H. inv_bind H.
  destruct (a <? 4) eqn:E4.
  - apply Z.ltb_lt in E4. inversion H. eauto.
  - apply Z.ltb_ge in E4. unfold cell_acute_angles in H.
    rewrite for_range_step in H by lia.
    rewrite score_vertex_negative in H by assumption. discriminate.
Qed.



(** X6: with [maxNeighbors] at most 1 no vertex has a pair of neighbors:
    every score of a full pass that returns is 0. *)
Theorem at_most_one_neighbor_scores_zero :
  forall (acosf : float -> float) (vertices : list float)
         (cellIndices : list Z) (maxNeighbors : Z) (scores : list Z),
    maxNeighbors <= 1 ->
    calculateCellAcuteness acosf vertices cellIndices maxNeighbors
      = Some scores ->
    Forall (fun s => s = 0) scores.
Proof.
  intros acosf vertices cellIndices K scores HK H.
  apply full_pass_scores in H. destruct H as (Hsz & H).
  apply Forall_at. intros i s Hs.
  pose proof (at_Some _ _ _ Hs) as Hi.
  destruct (H i) as (st & en & s' & _ & _ & Hc & Hs'); [lia|].
  rewrite Hs in Hs'. inversion Hs'; subst s'.
  destruct (Z_lt_dec K 0) as [Hneg|Hpos].
  - apply (cell_score_negative _ _ _ _ _ _ Hneg Hc).
  - pose proof (cell_score_bounds acosf vertices st en K s ltac:(lia) Hc) as Hb.
    assert (HK01 : K = 0 \/ K = 1) by lia.
    assert (Hz : K * (K - 1) / 2 = 0)
      by (destruct HK01 as [-> | ->]; reflexivity).
    lia.
Qed.

Lemma at_most_one_neighbor_scores_zero_witness :
  Forall (fun s => s = 0) [0].
Proof.
  apply (at_most_one_neighbor_scores_zero acos_chord unit_square [0; 12] 1 [0]).
  - lia.
  - vm_compute. reflexivity.
Defined.

(** ** The clamp of line 42 *)

Lemma rank_finite_inv (c : float) (s : bool) (m : positive) (e : Z) :
  is_nan c = false -> rank c = rank (S754_finite s m e) ->
  c = S754_finite s m e.
Proof.
  destruct c as [sc|[|]| |[|] mc ec]; destruct s; simpl; intros Hn H;
    try discriminate; inversion H; try reflexivity.
  assert (ec = e) by lia. subst. reflexivity.
Qed.

Lemma clamp_by_cases (c : float) :
  (fle fminus_one c = true -> fle c fone = true -> clamp c = c)
  /\ (flt fone c = true -> clamp c = fone)
  /\ (flt c fminus_one = true -> clamp c = fminus_one)
  /\ (is_nan c = true -> clamp c = fone).
Proof.
  assert (Hnan : is_nan c = true -> clamp c = fone).
  { destruct c; try discriminate. reflexivity. }
  destruct (is_nan c) eqn:En.
  { destruct c; try discriminate. repeat split; try discriminate; auto. }
  assert (N1 : is_nan fone = false) by reflexivity.
  assert (Nm : is_nan fminus_one = false) by reflexivity.
  pose proof (flt_rank c fone En N1) as Lc1.
  pose proof (flt_rank fone c N1 En) as L1c.
  pose proof (flt_rank fminus_one c Nm En) as Lmc.
  pose proof (flt_rank c fminus_one En Nm) as Lcm.
  pose proof (fle_rank fminus_one c Nm En) as Emc.
  pose proof (fle_rank c fone En N1) as Ec1.
  pose proof (rank_finite_inv c false 8388608 (-23) En) as I1.
  pose proof (rank_finite_inv c true 8388608 (-23) En) as Im.
  change (S754_finite false 8388608 (-23)) with fone in I1.
  change (S754_finite true 8388608 (-23)) with fminus_one in Im.
  change (rank fone) with (1, -23, 8388608) in *.
  change (rank fminus_one) with (-1, 23, -8388608) in *.
  unfold lex_lt in *. destruct (rank c) as [[r1 r2] r3]. simpl in *.
  unfold clamp, std_max, std_min.
  assert (Hm1 : flt fminus_one fone = true) by reflexivity.
  split; [|split; [|split]].
  - intros H1 H2. apply Emc in H1. apply Ec1 in H2.
    destruct (flt c fone) eqn:F1.
    + destruct (flt fminus_one c) eqn:Fm; [reflexivity|].
      symmetry. apply Im.
      assert (~ (-1 < r1 \/ -1 = r1 /\ (23 < r2 \/ 23 = r2 /\ -8388608 < r3)))
        by (intros Hx; apply Lmc in Hx; discriminate).
      f_equal; [f_equal|]; lia.
    + rewrite Hm1. symmetry. apply I1.
      assert (~ (r1 < 1 \/ r1 = 1 /\ (r2 < -23 \/ r2 = -23 /\ r3 < 8388608)))
        by (intros Hx; apply Lc1 in Hx; discriminate).
      f_equal; [f_equal|]; lia.
  - intros H. apply L1c in H.
    destruct (flt c fone) eqn:F1.
    + assert (r1 < 1 \/ r1 = 1 /\ (r2 < -23 \/ r2 = -23 /\ r3 < 8388608))
        by (apply Lc1; reflexivity).
      lia.
    + rewrite Hm1. reflexivity.
  - intros H. apply Lcm in H.
    destruct (flt c fone) eqn:F1.
    + destruct (flt fminus_one c) eqn:Fm; [|reflexivity].
      assert (-1 < r1 \/ -1 = r1 /\ (23 < r2 \/ 23 = r2 /\ -8388608 < r3))
        by (apply Lmc; reflexivity).
      lia.
    + assert (~ (r1 < 1 \/ r1 = 1 /\ (r2 < -23 \/ r2 = -23 /\ r3 < 8388608)))
        by (intros Hx; apply Lc1 in Hx; discriminate).
      lia.
  - discriminate.
Qed.

(** X7: [std::max(-1.0f, std::min(1.0f, c))] on every binary32 value: a
    value in [-1, 1] is returned as it is, a value above 1 becomes 1, a
    value below -1 becomes -1, and NaN becomes 1, because every comparison
    with NaN is false. *)
Theorem clamp_cases :
  forall c : float,
    (fle fminus_one c = true -> fle c fone = true -> clamp c = c)
    /\ (flt fone c = true -> clamp c = fone)
    /\ (flt c fminus_one = true -> clamp c = fminus_one)
    /\ (is_nan c = true -> clamp c = fone).
Proof. exact clamp_by_cases. Qed.

Lemma clamp_cases_witness :
  clamp (float_of_Z 3) = fone.
Proof.
  refine (proj1 (proj2 (clamp_cases (float_of_Z 3))) _). reflexivity.
Defined.

(** ** Vec3 and the angle *)

Lemma fmul_comm (a b : float) : fmul a b = fmul b a.
Proof.
  unfold fmul, SFmul.
  destruct a as [sa|sa| |sa ma ea], b as [sb|sb| |sb mb eb];
    try reflexivity; try (rewrite xorb_comm; reflexivity).
  rewrite xorb_comm, Pos.mul_comm, Z.add_comm. reflexivity.
Qed.

Lemma dot_comm (a b : Vec3.t) : Vec3.dot a b = Vec3.dot b a.
Proof.
  unfold Vec3.dot.
  rewrite (fmul_comm (Vec3.x a)), (fmul_comm (Vec3.y a)),
    (fmul_comm (Vec3.z a)).
  reflexivity.
Qed.

Lemma calculateAngle_symmetric_aux (acosf : float -> float) (v1 v2 : Vec3.t) :
  calculateAngle acosf v1 v2 = calculateAngle acosf v2 v1.
Proof.
  unfold calculateAngle. cbv zeta.
  rewrite (orb_comm (feq (Vec3.lengthSquared v1) fzero)).
  rewrite (dot_comm v1 v2).
  rewrite (fmul_comm (Vec3.lengthSquared v1) (Vec3.lengthSquared v2)).
  reflexivity.
Qed.

(** X8: the angle does not depend on the order of the two vectors: the
    products of [dot] and the product of the squared lengths commute in
    binary32, and the guard of line 39 is symmetric. *)
Theorem calculateAngle_symmetric :
  forall (acosf : float -> float) (v1 v2 : Vec3.t),
    calculateAngle acosf v1 v2 = calculateAngle acosf v2 v1.
Proof.
  intros acosf v1 v2. apply calculateAngle_symmetric_aux.
Qed.

Lemma fadd_nan_l (a b : float) : is_nan a = true -> is_nan (fadd a b) = true.
Proof. destruct a; try discriminate. reflexivity. Qed.

Lemma fadd_nan_r (a b : float) : is_nan b = true -> is_nan (fadd a b) = true.
Proof.
  destruct b; try discriminate. intros _. unfold fadd, SFadd.
  destruct a; reflexivity.
Qed.

Lemma fmul_self_nan (a : float) : is_nan a = true -> is_nan (fmul a a) = true.
Proof. destruct a; try discriminate. reflexivity. Qed.

(** X9: [lengthSquared] is NaN exactly when a component is NaN; otherwise
    it is a value that is not negative (a positive number, +0 or
    +infinity, never -0), whatever overflows or underflows on the way. *)
Theorem lengthSquared_nan_or_nonnegative :
  forall w : Vec3.t,
    is_nan (Vec3.lengthSquared w)
      = is_nan (Vec3.x w) || is_nan (Vec3.y w) || is_nan (Vec3.z w)
    /\ nonneg (Vec3.lengthSquared w)
       = negb (is_nan (Vec3.x w) || is_nan (Vec3.y w) || is_nan (Vec3.z w)).
Proof.
  intros [a b c]. simpl.
  assert (Hnn : forall f, nonneg f = true -> is_nan f = false)
    by apply nonneg_not_nan.
  assert (Hn : forall f, is_nan f = true -> nonneg f = false)
    by (intros f; destruct f; try discriminate; reflexivity).
  unfold Vec3.lengthSquared. simpl.
  destruct (is_nan a) eqn:Ea; simpl.
  { assert (H : is_nan (fadd (fadd (fmul a a) (fmul b b)) (fmul c c)) = true)
      by (apply fadd_nan_l, fadd_nan_l, fmul_self_nan; assumption).
    rewrite H, (Hn _ H). split; reflexivity. }
  destruct (is_nan b) eqn:Eb; simpl.
  { assert (H : is_nan (fadd (fadd (fmul a a) (fmul b b)) (fmul c c)) = true)
      by (apply fadd_nan_l, fadd_nan_r, fmul_self_nan; assumption).
    rewrite H, (Hn _ H). split; reflexivity. }
  destruct (is_nan c) eqn:Ec; simpl.
  { assert (H : is_nan (fadd (fadd (fmul a a) (fmul b b)) (fmul c c)) = true)
      by (apply fadd_nan_r, fmul_self_nan; assumption).
    rewrite H, (Hn _ H). split; reflexivity. }
  assert (H : nonneg (fadd (fadd (fmul a a) (fmul b b)) (fmul c c)) = true)
    by (repeat apply fadd_nonneg; apply fmul_self_nonneg; assumption).
  rewrite H, (Hnn _ H). split; reflexivity.
Qed.

(** ** The count does not depend on the order of the neighbors *)

Lemma size_filter_perm {A : Type} (p : A -> bool) (l l' : list A) :
  Permutation l l' -> size (filter p l) = size (filter p l').
Proof.
  intros H. induction H as [|x l l' H IH|x y l|l l' l'' H1 IH1 H2 IH2]; simpl.
  - reflexivity.
  - destruct (p x); rewrite ?size_cons, IH; reflexivity.
  - destruct (p x); destruct (p y); rewrite ?size_cons; reflexivity.
  - congruence.
Qed.

Lemma size_filter_app {A : Type} (p : A -> bool) (l l' : list A) :
  size (filter p (l ++ l')) = size (filter p l) + size (filter p l').
Proof. rewrite filter_app, size_app. reflexivity. Qed.

Lemma count_pairs_perm {A : Type} (p : A -> A -> bool) (l l' : list A) :
  (forall a b, p a b = p b a) ->
  Permutation l l' ->
  size (filter (fun ab => p (fst ab) (snd ab)) (unordered_pairs l))
  = size (filter (fun ab => p (fst ab) (snd ab)) (unordered_pairs l')).
Proof.
  intros Hsym H.
  induction H as [|x l l' H IH|x y l|l l' l'' H1 IH1 H2 IH2].
  - reflexivity.
  - simpl unordered_pairs. rewrite !size_filter_app, !size_filter_map, IH.
    simpl. rewrite (size_filter_perm (fun a => p x a) l l' H). reflexivity.
  - simpl unordered_pairs. simpl map. cbn [filter fst snd].
    rewrite (Hsym y x).
    destruct (p x y);
      rewrite ?size_cons, !size_filter_app, !size_filter_map; cbn [fst snd];
      lia.
  - congruence.
Qed.

(** X10: the number of acute pairs counted by lines 92-107 depends on
    which entries are among the first [numNeighbors], not on their order:
    two selections whose kept entries are permutations of each other give
    the same count. *)
Theorem count_independent_of_neighbor_order :
  forall (acosf : float -> float) (vertices : list float) (start : Z)
         (center : Vec3.t) (distances distances' : list (float * Z))
         (numNeighbors numNeighbors' acc counted counted' : Z),
    Permutation (firstn (Z.to_nat numNeighbors) distances)
                (firstn (Z.to_nat numNeighbors') distances') ->
    count_acute_pairs acosf vertices start center distances numNeighbors acc
      = Some counted ->
    count_acute_pairs acosf vertices start center distances' numNeighbors' acc
      = Some counted' ->
    counted = counted'.
Proof.
  intros acosf vertices start center ds ds' n n' acc c c' Hp H H'.
  apply count_acute_pairs_count in H. apply count_acute_pairs_count in H'.
  rewrite H, H'. f_equal.
  apply (count_pairs_perm (acute_entries acosf vertices start center)).
  - intros a b. unfold acute_entries.
    rewrite calculateAngle_symmetric_aux. reflexivity.
  - assumption.
Qed.

Lemma count_independent_of_neighbor_order_witness :
  2 = 2.
Proof.
  apply (count_independent_of_neighbor_order acos_chord unit_square 0
           (position unit_square 0 0)
           [(fone, 1); (fone, 2); (float_of_Z 2, 3)]
           [(float_of_Z 2, 3); (fone, 2); (fone, 1)] 3 3 0 2 2).
  - apply (Permutation_rev [(fone, 1); (fone, 2); (float_of_Z 2, 3)]).
  - vm_compute. reflexivity.
  - vm_compute. reflexivity.
Defined.

(** ** [acosf] is consulted on [-1, 1] only *)

Section UnitInterval.

Variables f g : float -> float.
Hypothesis same_class_on_unit :
  forall c, fle fminus_one c = true -> fle c fone = true ->
    is_acute (f c) = is_acute (g c).

Lemma calculateAngle_class_on_unit (v1 v2 : Vec3.t) :
  is_acute (calculateAngle f v1 v2) = is_acute (calculateAngle g v1 v2).
Proof.
  unfold calculateAngle. cbv zeta.
  destruct (feq (Vec3.lengthSquared v1) fzero
            || feq (Vec3.lengthSquared v2) fzero); [reflexivity|].
  apply same_class_on_unit; apply clamp_bounds.
Qed.

Lemma score_vertex_class_on_unit vertices start cellSize K v acc :
  score_vertex f vertices start cellSize K v acc
  = score_vertex g vertices start cellSize K v acc.
Proof.
  unfold score_vertex. apply bind_ext. intros vIdx.
  apply bind_ext. intros center. apply bind_ext. intros sel.
  unfold count_acute_pairs. apply for_range_ext. intros j a.
  apply bind_ext. intros vec1. apply for_range_ext. intros k b.
  apply bind_ext. intros vec2. cbv zeta.
  rewrite calculateAngle_class_on_unit. reflexivity.
Qed.

Lemma calculateCellAcuteness_class_on_unit vertices cellIndices K :
  calculateCellAcuteness f vertices cellIndices K
  = calculateCellAcuteness g vertices cellIndices K.
Proof.
  unfold calculateCellAcuteness. apply for_range_ext. intros i scores.
  unfold score_cell. apply bind_ext. intros start.
  apply bind_ext. intros end_. apply bind_ext. intros cs.
  replace (cell_acute_angles f vertices start cs K)
    with (cell_acute_angles g vertices start cs K); [reflexivity|].
  unfold cell_acute_angles. apply for_range_ext. intros v acc.
  symmetry. apply score_vertex_class_on_unit.
Qed.

End UnitInterval.

(** X11: the scores depend on [acosf] only through the classification
    [acosf c < HALF_PI] of the cosines [c] in [-1, 1]: two arc cosine
    functions that classify these alike give the same result of the full
    pass, whatever they return elsewhere. *)
Theorem scores_depend_on_classification_only :
  forall (f g : float -> float),
    (forall c, fle fminus_one c = true -> fle c fone = true ->
       is_acute (f c) = is_acute (g c)) ->
    forall (vertices : list float) (cellIndices : list Z) (maxNeighbors : Z),
      calculateCellAcuteness f vertices cellIndices maxNeighbors
      = calculateCellAcuteness g vertices cellIndices maxNeighbors.
Proof.
  intros f g H vertices cellIndices K.
  apply calculateCellAcuteness_class_on_unit. assumption.
Qed.

Lemma scores_depend_on_classification_only_witness :
  calculateCellAcuteness acos_chord unit_square [0; 12] DEFAULT_MAX_NEIGHBORS
  = calculateCellAcuteness (fun c => acos_chord (clamp c)) unit_square [0; 12]
      DEFAULT_MAX_NEIGHBORS.
Proof.
  apply scores_depend_on_classification_only.
  intros c H1 H2.
  rewrite (proj1 (clamp_by_cases c) H1 H2). reflexivity.
Defined.

(** ** A cell's score depends on the cell's own vertices only *)

Lemma for_range_ext_in {S : Type} (lo hi : Z) (b1 b2 : Z -> S -> option S) s :
  (forall i t, lo <= i < hi -> b1 i t = b2 i t) ->
  for_range lo hi b1 s = for_range lo hi b2 s.
Proof.
  unfold for_range. remember (Z.to_nat (hi - lo)) as fuel eqn:Hf.
  revert lo s Hf. induction fuel as [|fuel IH]; intros lo s Hf H; simpl.
  - reflexivity.
  - rewrite H by lia. destruct (b2 lo s); [|reflexivity].
    apply IH; [lia|]. intros i t Hi. apply H. lia.
Qed.

Section Locality.

Variables vertices vertices' : list float.
Variables start cellSize : Z.
Hypothesis same_cell :
  forall i, start <= i < start + 3 * cellSize ->
    at_ vertices i = at_ vertices' i.

Lemma vertex_at_same (n idx : Z) :
  0 <= n < cellSize -> vertex_index start n = Some idx ->
  vertex_at vertices idx = vertex_at vertices' idx.
Proof.
  intros Hn Hi. unfold vertex_index in Hi. inv_bind Hi.
  apply int_op_Some in E. apply int_op_Some in Hi.
  destruct E as (-> & _). destruct Hi as (-> & _).
  unfold vertex_at. rewrite same_cell by lia.
  destruct (at_ vertices' (start + n * 3)); simpl; [|reflexivity].
  destruct (int_op (start + n * 3 + 1)) as [i1|] eqn:E1; simpl; [|reflexivity].
  apply int_op_Some in E1. destruct E1 as (-> & _).
  rewrite same_cell by lia.
  destruct (at_ vertices' (start + n * 3 + 1)); simpl; [|reflexivity].
  destruct (int_op (start + n * 3 + 2)) as [i2|] eqn:E2; simpl; [|reflexivity].
  apply int_op_Some in E2. destruct E2 as (-> & _).
  rewrite same_cell by lia. reflexivity.
Qed.

Lemma collect_distances_same (v : Z) (center : Vec3.t) :
  collect_distances vertices start cellSize v center
  = collect_distances vertices' start cellSize v center.
Proof.
  unfold collect_distances. apply for_range_ext_in. intros other ds Ho.
  destruct (other =? v); [reflexivity|].
  destruct (vertex_index start other) as [oIdx|] eqn:E; simpl; [|reflexivity].
  rewrite (vertex_at_same other oIdx Ho E). reflexivity.
Qed.

Lemma neighbor_vec_same (center : Vec3.t) (distances : list (float * Z))
    (j : Z) :
  Forall (fun d => 0 <= snd d < cellSize) distances ->
  neighbor_vec vertices start center distances j
  = neighbor_vec vertices' start center distances j.
Proof.
  intros Hall. unfold neighbor_vec.
  destruct (at_ distances j) as [d|] eqn:Ed; simpl; [|reflexivity].
  assert (Hd : 0 <= snd d < cellSize).
  { rewrite Forall_forall in Hall. apply Hall. unfold at_ in Ed.
    destruct (j <? 0); [discriminate|]. eapply nth_error_In; eauto. }
  destruct (vertex_index start (snd d)) as [idx|] eqn:E; simpl; [|reflexivity].
  rewrite (vertex_at_same (snd d) idx Hd E). reflexivity.
Qed.

Lemma score_vertex_same (acosf : float -> float) (K v acc : Z) :
  0 <= v < cellSize ->
  score_vertex acosf vertices start cellSize K v acc
  = score_vertex acosf vertices' start cellSize K v acc.
Proof.
  intros Hv. unfold score_vertex.
  destruct (vertex_index start v) as [vIdx|] eqn:E; simpl; [|reflexivity].
  rewrite (vertex_at_same v vIdx Hv E).
  destruct (vertex_at vertices' vIdx) as [center|]; simpl; [|reflexivity].
  unfold select_neighbors. rewrite collect_distances_same.
  destruct (collect_distances vertices' start cellSize v center) as [ds|] eqn:Ec;
    simpl; [|reflexivity].
  destruct (partial_sort (Z.min K (size ds)) ds) as [sorted|] eqn:Ep;
    simpl; [|reflexivity].
  assert (Hall : Forall (fun d => 0 <= snd d < cellSize) sorted).
  { apply partial_sort_Some in Ep. destruct Ep as (_ & _ & ->).
    apply (Permutation_Forall (Permutation_sym (sort_perm ds))).
    apply collect_distances_Some in Ec; [|lia].
    rewrite Ec. apply Forall_map. apply Forall_forall.
    intros o Ho. apply In_others in Ho. simpl. lia. }
  unfold count_acute_pairs. apply for_range_ext. intros j a.
  rewrite (neighbor_vec_same center sorted j Hall).
  apply bind_ext. intros vec1. apply for_range_ext. intros k b.
  rewrite (neighbor_vec_same center sorted k Hall). reflexivity.
Qed.

Lemma cell_acute_angles_same (acosf : float -> float) (K : Z) :
  cell_acute_angles acosf vertices start cellSize K
  = cell_acute_angles acosf vertices' start cellSize K.
Proof.
  unfold cell_acute_angles. apply for_range_ext_in. intros v acc Hv.
  apply score_vertex_same. assumption.
Qed.

End Locality.

Lemma cell_score_same (acosf : float -> float) (vertices vertices' : list float)
    (start end_ K : Z) :
  (forall i, start <= i < end_ -> at_ vertices i = at_ vertices' i) ->
  cell_score acosf vertices start end_ K
  = cell_score acosf vertices' start end_ K.
Proof.
  intros Hsame. unfold cell_score.
  destruct (cell_size start end_) as [cs|] eqn:E; simpl; [|reflexivity].
  destruct (cs <? 4) eqn:E4; [reflexivity|].
  apply Z.ltb_ge in E4.
  unfold cell_size in E. inv_bind E. inversion E; subst cs.
  apply int_op_Some in E0. destruct E0 as (-> & _).
  destruct (quot_3_large (end_ - start) E4) as (_ & Hq).
  rewrite (cell_acute_angles_same vertices vertices' start
             (Z.quot (end_ - start) 3)); [reflexivity|].
  intros i Hi. apply Hsame. lia.
Qed.

(** X12: the score of a cell is a function of the cell's own slice of the
    vertex buffer: two full passes over buffers that agree on
    [cellIndices[i] .. cellIndices[i + 1]) store the same score for cell
    [i], whatever the rest of the buffers holds. *)
Theorem cell_score_is_local :
  forall (acosf : float -> float) (vertices vertices' : list float)
         (cellIndices : list Z) (maxNeighbors : Z) (scores scores' : list Z)
         (i start end_ : Z),
    vector_fits cellIndices ->
    at_ cellIndices i = Some start ->
    at_ cellIndices (i + 1) = Some end_ ->
    (forall k, start <= k < end_ -> at_ vertices k = at_ vertices' k) ->
    calculateCellAcuteness acosf vertices cellIndices maxNeighbors
      = Some scores ->
    calculateCellAcuteness acosf vertices' cellIndices maxNeighbors
      = Some scores' ->
    at_ scores i = at_ scores' i.
Proof.
  intros acosf vertices vertices' cellIndices K scores scores' i start end_
    Hf Hs He Hsame H H'.
  pose proof (at_Some _ _ _ Hs) as Hi. pose proof (at_Some _ _ _ He) as Hi1.
  unfold vector_fits, INT_MAX in Hf.
  assert (Hm : size_minus_1 cellIndices = size cellIndices - 1)
    by (apply size_minus_1_nonempty; unfold SIZE_BITS; lia).
  apply full_pass_scores in H. apply full_pass_scores in H'.
  destruct H as (_ & H). destruct H' as (_ & H').
  destruct (H i) as (st & en & s & H1 & H2 & H3 & H4); [lia|].
  destruct (H' i) as (st' & en' & s' & H1' & H2' & H3' & H4'); [lia|].
  rewrite Hs in H1, H1'. rewrite He in H2, H2'.
  inversion H1; inversion H2; inversion H1'; inversion H2'; subst.
  rewrite (cell_score_same acosf vertices vertices' st' en' K Hsame) in H3.
  congruence.
Qed.

Lemma cell_score_is_local_witness :
  at_ [2] 0 = at_ [2] 0.
Proof.
  apply (cell_score_is_local acos_chord unit_square
           (unit_square ++ [S754_nan]) [0; 12] DEFAULT_MAX_NEIGHBORS
           [2] [2] 0 0 12).
  - unfold vector_fits, INT_MAX, size. simpl. lia.
  - reflexivity.
  - reflexivity.
  - intros k Hk. apply eq_sym. apply at_app_left. unfold size. simpl. lia.
  - vm_compute. reflexivity.
  - vm_compute. reflexivity.
Defined.

(** ** Coincident vertices: the bound on the score is attained *)










(** ** When the update returns *)

Lemma update_action_of_cell (vertices : list float) (cellIndices : list Z)
    (cellIdx : Z) :
  vector_fits cellIndices ->
  vector_fits vertices ->
  offsets_in_buffer vertices cellIndices ->
  0 <= cellIdx < cell_count cellIndices ->
  update_action cellIndices cellIdx = Some true.
Proof.
  unfold vector_fits, cell_count, INT_MAX. intros Hf Hfv Hoff Hc.
  unfold update_action.
  rewrite size_minus_1_nonempty by (unfold SIZE_BITS; lia).
  rewrite to_size_t_small by (unfold SIZE_BITS; lia).
  rewrite geb_false by lia.
  destruct (at_in_range cellIndices cellIdx) as (start & Hs); [lia|].
  destruct (at_in_range cellIndices (cellIdx + 1)) as (end_ & He); [lia|].
  rewrite Hs. cbn [bind].
  rewrite int_op_in_range by (unfold INT_MIN, INT_MAX; lia). cbn [bind].
  rewrite He. cbn [bind].
  unfold offsets_in_buffer in Hoff. rewrite Forall_forall in Hoff.
  assert (Hin : forall j e, at_ cellIndices j = Some e ->
            0 <= e <= size vertices).
  { intros j e Hj. apply Hoff. unfold at_ in Hj.
    destruct (j <? 0); [discriminate|]. eapply nth_error_In; eauto. }
  pose proof (Hin _ _ Hs). pose proof (Hin _ _ He).
  rewrite cell_size_defined by (unfold INT_MAX; lia). reflexivity.
Qed.

Lemma update_action_of_other (cellIndices : list Z) (cellIdx : Z) :
  has_cells cellIndices ->
  vector_fits cellIndices ->
  INT_MIN <= cellIdx <= INT_MAX ->
  ~ 0 <= cellIdx < cell_count cellIndices ->
  update_action cellIndices cellIdx = Some false.
Proof.
  unfold has_cells, vector_fits, cell_count, INT_MIN, INT_MAX.
  intros Hc Hf Hi Hn. unfold update_action.
  rewrite size_minus_1_nonempty by (unfold SIZE_BITS; lia).
  replace (to_size_t cellIdx >=? size cellIndices - 1) with true;
    [reflexivity|].
  symmetry. apply Z.geb_le.
  destruct (Z_lt_dec cellIdx 0) as [Hneg|Hpos].
  - rewrite to_size_t_negative by (unfold INT_MIN; lia).
    unfold SIZE_BITS. lia.
  - rewrite to_size_t_small by (unfold SIZE_BITS; lia). lia.
Qed.

(** X14: on a well-formed CellTable the update returns exactly when the
    ScoreTable has an entry for every listed index that names a cell: the
    store of lines 130 and 140 is the only access that can leave a vector,
    and a ScoreTable shorter than a listed cell index makes the whole run
    undefined.  Listed indices that name no cell put no condition on the
    ScoreTable. *)
Theorem update_returns_iff_scores_cover_listed_cells :
  forall (vertices : list float) (cellIndices changedCells : list Z)
         (previousScores : list Z),
    has_cells cellIndices ->
    vector_fits cellIndices ->
    vector_fits vertices ->
    offsets_in_buffer vertices cellIndices ->
    Forall (fun c => INT_MIN <= c <= INT_MAX) changedCells ->
    (exists scores,
       updateCellAcuteness vertices cellIndices changedCells previousScores
       = Some scores)
    <-> Forall (fun c => 0 <= c < cell_count cellIndices ->
                         c < size previousScores) changedCells.
Proof.
  intros vertices cellIndices changedCells previousScores Hc Hf Hfv Hoff.
  unfold updateCellAcuteness. revert previousScores.
  induction changedCells as [|c l IH]; intros prev Hint.
  - split; [constructor | simpl; eauto].
  - inversion Hint as [|? ? Hci Hl]; subst. cbn [for_each].
    rewrite update_cell_action.
    destruct (Z_lt_dec c 0) as [Hneg|Hpos];
      [|destruct (Z_lt_dec c (cell_count cellIndices)) as [Hin|Hout]].
    + rewrite update_action_of_other by (auto; lia). cbn [bind].
      rewrite (IH prev Hl). split.
      * intros H. constructor; [lia | assumption].
      * intros H. inversion H. assumption.
    + rewrite (update_action_of_cell vertices) by (auto; lia).
      destruct (Z_lt_dec c (size prev)) as [Hs|Hs].
      * destruct (assign_in_range prev c 0) as (w & Hw); [lia|].
        rewrite Hw. cbn [bind].
        pose proof (assign_spec _ _ _ _ Hw) as (Hsz & _).
        rewrite (IH w Hl), Hsz. split.
        -- intros H. constructor; [lia | assumption].
        -- intros H. inversion H. assumption.
      * rewrite assign_out_of_range by lia. cbn [bind]. split.
        -- intros (s & Hs'). discriminate.
        -- intros H. inversion H; subst. lia.
    + rewrite update_action_of_other by (auto; lia). cbn [bind].
      rewrite (IH prev Hl). split.
      * intros H. constructor; [lia | assumption].
      * intros H. inversion H. assumption.
Qed.

Lemma update_returns_iff_scores_cover_listed_cells_witness :
  (exists scores,
     updateCellAcuteness unit_square [0; 12] [0; 7; -1] [9] = Some scores)
  <-> Forall (fun c => 0 <= c < cell_count [0; 12] -> c < size [9])
        [0; 7; -1].
Proof.
  apply (update_returns_iff_scores_cover_listed_cells unit_square [0; 12]
           [0; 7; -1] [9]).
  - unfold has_cells, size. simpl. lia.
  - unfold vector_fits, INT_MAX, size. simpl. lia.
  - unfold vector_fits, INT_MAX, size. simpl. lia.
  - unfold offsets_in_buffer, size. simpl. repeat constructor; lia.
  - unfold INT_MIN, INT_MAX. repeat constructor; lia.
Defined.

(** X15: a full pass over well-formed input returns.  With at least one
    CellTable entry, offsets inside the vertex buffer, finite coordinates,
    a non-negative [maxNeighbors] and counts that fit an [int], no access
    leaves a vector, no distance is NaN and the counter does not overflow:
    the pass returns one score per cell. *)
Theorem full_pass_returns_on_finite_input :
  forall (acosf : float -> float) (vertices : list float)
         (cellIndices : list Z) (maxNeighbors : Z),
    has_cells cellIndices ->
    vector_fits cellIndices ->
    vector_fits vertices ->
    offsets_in_buffer vertices cellIndices ->
    Forall (fun c => is_finite c = true) vertices ->
    0 <= maxNeighbors ->
    size vertices * (maxNeighbors * (maxNeighbors - 1)) <= 2 * INT_MAX ->
    exists scores,
      calculateCellAcuteness acosf vertices cellIndices maxNeighbors
        = Some scores
      /\ size scores = cell_count cellIndices.
Proof. exact full_pass_defined_finite. Qed.

Lemma full_pass_returns_on_finite_input_witness :
  exists scores,
    calculateCellAcuteness acos_chord unit_square [0; 12] 6 = Some scores
    /\ size scores = cell_count [0; 12].
Proof.
  apply (full_pass_returns_on_finite_input acos_chord unit_square [0; 12] 6).
  - unfold has_cells, size. simpl. lia.
  - unfold vector_fits, INT_MAX, size. simpl. lia.
  - unfold vector_fits, INT_MAX, size. simpl. lia.
  - unfold offsets_in_buffer, size. simpl. repeat constructor; lia.
  - unfold unit_square. repeat constructor.
  - lia.
  - unfold INT_MAX, size. simpl. lia.
Defined.

(** * The selection, the score and the threshold against the specification *)

(** ** The code against the words of the specification *)

(** A vertex the code reads is the triple of the buffer at its index. *)
Lemma at_component (vertices : list float) (k : Z) (a : float) :
  at_ vertices k = Some a -> Spec.component vertices k = a.
Proof.
  unfold at_, Spec.component. destruct (k <? 0); [discriminate|].
  intros H. apply nth_error_nth. assumption.
Qed.

Lemma position_coordinate (vertices : list float) (start n idx : Z)
    (w : Vec3.t) :
  vertex_index start n = Some idx -> vertex_at vertices idx = Some w ->
  position vertices start n = Spec.coordinate vertices start n.
Proof.
  intros Hi Hw. rewrite (position_read _ _ _ _ _ Hi Hw).
  unfold vertex_index in Hi. inv_bind Hi.
  apply int_op_Some in E. destruct E as (-> & _).
  apply int_op_Some in Hi. destruct Hi as (-> & _).
  unfold vertex_at in Hw. do 5 inv_bind Hw. inversion Hw; subst w; clear Hw.
  apply int_op_Some in E0. destruct E0 as (-> & _).
  apply int_op_Some in E2. destruct E2 as (-> & _).
  unfold Spec.coordinate.
  replace (start + 3 * n) with (start + n * 3) by lia.
  rewrite (at_component _ _ _ E), (at_component _ _ _ E1),
    (at_component _ _ _ E3).
  reflexivity.
Qed.

Lemma readable_coordinate (vertices : list float) (start cellSize n : Z) :
  cell_readable vertices start cellSize -> 0 <= n < cellSize ->
  position vertices start n = Spec.coordinate vertices start n.
Proof.
  intros Hr Hn. destruct (Hr n Hn) as (idx & w & Hi & Hw).
  apply (position_coordinate _ _ _ _ _ Hi Hw).
Qed.

(** The distances the code collects are the candidates of section 4.1. *)
Lemma collect_distances_candidates (vertices : list float)
    (start cellSize v : Z) (distances : list (float * Z)) :
  cell_readable vertices start cellSize -> 0 <= v < cellSize ->
  collect_distances vertices start cellSize v (position vertices start v)
    = Some distances ->
  distances = Spec.candidates vertices start cellSize v.
Proof.
  intros Hr Hv H. apply collect_distances_Some in H; [|lia]. subst distances.
  unfold Spec.candidates. fold (range cellSize). fold (others cellSize v).
  apply map_ext_in. intros o Ho. apply In_others in Ho.
  rewrite (readable_coordinate vertices start cellSize o Hr) by lia.
  rewrite (readable_coordinate vertices start cellSize v Hr) by lia.
  reflexivity.
Qed.

Lemma size_candidates (vertices : list float) (start cellSize v : Z) :
  0 <= v < cellSize ->
  size (Spec.candidates vertices start cellSize v) = cellSize - 1.
Proof.
  intros Hv. unfold Spec.candidates. rewrite size_map.
  apply (size_others_in_cell cellSize v Hv).
Qed.

Lemma candidates_vertices (vertices : list float) (start cellSize v : Z) :
  map snd (Spec.candidates vertices start cellSize v) = others cellSize v.
Proof. unfold Spec.candidates. rewrite map_map. simpl. apply map_id. Qed.

(** The selection of the code, for a cell that lies in the buffer: it is
    defined when K is not negative and [operator<] is a strict weak
    ordering on the candidates, and then the candidates sorted. *)
Lemma select_neighbors_candidates (vertices : list float)
    (start cellSize v maxNeighbors : Z) :
  cell_readable vertices start cellSize -> 0 <= v < cellSize ->
  select_neighbors vertices start cellSize v (position vertices start v)
    maxNeighbors
  = if maxNeighbors <? 0 then None
    else if strict_weak_ordering (Spec.candidates vertices start cellSize v)
         then Some (sort (Spec.candidates vertices start cellSize v),
                    Z.min maxNeighbors (cellSize - 1))
         else None.
Proof.
  intros Hr Hv.
  destruct (collect_distances_defined vertices start cellSize v
              (position vertices start v) Hr) as (ds & Hds).
  pose proof (collect_distances_candidates _ _ _ _ _ Hr Hv Hds) as Heq.
  unfold select_neighbors. rewrite Hds. simpl. subst ds.
  rewrite (size_candidates vertices start cellSize v Hv).
  unfold partial_sort.
  destruct (maxNeighbors <? 0) eqn:EK.
  - apply Z.ltb_lt in EK.
    replace (Z.min maxNeighbors (cellSize - 1) <? 0) with true
      by (symmetry; apply Z.ltb_lt; lia).
    reflexivity.
  - apply Z.ltb_ge in EK.
    replace (Z.min maxNeighbors (cellSize - 1) <? 0) with false
      by (symmetry; apply Z.ltb_ge; lia).
    destruct (strict_weak_ordering (Spec.candidates vertices start cellSize v));
      reflexivity.
Qed.

Lemma pair_le_not_after (a b : float * Z) :
  pair_le a b <-> Spec.not_after a b.
Proof.
  unfold pair_le, Spec.not_after, pair_lt.
  destruct (flt (fst b) (fst a)); simpl.
  - split; [discriminate | intros (H & _); discriminate].
  - destruct (flt (fst a) (fst b)); simpl.
    + split; [intros _; split; [reflexivity | discriminate] | reflexivity].
    + rewrite Z.ltb_ge. split.
      * intros H. split; [reflexivity | intros _; assumption].
      * intros (_ & H). apply H. reflexivity.
Qed.

Lemma NoDup_range (n : Z) : NoDup (range n).
Proof.
  unfold range. apply Finite.Injective_map_NoDup.
  - intros a b H. lia.
  - apply seq_NoDup.
Qed.

Lemma NoDup_others (n v : Z) : NoDup (others n v).
Proof. unfold others. apply NoDup_filter. apply NoDup_range. Qed.

Lemma NoDup_prefix {A : Type} (k : nat) (l : list A) :
  NoDup l -> NoDup (firstn k l).
Proof.
  intros H. rewrite <- (firstn_skipn k l) in H.
  apply NoDup_app_remove_r in H. assumption.
Qed.

Lemma In_prefix {A : Type} (k : nat) (l : list A) (a : A) :
  In a (firstn k l) -> In a l.
Proof.
  intros H. rewrite <- (firstn_skipn k l). apply in_or_app. left. assumption.
Qed.

(** The sorted candidates, cut after the first [m]. *)
Section SortedCandidates.

Variable vertices : list float.
Variables start cellSize v m : Z.
Hypothesis in_cell : 0 <= v < cellSize.
Hypothesis ordering :
  strict_weak_ordering (Spec.candidates vertices start cellSize v) = true.

Local Abbreviation candidates := (Spec.candidates vertices start cellSize v).
Local Abbreviation kept := (firstn (Z.to_nat m) (sort candidates)).
Local Abbreviation left_out := (skipn (Z.to_nat m) (sort candidates)).

Lemma sorted_vertices : Permutation (map snd (sort candidates)) (others cellSize v).
Proof.
  rewrite <- (candidates_vertices vertices start cellSize v).
  apply Permutation_map. apply sort_perm.
Qed.

Lemma In_sorted_candidates (d : float * Z) :
  In d (sort candidates) ->
  (0 <= snd d < cellSize /\ snd d <> v)
  /\ fst d = Spec.distance vertices start v (snd d).
Proof.
  intros H. apply (Permutation_in _ (sort_perm candidates)) in H.
  unfold Spec.candidates in H. apply in_map_iff in H.
  destruct H as (o & <- & Ho). simpl. split; [|reflexivity].
  apply (In_others cellSize v o). exact Ho.
Qed.

Lemma candidate_is_sorted (o : Z) :
  0 <= o < cellSize -> o <> v ->
  In (Spec.distance vertices start v o, o) (sort candidates).
Proof.
  intros Ho Hne. apply (Permutation_in _ (Permutation_sym (sort_perm candidates))).
  unfold Spec.candidates. apply in_map_iff. exists o. split; [reflexivity|].
  apply (In_others cellSize v o). split; assumption.
Qed.

Lemma kept_sorted : StronglySorted Spec.not_after kept.
Proof.
  pose proof (sort_sorted_ordering candidates ordering) as Hs.
  rewrite <- (firstn_skipn (Z.to_nat m) (sort candidates)) in Hs.
  apply StronglySorted_app in Hs. destruct Hs as (Hs & _ & _).
  apply (StronglySorted_weaken pair_le Spec.not_after kept (fun _ => True));
    [| apply Forall_forall; trivial | exact Hs].
  intros a b _ _. apply pair_le_not_after.
Qed.

Lemma kept_before_left_out (a b : float * Z) :
  In a kept -> In b left_out -> Spec.not_after a b.
Proof.
  pose proof (sort_sorted_ordering candidates ordering) as Hs.
  rewrite <- (firstn_skipn (Z.to_nat m) (sort candidates)) in Hs.
  apply StronglySorted_app in Hs. destruct Hs as (_ & _ & Hc).
  intros Ha Hb. apply pair_le_not_after. apply Hc; assumption.
Qed.

(** The vertices kept are a choice of the nearest others. *)
Lemma kept_nearest_others (K : Z) :
  0 <= K -> m = Z.min K (cellSize - 1) ->
  Spec.nearest_others vertices start cellSize K v (map snd kept).
Proof.
  intros HK Hm.
  assert (Hnd : NoDup (map snd (sort candidates))).
  { apply (Permutation_NoDup (Permutation_sym sorted_vertices)).
    apply NoDup_others. }
  split.
  { rewrite <- firstn_map. apply NoDup_prefix. assumption. }
  split.
  { intros a Ha. apply in_map_iff in Ha. destruct Ha as (d & <- & Hd).
    apply In_prefix in Hd. apply In_sorted_candidates in Hd. tauto. }
  split.
  { rewrite size_map, size_firstn; [assumption|].
    rewrite (size_perm _ _ (sort_perm candidates)),
      (size_candidates vertices start cellSize v in_cell). lia. }
  intros a b Ha Hb Hne Hnot.
  apply in_map_iff in Ha. destruct Ha as (d & <- & Hd).
  pose proof (candidate_is_sorted b Hb Hne) as Hin.
  rewrite <- (firstn_skipn (Z.to_nat m) (sort candidates)) in Hin.
  apply in_app_or in Hin. destruct Hin as [Hin|Hin].
  - exfalso. apply Hnot. apply in_map_iff.
    exists (Spec.distance vertices start v b, b). split; [reflexivity|exact Hin].
  - pose proof (kept_before_left_out d _ Hd Hin) as (Hlt & _). simpl in Hlt.
    pose proof (In_prefix _ _ _ Hd) as Hd'.
    apply In_sorted_candidates in Hd'. destruct Hd' as (_ & <-).
    exact Hlt.
Qed.

End SortedCandidates.

Lemma tie_cell_readable : cell_readable tie_cell 0 4.
Proof.
  intros n Hn.
  assert (Hc : n = 0 \/ n = 1 \/ n = 2 \/ n = 3) by lia.
  destruct Hc as [-> | [-> | [-> | ->]]]; do 2 eexists; split; reflexivity.
Qed.

(** ** The neighbor selection against section 4.1 *)

(** C7, amended: for a center vertex [v] of a cell whose vertices lie in
    the buffer and for K >= 0, the candidates of the selection are the other
    [cellSize - 1] vertices of the cell and never [v], each with its squared
    Euclidean distance to [v] computed in single precision.  The selection
    is defined exactly when [operator<] of the pairs (distance, index) is a
    strict weak ordering on the candidates, as it is when no distance is
    NaN.  It then keeps [min(K, cellSize - 1)] candidates, nearest first by
    the computed distance and by index where neither of two distances is
    below the other; no candidate it leaves out has a computed distance
    below that of one it keeps; with fewer than K + 1 vertices in the cell
    it keeps them all. *)
Theorem nearest_neighbors_selected :
  forall (vertices : list float) (start cellSize v maxNeighbors : Z),
    0 <= v < cellSize ->
    0 <= maxNeighbors ->
    cell_readable vertices start cellSize ->
    (no_nan (Spec.candidates vertices start cellSize v) ->
     strict_weak_ordering (Spec.candidates vertices start cellSize v) = true)
    /\ (strict_weak_ordering (Spec.candidates vertices start cellSize v)
        = false ->
        select_neighbors vertices start cellSize v
          (position vertices start v) maxNeighbors = None)
    /\ (strict_weak_ordering (Spec.candidates vertices start cellSize v)
        = true ->
        exists sorted numNeighbors,
          select_neighbors vertices start cellSize v
            (position vertices start v) maxNeighbors
          = Some (sorted, numNeighbors)
          /\ numNeighbors = Z.min maxNeighbors (cellSize - 1)
          /\ Permutation sorted (Spec.candidates vertices start cellSize v)
          /\ NoDup (map snd sorted)
          /\ (forall o, In o (map snd sorted) <->
                        0 <= o < cellSize /\ o <> v)
          /\ size sorted = cellSize - 1
          /\ size (firstn (Z.to_nat numNeighbors) sorted) = numNeighbors
          /\ StronglySorted Spec.not_after
               (firstn (Z.to_nat numNeighbors) sorted)
          /\ (forall a b,
                In a (firstn (Z.to_nat numNeighbors) sorted) ->
                In b (skipn (Z.to_nat numNeighbors) sorted) ->
                Spec.not_after a b)
          /\ Spec.nearest_others vertices start cellSize maxNeighbors v
               (map snd (firstn (Z.to_nat numNeighbors) sorted))
          /\ (cellSize < maxNeighbors + 1 ->
              firstn (Z.to_nat numNeighbors) sorted = sorted)).
Proof.
  intros vertices start cs v K Hv HK Hread.
  pose proof (select_neighbors_candidates vertices start cs v K Hread Hv)
    as Hsel.
  replace (K <? 0) with false in Hsel by (symmetry; apply Z.ltb_ge; lia).
  set (cands := Spec.candidates vertices start cs v) in *.
  split; [apply no_nan_strict_weak_ordering|].
  split; [intros Hno; rewrite Hno in Hsel; exact Hsel|].
  intros Hord. rewrite Hord in Hsel.
  exists (sort cands), (Z.min K (cs - 1)).
  pose proof (sort_perm cands) as Hperm.
  pose proof (sorted_vertices vertices start cs v) as Hvs. fold cands in Hvs.
  assert (Hsize : size (sort cands) = cs - 1).
  { rewrite (size_perm _ _ Hperm). apply size_candidates. assumption. }
  split; [exact Hsel|]. split; [reflexivity|]. split; [exact Hperm|].
  split.
  { apply (Permutation_NoDup (Permutation_sym Hvs)). apply NoDup_others. }
  split.
  { intros o. rewrite <- (In_others cs v o). split; intros H.
    - apply (Permutation_in _ Hvs). assumption.
    - apply (Permutation_in _ (Permutation_sym Hvs)). assumption. }
  split; [exact Hsize|].
  split; [apply size_firstn; lia|].
  split; [apply kept_sorted; assumption|].
  split; [intros a b; apply kept_before_left_out; assumption|].
  split; [apply kept_nearest_others; auto|].
  intros Hlt. apply firstn_all2. unfold size in Hsize. lia.
Qed.

Lemma nearest_neighbors_selected_witness :
  exists sorted numNeighbors,
    select_neighbors unit_square 0 4 0 (position unit_square 0 0) 2
      = Some (sorted, numNeighbors)
    /\ numNeighbors = 2
    /\ Spec.nearest_others unit_square 0 4 2 0
         (map snd (firstn (Z.to_nat numNeighbors) sorted)).
Proof.
  destruct (nearest_neighbors_selected unit_square 0 4 0 2)
    as (_ & _ & H).
  - lia.
  - lia.
  - exact unit_square_readable.
  - destruct (H eq_refl)
      as (sorted & m & H1 & H2 & _ & _ & _ & _ & _ & _ & _ & H3 & _).
    exists sorted, m. split; [exact H1|]. split; [rewrite H2; reflexivity|].
    exact H3.
Defined.

(** C7 as stated, at the cell (0, 0, 0), (1, 2^-13, 0), (1, 0, 0),
    (2, 0, 0) with K = 1 and the center vertex 0: vertex 2 has the smallest
    squared Euclidean distance to vertex 0, 1 against 1 + 2^-26 for vertex
    1; both distances are 1 in single precision, and the selection keeps
    vertex 1, of the lower index. *)
Lemma nearer_vertex_is_left_out :
  selected_neighbors tie_cell 0 4 1 0 = [1]
  /\ Spec.distance tie_cell 0 0 1 = fone
  /\ Spec.distance tie_cell 0 0 2 = fone
  /\ (Spec.exact_squared_distance (Spec.coordinate tie_cell 0 0)
        (Spec.coordinate tie_cell 0 2)
      < Spec.exact_squared_distance (Spec.coordinate tie_cell 0 0)
          (Spec.coordinate tie_cell 0 1))%R
  /\ ~ (forall (vertices : list float) (start cellSize v K a b : Z),
          0 <= v < cellSize -> 0 <= K ->
          cell_readable vertices start cellSize ->
          In a (selected_neighbors vertices start cellSize K v) ->
          0 <= b < cellSize -> b <> v ->
          ~ In b (selected_neighbors vertices start cellSize K v) ->
          (Spec.exact_squared_distance (Spec.coordinate vertices start v)
             (Spec.coordinate vertices start a)
           <= Spec.exact_squared_distance (Spec.coordinate vertices start v)
                (Spec.coordinate vertices start b))%R).
Proof.
  assert (Hsel : selected_neighbors tie_cell 0 4 1 0 = [1])
    by (vm_compute; reflexivity).
  assert (Hlt :
    (Spec.exact_squared_distance (Spec.coordinate tie_cell 0 0)
       (Spec.coordinate tie_cell 0 2)
     < Spec.exact_squared_distance (Spec.coordinate tie_cell 0 0)
         (Spec.coordinate tie_cell 0 1))%R).
  { unfold Spec.exact_squared_distance, Spec.coordinate, Spec.component,
      tie_cell, two_pow_minus_13, fone, fzero, float_value, powerRZ.
    simpl. lra. }
  split; [exact Hsel|].
  split; [vm_compute; reflexivity|].
  split; [vm_compute; reflexivity|].
  split; [exact Hlt|].
  intros H.
  specialize (H tie_cell 0 4 0 1 1 2).
  rewrite Hsel in H.
  assert (Hle :
    (Spec.exact_squared_distance (Spec.coordinate tie_cell 0 0)
       (Spec.coordinate tie_cell 0 1)
     <= Spec.exact_squared_distance (Spec.coordinate tie_cell 0 0)
          (Spec.coordinate tie_cell 0 2))%R).
  { apply H.
    - lia.
    - lia.
    - exact tie_cell_readable.
    - left. reflexivity.
    - lia.
    - lia.
    - intros [E|[]]. discriminate. }
  lra.
Qed.

(** ** The score of a cell against section 4.3 *)






(** The full pass scores a cell whose coordinates are all NaN: every
    distance is NaN, [operator<] orders the pairs by their indices, and
    every angle is [acosf] of NaN. *)
Lemma nan_cell_is_scored :
  calculateCellAcuteness acos_chord nan_cell [0; 12] DEFAULT_MAX_NEIGHBORS
  = Some [3].
Proof. vm_compute. reflexivity. Qed.

(** ** The threshold in the count of the pairs *)

(** C5: the count of lines 102-105 uses the strict test
    [angle < HALF_PI].  [HALF_PI] is the literal 1.5707963f, the binary32
    value next below the real pi/2, and the value next above it is the
    binary32 value nearest to pi/2; a right angle between the axes is
    computed as [acosf] of 0, which is [HALF_PI] for an [acosf] that
    returns the constant at 0.  A pair whose computed angle is [HALF_PI],
    the value above it, or any value not below [HALF_PI] is not counted;
    a pair whose computed angle is below [HALF_PI], as is the binary32
    value next below it, is counted. *)
Theorem threshold_is_strict :
  HALF_PI = fdiv (float_of_Z 15707963) (float_of_Z 10000000)
  /\ (float_value HALF_PI < PI / 2 < float_value nearest_half_pi)%R
  /\ SFpred prec emax nearest_half_pi = HALF_PI
  /\ (forall acosf : float -> float,
        calculateAngle acosf x_axis y_axis = acosf fzero)
  /\ (forall (acosf : float -> float) (vertices : list float) (start : Z)
             (center : Vec3.t) (d1 d2 : float * Z) (acc counted : Z)
             (angle : float),
        angle = calculateAngle acosf (displacement vertices start center d1)
                  (displacement vertices start center d2) ->
        count_acute_pairs acosf vertices start center [d1; d2] 2 acc
          = Some counted ->
        (flt angle HALF_PI = true -> counted = acc + 1)
        /\ (flt angle HALF_PI = false -> counted = acc)
        /\ (angle = HALF_PI -> counted = acc)
        /\ (angle = nearest_half_pi -> counted = acc)
        /\ (angle = SFpred prec emax HALF_PI -> counted = acc + 1)).
Proof.
  split; [vm_compute; reflexivity|].
  split; [apply half_pi_enclosed|].
  split; [vm_compute; reflexivity|].
  split; [intros acosf; reflexivity|].
  intros acosf vertices start center d1 d2 acc counted angle Hangle H.
  apply count_acute_pairs_count in H.
  change (firstn (Z.to_nat 2) [d1; d2]) with [d1; d2] in H.
  cbn [unordered_pairs map app filter fst snd] in H.
  unfold acute_entries in H. rewrite <- Hangle in H. unfold is_acute in H.
  assert (Hcases : (flt angle HALF_PI = true -> counted = acc + 1)
                   /\ (flt angle HALF_PI = false -> counted = acc)).
  { destruct (flt angle HALF_PI); unfold size in H; simpl in H.
    - split; [intros _; lia | discriminate].
    - split; [discriminate | intros _; lia]. }
  destruct Hcases as (Hyes & Hno).
  split; [exact Hyes|]. split; [exact Hno|].
  split; [intros ->; apply Hno; reflexivity|].
  split; [intros ->; apply Hno; reflexivity|].
  intros ->. apply Hyes. reflexivity.
Qed.

Lemma threshold_is_strict_witness :
  exists counted,
    count_acute_pairs acos_chord unit_square 0 (position unit_square 0 0)
      [(fone, 1); (fone, 2)] 2 0 = Some counted
    /\ counted = 0.
Proof.
  exists 0.
  assert (H : count_acute_pairs acos_chord unit_square 0
                (position unit_square 0 0) [(fone, 1); (fone, 2)] 2 0
              = Some 0) by (vm_compute; reflexivity).
  split; [exact H|].
  destruct threshold_is_strict as (_ & _ & _ & _ & T).
  destruct (T acos_chord unit_square 0 (position unit_square 0 0)
              (fone, 1) (fone, 2) 0 0 _ eq_refl H) as (_ & Hno & _).
  apply Hno. vm_compute. reflexivity.
Defined.

(** * The tetrahedra of periodic_delaunay.cpp *)

(** ** [std::sort] on [int] *)

Lemma insert_int_perm (a : Z) (l : list Z) :
  Permutation (insert_int a l) (a :: l).
Proof.
  induction l as [|b l IH]; simpl; [reflexivity|].
  destruct (a <=? b); [reflexivity|].
  rewrite IH. apply perm_swap.
Qed.

Lemma sort_int_perm (l : list Z) : Permutation (sort_int l) l.
Proof.
  induction l as [|a l IH]; simpl; [reflexivity|].
  rewrite insert_int_perm. constructor. assumption.
Qed.

Lemma insert_int_sorted (a : Z) (l : list Z) :
  StronglySorted Z.le l -> StronglySorted Z.le (insert_int a l).
Proof.
  induction l as [|b l IH]; intros H; simpl.
  - repeat constructor.
  - inversion H as [|? ? Hl Hb]; subst.
    destruct (a <=? b) eqn:E.
    + apply Z.leb_le in E. constructor; [assumption|].
      constructor; [assumption|].
      rewrite Forall_forall in *. intros x Hx. specialize (Hb x Hx). lia.
    + apply Z.leb_gt in E. constructor; [auto|].
      apply (Permutation_Forall (Permutation_sym (insert_int_perm a l))).
      constructor; [lia | assumption].
Qed.

Lemma sort_int_sorted (l : list Z) : StronglySorted Z.le (sort_int l).
Proof.
  induction l as [|a l IH]; simpl; [constructor|].
  apply insert_int_sorted. assumption.
Qed.

Lemma sorted_perm_eq (l l' : list Z) :
  StronglySorted Z.le l -> StronglySorted Z.le l' -> Permutation l l' ->
  l = l'.
Proof.
  revert l'. induction l as [|a l IH]; intros l' Hl Hl' Hp.
  - apply Permutation_nil in Hp. auto.
  - destruct l' as [|b l'].
    + apply Permutation_sym, Permutation_nil in Hp. discriminate.
    + inversion Hl as [|? ? Hl1 Ha]; inversion Hl' as [|? ? Hl1' Hb]; subst.
      rewrite Forall_forall in Ha, Hb.
      assert (Hab : a = b).
      { assert (Hin : In a (b :: l'))
          by (apply (Permutation_in _ Hp); left; reflexivity).
        assert (Hin' : In b (a :: l))
          by (apply (Permutation_in _ (Permutation_sym Hp)); left; reflexivity).
        destruct Hin as [->|Hin]; [reflexivity|].
        destruct Hin' as [->|Hin']; [reflexivity|].
        specialize (Ha _ Hin'). specialize (Hb _ Hin). lia. }
      subst b. f_equal. apply IH; auto.
      apply Permutation_cons_inv with (a := a). assumption.
Qed.

(** Two vectors have the same sorted form exactly when they hold the same
    indices, each as many times. *)
Lemma sort_int_canonical (l l' : list Z) :
  sort_int l = sort_int l' <-> Permutation l l'.
Proof.
  split; intros H.
  - rewrite <- (sort_int_perm l), H. apply sort_int_perm.
  - apply sorted_perm_eq; try apply sort_int_sorted.
    rewrite !sort_int_perm. assumption.
Qed.

(** ** The index of a point *)

Lemma int_rem_positive (a b : Z) :
  0 < b -> 0 <= a -> int_rem a b = Some (a mod b).
Proof.
  intros Hb Ha. unfold int_rem.
  replace (b =? 0) with false by (symmetry; apply Z.eqb_neq; lia).
  replace (b =? -1) with false by (symmetry; apply Z.eqb_neq; lia).
  rewrite andb_false_r, Z.rem_mod_nonneg by lia. reflexivity.
Qed.

Lemma map_vertex_in_range (is_periodic : bool) (num_points raw : Z) :
  0 <= raw < num_points -> map_vertex is_periodic num_points raw = Some raw.
Proof.
  intros H. unfold map_vertex. cbv zeta.
  rewrite (geb_false raw num_points) by lia. rewrite andb_false_r.
  cbn [bind].
  replace (raw <? 0) with false by (symmetry; apply Z.ltb_ge; lia).
  rewrite geb_false by lia. reflexivity.
Qed.

Lemma map_vertex_copy (num_points raw : Z) :
  0 < num_points -> 0 <= raw ->
  map_vertex true num_points raw = Some (raw mod num_points).
Proof.
  intros Hn Hr. destruct (Z_lt_dec raw num_points) as [Hlt|Hge].
  - rewrite map_vertex_in_range by lia. rewrite Z.mod_small by lia.
    reflexivity.
  - unfold map_vertex. cbv zeta.
    replace (raw >=? num_points) with true by (symmetry; apply Z.geb_le; lia).
    cbn [andb]. rewrite int_rem_positive by lia. cbn [bind].
    pose proof (Z.mod_pos_bound raw num_points Hn) as Hm.
    replace (raw mod num_points <? 0) with false
      by (symmetry; apply Z.ltb_ge; lia).
    rewrite geb_false by lia. reflexivity.
Qed.

Lemma map_vertex_fallback (is_periodic : bool) (num_points raw : Z) :
  0 < num_points ->
  raw < 0 \/ (is_periodic = false /\ num_points <= raw) ->
  map_vertex is_periodic num_points raw = Some 0.
Proof.
  intros Hn H. unfold map_vertex. cbv zeta.
  assert (Hc : is_periodic && (raw >=? num_points) = false).
  { destruct H as [H|[-> _]]; [|reflexivity].
    rewrite geb_false by lia. apply andb_false_r. }
  rewrite Hc. cbn [bind]. destruct H as [H|[_ H]].
  - replace (raw <? 0) with true by (symmetry; apply Z.ltb_lt; lia).
    reflexivity.
  - replace (raw >=? num_points) with true
      by (symmetry; apply Z.geb_le; lia).
    rewrite orb_true_r. reflexivity.
Qed.

(** With a point to map to, every index is mapped into [0, num_points). *)
Lemma map_vertex_total (is_periodic : bool) (num_points raw : Z) :
  0 < num_points ->
  exists v, map_vertex is_periodic num_points raw = Some v
            /\ 0 <= v < num_points.
Proof.
  intros Hn. destruct (Z_lt_dec raw 0) as [Hneg|Hpos].
  - exists 0. rewrite map_vertex_fallback; [| assumption | left; lia].
    split; [reflexivity | lia].
  - destruct (Z_lt_dec raw num_points) as [Hlt|Hge].
    + exists raw. rewrite map_vertex_in_range by lia.
      split; [reflexivity | lia].
    + destruct is_periodic.
      * exists (raw mod num_points). rewrite map_vertex_copy by lia.
        split; [reflexivity | apply Z.mod_pos_bound; assumption].
      * exists 0.
        rewrite map_vertex_fallback;
          [| assumption | right; split; [reflexivity | lia]].
        split; [reflexivity | lia].
Qed.

(** ** The four indices of a tetrahedron *)

Lemma tet_indices_unfold (cell_vertex : Z -> Z -> Z) (is_periodic : bool)
    (num_points t a b c d : Z) :
  map_vertex is_periodic num_points (cell_vertex t 0) = Some a ->
  map_vertex is_periodic num_points (cell_vertex t 1) = Some b ->
  map_vertex is_periodic num_points (cell_vertex t 2) = Some c ->
  map_vertex is_periodic num_points (cell_vertex t 3) = Some d ->
  tet_indices cell_vertex is_periodic num_points t = Some [a; b; c; d].
Proof.
  intros Ha Hb Hc Hd. unfold tet_indices, for_range.
  change (Z.to_nat (4 - 0)) with 4%nat. cbn [for_fuel].
  change (0 + 1) with 1. change (1 + 1) with 2. change (2 + 1) with 3.
  rewrite Ha. cbn [bind]. change (assign [0; 0; 0; 0] 0 a) with (Some [a; 0; 0; 0]).
  rewrite Hb. cbn [bind]. change (assign [a; 0; 0; 0] 1 b) with (Some [a; b; 0; 0]).
  rewrite Hc. cbn [bind]. change (assign [a; b; 0; 0] 2 c) with (Some [a; b; c; 0]).
  rewrite Hd. cbn [bind]. reflexivity.
Qed.

Lemma tet_indices_Some (cell_vertex : Z -> Z -> Z) (is_periodic : bool)
    (num_points t : Z) (tet : list Z) :
  tet_indices cell_vertex is_periodic num_points t = Some tet ->
  exists a b c d,
    tet = [a; b; c; d]
    /\ map_vertex is_periodic num_points (cell_vertex t 0) = Some a
    /\ map_vertex is_periodic num_points (cell_vertex t 1) = Some b
    /\ map_vertex is_periodic num_points (cell_vertex t 2) = Some c
    /\ map_vertex is_periodic num_points (cell_vertex t 3) = Some d.
Proof.
  unfold tet_indices, for_range.
  change (Z.to_nat (4 - 0)) with 4%nat. cbn [for_fuel].
  change (0 + 1) with 1. change (1 + 1) with 2. change (2 + 1) with 3.
  destruct (map_vertex is_periodic num_points (cell_vertex t 0)) as [a|];
    cbn [bind]; [|discriminate].
  change (assign [0; 0; 0; 0] 0 a) with (Some [a; 0; 0; 0]).
  destruct (map_vertex is_periodic num_points (cell_vertex t 1)) as [b|];
    cbn [bind]; [|discriminate].
  change (assign [a; 0; 0; 0] 1 b) with (Some [a; b; 0; 0]).
  destruct (map_vertex is_periodic num_points (cell_vertex t 2)) as [c|];
    cbn [bind]; [|discriminate].
  change (assign [a; b; 0; 0] 2 c) with (Some [a; b; c; 0]).
  destruct (map_vertex is_periodic num_points (cell_vertex t 3)) as [d|];
    cbn [bind]; [|discriminate].
  change (assign [a; b; c; 0] 3 d) with (Some [a; b; c; d]).
  intros H. inversion H. exists a, b, c, d. auto.
Qed.

Lemma tet_indices_total (cell_vertex : Z -> Z -> Z) (is_periodic : bool)
    (num_points t : Z) :
  0 < num_points ->
  exists tet,
    tet_indices cell_vertex is_periodic num_points t = Some tet
    /\ size tet = 4
    /\ Forall (fun v => 0 <= v < num_points) tet.
Proof.
  intros Hn.
  destruct (map_vertex_total is_periodic num_points (cell_vertex t 0) Hn)
    as (a & Ha & Ra).
  destruct (map_vertex_total is_periodic num_points (cell_vertex t 1) Hn)
    as (b & Hb & Rb).
  destruct (map_vertex_total is_periodic num_points (cell_vertex t 2) Hn)
    as (c & Hc & Rc).
  destruct (map_vertex_total is_periodic num_points (cell_vertex t 3) Hn)
    as (d & Hd & Rd).
  exists [a; b; c; d]. split; [apply tet_indices_unfold; assumption|].
  split; [reflexivity | repeat constructor; lia].
Qed.

Lemma tet_indices_raw (cell_vertex : Z -> Z -> Z) (is_periodic : bool)
    (num_points t : Z) :
  Forall (fun v => 0 <= v < num_points) (raw_tet cell_vertex t) ->
  tet_indices cell_vertex is_periodic num_points t
  = Some (raw_tet cell_vertex t).
Proof.
  unfold raw_tet. intros H.
  inversion H as [|? ? H0 H']; subst. inversion H' as [|? ? H1 H'']; subst.
  inversion H'' as [|? ? H2 H''']; subst. inversion H''' as [|? ? H3 _]; subst.
  apply tet_indices_unfold; apply map_vertex_in_range; assumption.
Qed.

(** ** The loop over the tetrahedra *)

Lemma TetSet_mem_In (x : list Z) (s : TetSet.t) :
  TetSet.mem x s = true <-> In x s.
Proof.
  unfold TetSet.mem. destruct (in_dec (list_eq_dec Z.eq_dec) x s);
    split; auto; discriminate.
Qed.

(** What one iteration does: a tetrahedron whose sorted indices are in the
    set is counted, any other is appended and its sorted indices enter the
    set. *)
Lemma collect_tet_cases (cell_vertex : Z -> Z -> Z) (is_periodic : bool)
    (num_points t : Z) (s s' : tets) :
  collect_tet cell_vertex is_periodic num_points t s = Some s' ->
  exists tet,
    tet_indices cell_vertex is_periodic num_points t = Some tet
    /\ ((In (sort_int tet) (unique_tets s)
         /\ unique_tets s' = unique_tets s
         /\ result s' = result s
         /\ duplicate_count s' = duplicate_count s + 1
         /\ duplicate_count s + 1 <= INT_MAX)
        \/ (~ In (sort_int tet) (unique_tets s)
            /\ unique_tets s' = sort_int tet :: unique_tets s
            /\ result s' = result s ++ [tet]
            /\ duplicate_count s' = duplicate_count s)).
Proof.
  unfold collect_tet. intros H. inv_bind H. exists a. split; [assumption|].
  cbv zeta in H. unfold TetSet.insert in H.
  destruct (TetSet.mem (sort_int a) (unique_tets s)) eqn:Em.
  - apply TetSet_mem_In in Em. inv_bind H. inversion H; subst. simpl.
    apply int_op_Some in E0. destruct E0 as (-> & _ & E0).
    left. repeat split; assumption.
  - assert (Hn : ~ In (sort_int a) (unique_tets s)).
    { intros Hin. apply TetSet_mem_In in Hin. congruence. }
    inversion H; subst. simpl. right. auto.
Qed.

Lemma collect_tets_invariant (cell_vertex : Z -> Z -> Z) (is_periodic : bool)
    (num_points num_tets : Z) (s : tets) :
  0 <= num_tets ->
  collect_tets cell_vertex is_periodic num_points num_tets = Some s ->
  map sort_int (result s) = rev (unique_tets s)
  /\ NoDup (unique_tets s)
  /\ size (result s) + duplicate_count s = num_tets
  /\ 0 <= duplicate_count s
  /\ (forall t, 0 <= t < num_tets ->
        exists tet,
          tet_indices cell_vertex is_periodic num_points t = Some tet
          /\ In (sort_int tet) (unique_tets s))
  /\ (forall tet, In tet (result s) ->
        exists t, 0 <= t < num_tets
          /\ tet_indices cell_vertex is_periodic num_points t = Some tet).
Proof.
  intros Hn. unfold collect_tets.
  apply (for_range_invariant
           (fun i s =>
              map sort_int (result s) = rev (unique_tets s)
              /\ NoDup (unique_tets s)
              /\ size (result s) + duplicate_count s = i
              /\ 0 <= duplicate_count s
              /\ (forall t, 0 <= t < i ->
                    exists tet,
                      tet_indices cell_vertex is_periodic num_points t
                        = Some tet
                      /\ In (sort_int tet) (unique_tets s))
              /\ (forall tet, In tet (result s) ->
                    exists t, 0 <= t < i
                      /\ tet_indices cell_vertex is_periodic num_points t
                           = Some tet))); [assumption | |].
  - intros i st st' Hi (Hm & Hnd & Hsz & Hd & Hcov & Hmem) Hb.
    apply collect_tet_cases in Hb. destruct Hb as (tet & Ht & Hb).
    destruct Hb as [(Hin & -> & -> & -> & _)|(Hnew & -> & -> & ->)].
    + repeat split; try assumption; try lia.
      * intros t Ht'. destruct (Z.eq_dec t i) as [->|Hne]; [eauto|].
        apply Hcov. lia.
      * intros tet' Hin'. destruct (Hmem _ Hin') as (t & Hr & Hq).
        exists t. split; [lia | assumption].
    + repeat split; try assumption.
      * rewrite map_app, Hm. reflexivity.
      * constructor; assumption.
      * rewrite size_app. unfold size at 2. simpl. lia.
      * intros t Ht'. destruct (Z.eq_dec t i) as [->|Hne].
        -- exists tet. split; [assumption | left; reflexivity].
        -- destruct (Hcov t) as (tet' & Hq & Hin'); [lia|].
           exists tet'. split; [assumption | right; assumption].
      * intros tet' Hin'. apply in_app_iff in Hin'.
        destruct Hin' as [Hin'|[<-|[]]].
        -- destruct (Hmem _ Hin') as (t & Hr & Hq).
           exists t. split; [lia | assumption].
        -- exists i. split; [lia | assumption].
  - simpl. repeat split; try reflexivity; try constructor; try lia.
Qed.

Lemma returned_tets_result (cell_vertex : Z -> Z -> Z) (is_periodic : bool)
    (num_points num_tets : Z) :
  returned_tets cell_vertex is_periodic num_points num_tets
  = (s <- collect_tets cell_vertex is_periodic num_points num_tets ;;
     Some (result s)).
Proof.
  unfold returned_tets. destruct (num_tets =? 0) eqn:E; [|reflexivity].
  apply Z.eqb_eq in E. subst. reflexivity.
Qed.

Lemma collect_tets_none (cell_vertex : Z -> Z -> Z) (is_periodic : bool)
    (num_points num_tets : Z) :
  num_tets <= 0 ->
  collect_tets cell_vertex is_periodic num_points num_tets
  = Some {| unique_tets := TetSet.empty; duplicate_count := 0; result := [] |}.
Proof. intros H. unfold collect_tets. apply for_range_done. assumption. Qed.

(** X16: with at least one point, the loop over the tetrahedra returns
    whatever the triangulation holds, and every tetrahedron of the array
    handed back has four indices, each the index of a point: at least 0
    and below [num_points]. *)
Theorem returned_tets_are_valid :
  forall (cell_vertex : Z -> Z -> Z) (is_periodic : bool)
         (num_points num_tets : Z),
    0 < num_points ->
    num_tets <= INT_MAX ->
    exists returned,
      returned_tets cell_vertex is_periodic num_points num_tets
        = Some returned
      /\ Forall (fun tet => size tet = 4
                            /\ Forall (fun v => 0 <= v < num_points) tet)
           returned.
Proof.
  intros cv per n num_tets Hn Hmax. rewrite returned_tets_result.
  destruct (Z_le_dec num_tets 0) as [H0|H0].
  - rewrite collect_tets_none by assumption. exists []. split; [reflexivity|].
    constructor.
  - destruct (for_range_total
                (fun i s =>
                   0 <= duplicate_count s <= i
                   /\ Forall (fun tet => size tet = 4
                                /\ Forall (fun v => 0 <= v < n) tet)
                        (result s))
                0 num_tets (collect_tet cv per n)) with
      (s := {| unique_tets := TetSet.empty; duplicate_count := 0;
               result := [] |}) as (s & Hs & _ & Hall).
    + lia.
    + intros i st Hi (Hd & Hall).
      destruct (tet_indices_total cv per n i Hn) as (tet & Ht & Hsz & Hr).
      unfold collect_tet. rewrite Ht. cbn [bind]. cbv zeta.
      unfold TetSet.insert.
      destruct (TetSet.mem (sort_int tet) (unique_tets st)).
      * rewrite int_op_in_range by (unfold INT_MIN, INT_MAX in *; lia).
        cbn [bind]. eexists. split; [reflexivity|]. simpl.
        split; [lia | assumption].
      * eexists. split; [reflexivity|]. simpl. split; [lia|].
        apply Forall_app. split; [assumption|]. constructor; auto.
    + simpl. split; [lia | constructor].
    + unfold collect_tets. rewrite Hs. exists (result s).
      split; [reflexivity | assumption].
Qed.

Lemma returned_tets_are_valid_witness :
  exists returned,
    returned_tets periodic_tets true 5 4 = Some returned
    /\ Forall (fun tet => size tet = 4 /\ Forall (fun v => 0 <= v < 5) tet)
         returned.
Proof.
  apply (returned_tets_are_valid periodic_tets true 5 4).
  - lia.
  - unfold INT_MAX. lia.
Defined.

(** X17: no two tetrahedra of the array handed back have the same four
    vertices: two entries whose indices are permutations of each other
    are the same entry. *)
Theorem returned_tets_are_distinct :
  forall (cell_vertex : Z -> Z -> Z) (is_periodic : bool)
         (num_points num_tets : Z) (returned : list (list Z))
         (i j : Z) (a b : list Z),
    returned_tets cell_vertex is_periodic num_points num_tets
      = Some returned ->
    at_ returned i = Some a ->
    at_ returned j = Some b ->
    Permutation a b ->
    i = j.
Proof.
  intros cv per n num_tets returned i j a b H Hi Hj Hp.
  rewrite returned_tets_result in H. inv_bind H. inversion H; subst.
  rename a0 into s.
  destruct (Z_le_dec num_tets 0) as [H0|H0].
  - rewrite collect_tets_none in E by assumption. inversion E; subst.
    apply at_Some in Hi. unfold size in Hi. simpl in Hi. lia.
  - apply collect_tets_invariant in E; [|lia].
    destruct E as (Hm & Hnd & _).
    assert (Hnd' : NoDup (map sort_int (result s))).
    { rewrite Hm. apply NoDup_rev. assumption. }
    pose proof (at_Some _ _ _ Hi) as Ri. pose proof (at_Some _ _ _ Hj) as Rj.
    unfold at_ in Hi, Hj.
    replace (i <? 0) with false in Hi by (symmetry; apply Z.ltb_ge; lia).
    replace (j <? 0) with false in Hj by (symmetry; apply Z.ltb_ge; lia).
    rewrite NoDup_nth_error in Hnd'.
    assert (Heq : Z.to_nat i = Z.to_nat j).
    { apply Hnd'.
      - rewrite length_map. unfold size in Ri. lia.
      - rewrite !nth_error_map, Hi, Hj. simpl. f_equal.
        apply sort_int_canonical. assumption. }
    lia.
Qed.

Lemma returned_tets_are_distinct_witness : 0 = 0.
Proof.
  apply (returned_tets_are_distinct periodic_tets true 5 4
           [[0; 1; 2; 3]; [1; 2; 3; 4]] 0 0 [0; 1; 2; 3] [0; 1; 2; 3]).
  - vm_compute. reflexivity.
  - reflexivity.
  - reflexivity.
  - apply Permutation_refl.
Defined.

(** X18: the array handed back covers the triangulation and nothing else:
    every tetrahedron of the triangulation has, after the mapping of its
    indices, the same four vertices as an entry of the array, and every
    entry of the array is a tetrahedron of the triangulation with its
    indices mapped, in the order Geogram gave them. *)
Theorem every_tet_is_represented :
  forall (cell_vertex : Z -> Z -> Z) (is_periodic : bool)
         (num_points num_tets : Z) (returned : list (list Z)),
    returned_tets cell_vertex is_periodic num_points num_tets
      = Some returned ->
    (forall t, 0 <= t < num_tets ->
       exists tet kept,
         tet_indices cell_vertex is_periodic num_points t = Some tet
         /\ In kept returned
         /\ Permutation tet kept)
    /\ (forall kept, In kept returned ->
          exists t, 0 <= t < num_tets
            /\ tet_indices cell_vertex is_periodic num_points t = Some kept).
Proof.
  intros cv per n num_tets returned H.
  rewrite returned_tets_result in H. inv_bind H. inversion H; subst.
  rename a into s.
  destruct (Z_le_dec num_tets 0) as [H0|H0].
  - rewrite collect_tets_none in E by assumption. inversion E; subst. simpl.
    split; [intros t Ht; lia | intros kept []].
  - apply collect_tets_invariant in E; [|lia].
    destruct E as (Hm & _ & _ & _ & Hcov & Hmem). split; [|assumption].
    intros t Ht. destruct (Hcov t Ht) as (tet & Hq & Hin).
    apply in_rev in Hin. rewrite <- Hm in Hin. apply in_map_iff in Hin.
    destruct Hin as (kept & Hk & Hin).
    exists tet, kept. repeat split; try assumption.
    apply sort_int_canonical. symmetry. assumption.
Qed.

Lemma every_tet_is_represented_witness :
  (forall t, 0 <= t < 4 ->
     exists tet kept,
       tet_indices periodic_tets true 5 t = Some tet
       /\ In kept [[0; 1; 2; 3]; [1; 2; 3; 4]]
       /\ Permutation tet kept)
  /\ (forall kept, In kept [[0; 1; 2; 3]; [1; 2; 3; 4]] ->
        exists t, 0 <= t < 4 /\ tet_indices periodic_tets true 5 t = Some kept).
Proof.
  apply (every_tet_is_represented periodic_tets true 5 4).
  vm_compute. reflexivity.
Defined.

(** X19: the counts of the log message of lines 162-165 are those of the
    array: the set of sorted tetrahedra has as many elements as the array
    has entries, and these and the duplicates add up to the number of
    tetrahedra of the triangulation. *)
Theorem unique_and_duplicates_add_up :
  forall (cell_vertex : Z -> Z -> Z) (is_periodic : bool)
         (num_points num_tets : Z) (s : tets),
    0 <= num_tets ->
    collect_tets cell_vertex is_periodic num_points num_tets = Some s ->
    size (unique_tets s) = size (result s)
    /\ size (result s) + duplicate_count s = num_tets
    /\ 0 <= duplicate_count s.
Proof.
  intros cv per n num_tets s Hn H.
  apply collect_tets_invariant in H; [|assumption].
  destruct H as (Hm & _ & Hsz & Hd & _).
  repeat split; try assumption.
  unfold size. rewrite <- (length_map sort_int (result s)), Hm, length_rev.
  reflexivity.
Qed.

Lemma unique_and_duplicates_add_up_witness :
  size [[1; 2; 3; 4]; [0; 1; 2; 3]] = size [[0; 1; 2; 3]; [1; 2; 3; 4]]
  /\ size [[0; 1; 2; 3]; [1; 2; 3; 4]] + 2 = 4
  /\ 0 <= 2.
Proof.
  apply (unique_and_duplicates_add_up periodic_tets true 5 4
           {| unique_tets := [[1; 2; 3; 4]; [0; 1; 2; 3]];
              duplicate_count := 2;
              result := [[0; 1; 2; 3]; [1; 2; 3; 4]] |}).
  - lia.
  - vm_compute. reflexivity.
Defined.

(** X20: a triangulation whose indices are all indices of points and whose
    tetrahedra all differ in their vertices is handed back as it is: the
    same tetrahedra, in the same order, each with its indices in the order
    Geogram gave them, in periodic and in non-periodic mode. *)
Theorem valid_distinct_tets_pass_through :
  forall (cell_vertex : Z -> Z -> Z) (is_periodic : bool)
         (num_points num_tets : Z),
    (forall t, 0 <= t < num_tets ->
       Forall (fun v => 0 <= v < num_points) (raw_tet cell_vertex t)) ->
    (forall t t', 0 <= t < num_tets -> 0 <= t' < num_tets ->
       Permutation (raw_tet cell_vertex t) (raw_tet cell_vertex t') ->
       t = t') ->
    returned_tets cell_vertex is_periodic num_points num_tets
    = Some (map (raw_tet cell_vertex) (range num_tets)).
Proof.
  intros cv per n num_tets Hvalid Hdistinct. rewrite returned_tets_result.
  destruct (Z_le_dec num_tets 0) as [H0|H0].
  - rewrite collect_tets_none, range_nonpos by assumption. reflexivity.
  - destruct (for_range_total
                (fun i s =>
                   result s = map (raw_tet cv) (range i)
                   /\ forall x, In x (unique_tets s) ->
                        exists t, 0 <= t < i /\ x = sort_int (raw_tet cv t))
                0 num_tets (collect_tet cv per n)) with
      (s := {| unique_tets := TetSet.empty; duplicate_count := 0;
               result := [] |}) as (s & Hs & Hr & _).
    + lia.
    + intros i st Hi (Hr & Hu).
      unfold collect_tet. rewrite tet_indices_raw by (apply Hvalid; lia).
      cbn [bind]. cbv zeta. unfold TetSet.insert.
      destruct (TetSet.mem (sort_int (raw_tet cv i)) (unique_tets st)) eqn:Em.
      * exfalso. apply TetSet_mem_In in Em.
        destruct (Hu _ Em) as (t & Ht & Heq).
        apply sort_int_canonical in Heq.
        assert (i = t) by (apply Hdistinct; [lia | lia | assumption]). lia.
      * eexists. split; [reflexivity|]. simpl. split.
        -- rewrite range_succ, map_app, Hr by lia. reflexivity.
        -- intros x [<-|Hx].
           ++ exists i. split; [lia | reflexivity].
           ++ destruct (Hu x Hx) as (t & Ht & Heq).
              exists t. split; [lia | assumption].
    + simpl. split; [reflexivity | intros x []].
    + unfold collect_tets. rewrite Hs. cbn [bind]. rewrite Hr. reflexivity.
Qed.

Lemma valid_distinct_tets_pass_through_witness :
  returned_tets two_tets false 5 2
  = Some (map (raw_tet two_tets) (range 2)).
Proof.
  assert (Hcase : forall t, 0 <= t < 2 -> t = 0 \/ t = 1) by (intros; lia).
  apply (valid_distinct_tets_pass_through two_tets false 5 2).
  - intros t Ht. destruct (Hcase t Ht) as [-> | ->];
      unfold raw_tet, two_tets; repeat constructor; lia.
  - intros t t' Ht Ht' Hp.
    destruct (Hcase t Ht) as [-> | ->]; destruct (Hcase t' Ht') as [-> | ->];
      try reflexivity; exfalso.
    + apply Permutation_sym in Hp.
      assert (Hin : In 4 (raw_tet two_tets 0)).
      { apply (Permutation_in _ Hp). unfold raw_tet, two_tets. simpl. tauto. }
      unfold raw_tet, two_tets in Hin. simpl in Hin. lia.
    + assert (Hin : In 4 (raw_tet two_tets 0)).
      { apply (Permutation_in _ Hp). unfold raw_tet, two_tets. simpl. tauto. }
      unfold raw_tet, two_tets in Hin. simpl in Hin. lia.
Defined.

(** X21: with at least one point, the mapping of lines 128-140 is a
    projection onto the indices of the points: its result is the index of
    a point and is mapped to itself; the index of a point is kept; in
    periodic mode the index of a copy is reduced modulo [num_points]; a
    negative index, and in non-periodic mode an index beyond the points,
    is replaced by 0, the index of the first point. *)
Theorem map_vertex_projects :
  forall (is_periodic : bool) (num_points raw : Z),
    0 < num_points ->
    exists v,
      map_vertex is_periodic num_points raw = Some v
      /\ 0 <= v < num_points
      /\ map_vertex is_periodic num_points v = Some v
      /\ (0 <= raw < num_points -> v = raw)
      /\ (is_periodic = true -> num_points <= raw -> v = raw mod num_points)
      /\ (raw < 0 \/ (is_periodic = false /\ num_points <= raw) -> v = 0).
Proof.
  intros per n raw Hn.
  destruct (map_vertex_total per n raw Hn) as (v & Hv & Hr).
  exists v. split; [assumption|]. split; [assumption|].
  split; [apply map_vertex_in_range; assumption|].
  split; [|split].
  - intros H. rewrite map_vertex_in_range in Hv by assumption. congruence.
  - intros -> H. rewrite map_vertex_copy in Hv by lia. congruence.
  - intros H. rewrite map_vertex_fallback in Hv by assumption. congruence.
Qed.

Lemma map_vertex_projects_witness :
  exists v,
    map_vertex true 5 13 = Some v
    /\ 0 <= v < 5
    /\ map_vertex true 5 v = Some v
    /\ (0 <= 13 < 5 -> v = 13)
    /\ (true = true -> 5 <= 13 -> v = 13 mod 5)
    /\ (13 < 0 \/ (true = false /\ 5 <= 13) -> v = 0).
Proof.
  apply (map_vertex_projects true 5 13). lia.
Defined.

(** * The coordinates of periodic_delaunay.cpp *)

(** ** Signs under rounding, for any format *)

Section AnyFormat.

Variables fprec femax : Z.

Lemma shr_1_keeps_nonneg (mrs : shr_record) :
  0 <= shr_m mrs -> 0 <= shr_m (shr_1 mrs).
Proof.
  destruct mrs as [m r s]. simpl. intros H.
  destruct m as [|p|p]; simpl; try lia; destruct p; simpl; lia.
Qed.

Lemma iter_shr_1_keeps_nonneg (p : positive) (mrs : shr_record) :
  0 <= shr_m mrs -> 0 <= shr_m (SpecFloat.iter_pos shr_1 p mrs).
Proof.
  revert mrs. induction p as [p IH|p IH|]; intros mrs H; simpl.
  - apply IH, IH, shr_1_keeps_nonneg, H.
  - apply IH, IH, H.
  - apply shr_1_keeps_nonneg, H.
Qed.

Lemma shr_fexp_keeps_nonneg (m e : Z) (l : location) :
  0 <= m -> 0 <= shr_m (fst (shr_fexp fprec femax m e l)).
Proof.
  intros H. unfold shr_fexp, shr.
  assert (H0 : 0 <= shr_m (shr_record_of_loc m l))
    by (destruct l as [|[| |]]; simpl; assumption).
  destruct (fexp fprec femax (Zdigits2 m + e) - e); simpl;
    auto using iter_shr_1_keeps_nonneg.
Qed.

Lemma binary_round_aux_keeps_sign (sx : bool) (mx ex : Z) (lx : location) :
  0 <= mx ->
  match binary_round_aux fprec femax sx mx ex lx with
  | S754_zero s | S754_infinity s | S754_finite s _ _ => s = sx
  | S754_nan => False
  end.
Proof.
  intros H. unfold binary_round_aux.
  pose proof (shr_fexp_keeps_nonneg mx ex lx H) as H1.
  destruct (shr_fexp fprec femax mx ex lx) as [mrs' e']. simpl in H1.
  assert (H2 : 0 <= round_nearest_even (shr_m mrs') (loc_of_shr_record mrs')).
  { unfold round_nearest_even.
    destruct (loc_of_shr_record mrs') as [|[| |]]; try lia.
    destruct (Z.even (shr_m mrs')); lia. }
  pose proof (shr_fexp_keeps_nonneg _ e' loc_Exact H2) as H3.
  destruct (shr_fexp fprec femax _ e' loc_Exact) as [mrs'' e'']. simpl in H3.
  destruct (shr_m mrs'') as [|p|p]; try reflexivity; [|lia].
  destruct (e'' <=? femax - fprec); reflexivity.
Qed.

Lemma binary_normalize_not_below_zero (m e : Z) :
  0 <= m ->
  not_below_zero (binary_normalize fprec femax m e false) = true.
Proof.
  intros H. unfold binary_normalize. destruct m as [|p|p]; [reflexivity| |lia].
  unfold binary_round.
  destruct (shl_align p e (fexp fprec femax (Z.pos (digits2_pos p) + e)))
    as [mz ez].
  pose proof (binary_round_aux_keeps_sign false (Z.pos mz) ez loc_Exact
                ltac:(lia)) as Hs.
  destruct (binary_round_aux fprec femax false (Z.pos mz) ez loc_Exact);
    try tauto; subst; reflexivity.
Qed.

Lemma binary_normalize_is_a_number (m e : Z) :
  binary_normalize fprec femax m e false <> S754_nan.
Proof.
  unfold binary_normalize. destruct m as [|p|p]; [discriminate| |];
    unfold binary_round;
    destruct (shl_align p e (fexp fprec femax (Z.pos (digits2_pos p) + e)))
      as [mz ez].
  - pose proof (binary_round_aux_keeps_sign false (Z.pos mz) ez loc_Exact
                  ltac:(lia)) as Hs.
    destruct (binary_round_aux fprec femax false (Z.pos mz) ez loc_Exact);
      try tauto; discriminate.
  - pose proof (binary_round_aux_keeps_sign true (Z.pos mz) ez loc_Exact
                  ltac:(lia)) as Hs.
    destruct (binary_round_aux fprec femax true (Z.pos mz) ez loc_Exact);
      try tauto; discriminate.
Qed.

End AnyFormat.

Lemma digits2_pos_lower (m : positive) :
  2 ^ (Z.pos (digits2_pos m) - 1) <= Z.pos m.
Proof.
  induction m as [m IH|m IH|]; simpl digits2_pos.
  - rewrite Pos2Z.inj_succ.
    replace (Z.succ (Z.pos (digits2_pos m)) - 1)
      with (Z.succ (Z.pos (digits2_pos m) - 1)) by lia.
    rewrite Z.pow_succ_r by lia. lia.
  - rewrite Pos2Z.inj_succ.
    replace (Z.succ (Z.pos (digits2_pos m)) - 1)
      with (Z.succ (Z.pos (digits2_pos m) - 1)) by lia.
    rewrite Z.pow_succ_r by lia. lia.
  - simpl. lia.
Qed.

Lemma iter_xO_grows (d m : positive) : (m <= Pos.iter xO m d)%positive.
Proof.
  induction d as [|d IH] using Pos.peano_ind.
  - simpl. lia.
  - rewrite Pos.iter_succ. lia.
Qed.

(** A binary64 number that compares at least 1 is 2^52 or more units of
    2^-52. *)
Lemma at_least_one_aligned (m : positive) (e : Z) :
  valid_binary FloatOps.prec FloatOps.emax (S754_finite false m e) = true ->
  SFleb SF64one (S754_finite false m e) = true ->
  Z.min e (-52) = -52
  /\ 4503599627370496 <= Z.pos (fst (shl_align m e (-52))).
Proof.
  intros Hv Hle. unfold SFleb, SFcompare, SF64one in Hle.
  destruct (Z.compare_spec (-52) e) as [He|He|He]; try discriminate.
  - subst e. split; [reflexivity|]. simpl.
    rewrite Pos.compare_cont_spec in Hle. unfold Pos.switch_Eq in Hle.
    destruct (Pos.compare_spec 4503599627370496 m); try discriminate; lia.
  - split; [lia|].
    simpl in Hv.
    unfold SpecFloat.bounded, SpecFloat.canonical_mantissa, SpecFloat.fexp,
      SpecFloat.emin in Hv.
    apply andb_true_iff in Hv. destruct Hv as (Hc & _).
    apply Z.eqb_eq in Hc. unfold FloatOps.prec, FloatOps.emax in Hc.
    assert (Hd : Z.pos (digits2_pos m) = 53) by lia.
    pose proof (digits2_pos_lower m) as Hl. rewrite Hd in Hl.
    change (2 ^ (53 - 1)) with 4503599627370496 in Hl.
    unfold shl_align. destruct (-52 - e) as [|d|d] eqn:Ed; try lia.
    simpl. pose proof (iter_xO_grows d m). lia.
Qed.

Lemma sub_one_not_below_zero (x : spec_float) :
  valid_binary FloatOps.prec FloatOps.emax x = true ->
  SFleb SF64one x = true ->
  not_below_zero (FloatAxioms.SF64sub x SF64one) = true.
Proof.
  intros Hv Hle. destruct x as [s|s| |s m e]; try discriminate.
  - destruct s; [discriminate | reflexivity].
  - destruct s; [discriminate|].
    destruct (at_least_one_aligned m e Hv Hle) as (Hmin & Hm).
    unfold FloatAxioms.SF64sub, SFsub, SF64one. cbv zeta.
    rewrite Hmin.
    change (fst (shl_align 4503599627370496 (-52) (-52)))
      with 4503599627370496%positive.
    apply binary_normalize_not_below_zero. unfold cond_Zopp. lia.
Qed.

Lemma add_one_is_a_number (x : spec_float) :
  x <> S754_nan -> FloatAxioms.SF64add x SF64one <> S754_nan.
Proof.
  intros Hx. destruct x as [s|s| |s m e]; try discriminate; [congruence|].
  unfold FloatAxioms.SF64add, SFadd, SF64one. cbv zeta.
  apply binary_normalize_is_a_number.
Qed.

Lemma not_below_zero_of_test (x : spec_float) :
  x <> S754_nan -> SFltb x SF64zero = false -> not_below_zero x = true.
Proof.
  intros Hx. destruct x as [s|s| |s m e]; try congruence;
    destruct s; try reflexivity; discriminate.
Qed.

Lemma not_below_zero_leb (x : spec_float) :
  not_below_zero x = true -> SFleb SF64zero x = true.
Proof. destruct x as [s|s| |s m e]; try discriminate; destruct s; try discriminate; reflexivity. Qed.

Lemma finite_leb_ltb (m1 m2 : positive) (e1 e2 : Z) :
  SFleb (S754_finite false m1 e1) (S754_finite false m2 e2)
  = negb (SFltb (S754_finite false m2 e2) (S754_finite false m1 e1)).
Proof.
  unfold SFleb, SFltb, SFcompare.
  assert (Hm : Pos.compare_cont Eq m1 m2
               = CompOpp (Pos.compare_cont Eq m2 m1))
    by (rewrite Pos.compare_cont_antisym; reflexivity).
  rewrite (Z.compare_antisym e2 e1), Hm.
  destruct (e2 ?= e1); destruct (Pos.compare_cont Eq m2 m1); reflexivity.
Qed.

Lemma below_one_of_test (x : spec_float) :
  x <> S754_nan -> SFleb SF64one x = false -> SFltb x SF64one = true.
Proof.
  intros Hx. destruct x as [s|s| |s m e]; try congruence.
  - reflexivity.
  - destruct s; [reflexivity | discriminate].
  - destruct s; [reflexivity|].
    unfold SF64one. rewrite finite_leb_ltb. intros H.
    apply negb_false_iff in H. exact H.
Qed.

Lemma is_nan_Prim2SF (c : double) :
  PrimFloat.is_nan c = true <-> FloatOps.Prim2SF c = S754_nan.
Proof.
  unfold PrimFloat.is_nan. rewrite FloatAxioms.eqb_spec.
  destruct (FloatOps.Prim2SF c) as [s|s| |s m e]; simpl.
  - split; discriminate.
  - destruct s; split; discriminate.
  - split; reflexivity.
  - unfold SFeqb, SFcompare. rewrite Z.compare_refl, Pos.compare_cont_refl.
    destruct s; split; discriminate.
Qed.

Lemma Prim2SF_zero : FloatOps.Prim2SF PrimFloat.zero = SF64zero.
Proof. reflexivity. Qed.

Lemma Prim2SF_one : FloatOps.Prim2SF PrimFloat.one = SF64one.
Proof. reflexivity. Qed.

Lemma ltb_zero_spec (c : double) :
  PrimFloat.ltb c PrimFloat.zero = SFltb (FloatOps.Prim2SF c) SF64zero.
Proof. rewrite FloatAxioms.ltb_spec, Prim2SF_zero. reflexivity. Qed.

Lemma leb_one_spec (c : double) :
  PrimFloat.leb PrimFloat.one c = SFleb SF64one (FloatOps.Prim2SF c).
Proof. rewrite FloatAxioms.leb_spec, Prim2SF_one. reflexivity. Qed.

(** The first loop keeps a number a number and exits on a value that is
    not below zero. *)
Lemma add_while_negative_exit (fuel : nat) (c c1 : double) :
  add_while_negative fuel c = Some c1 ->
  FloatOps.Prim2SF c <> S754_nan ->
  not_below_zero (FloatOps.Prim2SF c1) = true.
Proof.
  revert c. induction fuel as [|fuel IH]; intros c H Hc; [discriminate|].
  simpl in H. destruct (PrimFloat.ltb c PrimFloat.zero) eqn:E.
  - apply (IH _ H). rewrite FloatAxioms.add_spec, Prim2SF_one.
    apply add_one_is_a_number. assumption.
  - inversion H; subst. rewrite ltb_zero_spec in E.
    apply not_below_zero_of_test; assumption.
Qed.

(** The second loop never takes a value below zero and exits below 1. *)
Lemma sub_while_at_least_one_exit (fuel : nat) (c r : double) :
  sub_while_at_least_one fuel c = Some r ->
  not_below_zero (FloatOps.Prim2SF c) = true ->
  not_below_zero (FloatOps.Prim2SF r) = true
  /\ SFleb SF64one (FloatOps.Prim2SF r) = false.
Proof.
  revert c. induction fuel as [|fuel IH]; intros c H Hc; [discriminate|].
  simpl in H. destruct (PrimFloat.leb PrimFloat.one c) eqn:E.
  - apply (IH _ H). rewrite FloatAxioms.sub_spec, Prim2SF_one.
    rewrite leb_one_spec in E.
    apply sub_one_not_below_zero; [apply FloatAxioms.Prim2SF_valid | assumption].
  - inversion H; subst. rewrite leb_one_spec in E. auto.
Qed.

Lemma not_below_zero_is_a_number (x : spec_float) :
  not_below_zero x = true -> x <> S754_nan.
Proof. destruct x; try discriminate; intros _; discriminate. Qed.

Lemma in_range_tests (x : spec_float) :
  SFleb SF64zero x = true -> SFltb x SF64one = true ->
  SFltb x SF64zero = false /\ SFleb SF64one x = false.
Proof.
  destruct x as [s|s| |s m e]; try discriminate.
  - intros _ _. split; reflexivity.
  - destruct s; discriminate.
  - destruct s; [discriminate|]. intros _ H. split; [reflexivity|].
    unfold SF64one in *. rewrite finite_leb_ltb, H. reflexivity.
Qed.

(** Whenever the loops exit on a number, the value pushed is in [0, 1). *)
Lemma wrapped_coordinate_range :
  forall (fuel : nat) (coord pushed : double),
    PrimFloat.is_nan coord = false ->
    wrap_coordinate fuel coord = Some pushed ->
    PrimFloat.leb PrimFloat.zero pushed = true
    /\ PrimFloat.ltb pushed PrimFloat.one = true.
Proof.
  intros fuel coord pushed En H. unfold wrap_coordinate in H.
  destruct (add_while_negative fuel coord) as [shifted|] eqn:E1;
    [|discriminate]. cbn [bind] in H.
  assert (Hc : FloatOps.Prim2SF coord <> S754_nan).
  { intros Hn. apply is_nan_Prim2SF in Hn. congruence. }
  pose proof (add_while_negative_exit _ _ _ E1 Hc) as H1.
  destruct (sub_while_at_least_one_exit _ _ _ H H1) as (H2 & H3).
  rewrite FloatAxioms.leb_spec, Prim2SF_zero.
  rewrite FloatAxioms.ltb_spec, Prim2SF_one. split.
  - apply not_below_zero_leb. assumption.
  - apply below_one_of_test; [|assumption].
    apply not_below_zero_is_a_number. assumption.
Qed.

(** X22: the coordinate pushed to [vertices] is in [0, 1), as the comment
    of line 50 announces: whenever the two loops exit on a coordinate that
    is not NaN, the value pushed is at least 0 and below 1, whatever was
    rounded on the way. *)
Theorem wrapped_coordinate_is_in_range :
  forall (fuel : nat) (coord pushed : double),
    PrimFloat.is_nan coord = false ->
    wrap_coordinate fuel coord = Some pushed ->
    PrimFloat.leb PrimFloat.zero pushed = true
    /\ PrimFloat.ltb pushed PrimFloat.one = true.
Proof. exact wrapped_coordinate_range. Qed.

Lemma wrapped_coordinate_is_in_range_witness :
  PrimFloat.leb PrimFloat.zero one_half = true
  /\ PrimFloat.ltb one_half PrimFloat.one = true.
Proof.
  apply (wrapped_coordinate_is_in_range 4 minus_two_and_a_half one_half);
    reflexivity.
Defined.

(** X23: a coordinate that is in [0, 1) already, and a NaN, on which both
    loop conditions are false, are pushed as they are: the loops exit at
    their first test, and Geogram is handed the NaN. *)
Theorem coordinate_in_range_or_nan_is_kept :
  forall (fuel : nat) (coord : double),
    PrimFloat.is_nan coord = true
    \/ (PrimFloat.leb PrimFloat.zero coord = true
        /\ PrimFloat.ltb coord PrimFloat.one = true) ->
    wrap_coordinate (S fuel) coord = Some coord.
Proof.
  intros fuel coord H. unfold wrap_coordinate. cbn [add_while_negative].
  assert (Ht : SFltb (FloatOps.Prim2SF coord) SF64zero = false
               /\ SFleb SF64one (FloatOps.Prim2SF coord) = false).
  { destruct H as [Hn|(H0 & H1)].
    - apply is_nan_Prim2SF in Hn. rewrite Hn. split; reflexivity.
    - rewrite FloatAxioms.leb_spec, Prim2SF_zero in H0.
      rewrite FloatAxioms.ltb_spec, Prim2SF_one in H1.
      apply in_range_tests; assumption. }
  destruct Ht as (Ha & Hb).
  rewrite ltb_zero_spec, Ha. cbn [bind sub_while_at_least_one].
  rewrite leb_one_spec, Hb. reflexivity.
Qed.

Lemma coordinate_in_range_or_nan_is_kept_witness :
  wrap_coordinate 1 PrimFloat.nan = Some PrimFloat.nan.
Proof.
  apply (coordinate_in_range_or_nan_is_kept 0 PrimFloat.nan).
  left. reflexivity.
Defined.

Lemma add_while_negative_stuck (fuel : nat) (c : double) :
  PrimFloat.ltb c PrimFloat.zero = true ->
  PrimFloat.add c PrimFloat.one = c ->
  add_while_negative fuel c = None.
Proof.
  intros Hl Hs. induction fuel as [|fuel IH]; [reflexivity|].
  simpl. rewrite Hl, Hs. assumption.
Qed.

Lemma sub_while_at_least_one_stuck (fuel : nat) (c : double) :
  PrimFloat.leb PrimFloat.one c = true ->
  PrimFloat.sub c PrimFloat.one = c ->
  sub_while_at_least_one fuel c = None.
Proof.
  intros Hl Hs. induction fuel as [|fuel IH]; [reflexivity|].
  simpl. rewrite Hl, Hs. assumption.
Qed.

(** X24: the loops do not end on a coordinate that adding 1.0, when it is
    negative, or subtracting 1.0, when it is 1 or more, leaves as it is:
    no number of iterations reaches the [push_back] of line 53.  2^54 is
    such a coordinate. *)
Theorem coordinate_loops_do_not_end :
  forall (coord : double),
    (PrimFloat.ltb coord PrimFloat.zero = true
     /\ PrimFloat.add coord PrimFloat.one = coord)
    \/ (PrimFloat.leb PrimFloat.one coord = true
        /\ PrimFloat.sub coord PrimFloat.one = coord) ->
    forall fuel, wrap_coordinate fuel coord = None.
Proof.
  intros coord [(Hl & Hs)|(Hl & Hs)] fuel; unfold wrap_coordinate.
  - rewrite add_while_negative_stuck by assumption. reflexivity.
  - destruct (add_while_negative fuel coord) as [shifted|] eqn:E;
      [|reflexivity]. simpl.
    assert (shifted = coord).
    { destruct fuel as [|fuel]; [discriminate|]. simpl in E.
      rewrite leb_one_spec in Hl. rewrite ltb_zero_spec in E.
      destruct (FloatOps.Prim2SF coord) as [s|s| |s m e]; try discriminate;
        destruct s; try discriminate; simpl in E; congruence. }
    subst. apply sub_while_at_least_one_stuck; assumption.
Qed.

Lemma coordinate_loops_do_not_end_witness :
  wrap_coordinate 1000 two_pow_54 = None.
Proof.
  refine (coordinate_loops_do_not_end two_pow_54 _ 1000%nat).
  right. split; reflexivity.
Defined.

(** ** Exact steps: the loops end on coordinates below 2^53 *)

Lemma fexp64 (x : Z) :
  fexp FloatOps.prec FloatOps.emax x = Z.max (x - 53) (-1074).
Proof. reflexivity. Qed.

Lemma digits2_pos_upper (m : positive) :
  Z.pos m < 2 ^ Z.pos (digits2_pos m).
Proof.
  induction m as [m IH|m IH|]; simpl digits2_pos.
  - rewrite Pos2Z.inj_succ, Z.pow_succ_r by lia. lia.
  - rewrite Pos2Z.inj_succ, Z.pow_succ_r by lia. lia.
  - simpl. lia.
Qed.

Lemma digits2_pos_unique (m : positive) (d : Z) :
  2 ^ (d - 1) <= Z.pos m < 2 ^ d -> Z.pos (digits2_pos m) = d.
Proof.
  intros (Hl & Hu).
  pose proof (digits2_pos_lower m) as Hl'.
  pose proof (digits2_pos_upper m) as Hu'.
  assert (Hd : 0 < d).
  { destruct (Z_lt_dec 0 d) as [H|H]; [assumption|]. exfalso.
    destruct (Z.eq_dec d 0) as [->|Hn]; [simpl in Hu; lia|].
    rewrite (Z.pow_neg_r 2 d) in Hu by lia. lia. }
  assert (H1 : d - 1 < Z.pos (digits2_pos m)).
  { apply (Z.pow_lt_mono_r_iff 2); lia. }
  assert (H2 : Z.pos (digits2_pos m) - 1 < d).
  { apply (Z.pow_lt_mono_r_iff 2); lia. }
  lia.
Qed.

(** The digits of a number with [t] more zeros at its end. *)
Lemma digits2_pos_shifted (p k : positive) (t : Z) :
  0 <= t -> Z.pos p = Z.pos k * 2 ^ t ->
  Z.pos (digits2_pos p) = Z.pos (digits2_pos k) + t.
Proof.
  intros Ht Hp. apply digits2_pos_unique. rewrite Hp.
  pose proof (digits2_pos_lower k) as Hl.
  pose proof (digits2_pos_upper k) as Hu.
  assert (H2 : 0 < 2 ^ t) by (apply Z.pow_pos_nonneg; lia).
  replace (Z.pos (digits2_pos k) + t - 1)
    with ((Z.pos (digits2_pos k) - 1) + t) by lia.
  rewrite !Z.pow_add_r by lia. split.
  - apply Z.mul_le_mono_nonneg_r; lia.
  - apply Z.mul_lt_mono_pos_r; lia.
Qed.

Lemma iter_xO_value (m d : positive) :
  Z.pos (Pos.iter xO m d) = Z.pos m * 2 ^ Z.pos d.
Proof.
  induction d as [|d IH] using Pos.peano_ind.
  - simpl Pos.iter. rewrite Pos2Z.inj_xO. change (2 ^ 1) with 2. lia.
  - rewrite Pos.iter_succ, Pos2Z.inj_xO, IH, Pos2Z.inj_succ,
      Z.pow_succ_r by lia.
    lia.
Qed.

Lemma shl_align_value (m : positive) (e e' : Z) :
  e' <= e -> Z.pos (fst (shl_align m e e')) = Z.pos m * 2 ^ (e - e').
Proof.
  intros H. unfold shl_align. destruct (e' - e) as [|d|d] eqn:Ed.
  - replace (e - e') with 0 by lia. simpl fst. lia.
  - lia.
  - simpl fst. rewrite iter_xO_value.
    replace (e - e') with (Z.pos d) by lia. reflexivity.
Qed.

Lemma shl_align_exponent (m : positive) (e e' : Z) :
  snd (shl_align m e e') = Z.min e e'.
Proof.
  unfold shl_align. destruct (e' - e) as [|d|d] eqn:Ed; simpl snd; lia.
Qed.

(** Shifting right a number that ends in zeros loses nothing. *)
Lemma shr_1_exact (k : Z) :
  0 <= k ->
  shr_1 {| shr_m := 2 * k; shr_r := false; shr_s := false |}
  = {| shr_m := k; shr_r := false; shr_s := false |}.
Proof. intros H. destruct k as [|p|p]; [reflexivity | reflexivity | lia]. Qed.

Lemma iter_pos_swap {A : Type} (f : A -> A) (p : positive) (x : A) :
  SpecFloat.iter_pos f p (f x) = f (SpecFloat.iter_pos f p x).
Proof.
  revert x. induction p as [p IH|p IH|]; intros x; simpl.
  - rewrite !IH. reflexivity.
  - rewrite !IH. reflexivity.
  - reflexivity.
Qed.

Lemma iter_pos_succ {A : Type} (f : A -> A) (p : positive) (x : A) :
  SpecFloat.iter_pos f (Pos.succ p) x = f (SpecFloat.iter_pos f p x).
Proof.
  revert x. induction p as [p IH|p IH|]; intros x; simpl.
  - rewrite !IH, !iter_pos_swap. reflexivity.
  - rewrite !iter_pos_swap. reflexivity.
  - reflexivity.
Qed.

Lemma iter_shr_1_exact (n : positive) (k : Z) :
  0 <= k ->
  SpecFloat.iter_pos shr_1 n
    {| shr_m := k * 2 ^ Z.pos n; shr_r := false; shr_s := false |}
  = {| shr_m := k; shr_r := false; shr_s := false |}.
Proof.
  intros Hk. revert k Hk. induction n as [|n IH] using Pos.peano_ind;
    intros k Hk.
  - simpl SpecFloat.iter_pos. change (2 ^ 1) with 2.
    rewrite Z.mul_comm. apply shr_1_exact. assumption.
  - rewrite iter_pos_succ, Pos2Z.inj_succ, Z.pow_succ_r by lia.
    replace (k * (2 * 2 ^ Z.pos n)) with ((2 * k) * 2 ^ Z.pos n) by lia.
    rewrite IH by lia. apply shr_1_exact. assumption.
Qed.

(** Shifting right makes a number smaller by the power of two at least. *)
Lemma shr_1_bound (mrs : shr_record) :
  0 <= shr_m mrs -> 2 * shr_m (shr_1 mrs) <= shr_m mrs.
Proof.
  destruct mrs as [m r s]. simpl. intros H.
  destruct m as [|p|p]; simpl; try lia; destruct p; simpl; lia.
Qed.

Lemma iter_shr_1_bound (n : positive) (mrs : shr_record) :
  0 <= shr_m mrs ->
  shr_m (SpecFloat.iter_pos shr_1 n mrs) * 2 ^ Z.pos n <= shr_m mrs.
Proof.
  revert mrs. induction n as [|n IH] using Pos.peano_ind; intros mrs H.
  - simpl SpecFloat.iter_pos. change (2 ^ 1) with 2.
    pose proof (shr_1_bound mrs H). lia.
  - rewrite iter_pos_succ, Pos2Z.inj_succ, Z.pow_succ_r by lia.
    pose proof (IH mrs H) as H1.
    pose proof (iter_shr_1_keeps_nonneg n mrs H) as H0.
    pose proof (shr_1_bound _ H0) as H2.
    assert (Hp : 0 < 2 ^ Z.pos n) by (apply Z.pow_pos_nonneg; lia).
    nia.
Qed.

(** A mantissa that is canonical for its exponent goes through the
    rounding as it is. *)
Lemma shr_fexp_canonical (mz : positive) (ez : Z) :
  fexp FloatOps.prec FloatOps.emax (Z.pos (digits2_pos mz) + ez) = ez ->
  shr_fexp FloatOps.prec FloatOps.emax (Z.pos mz) ez loc_Exact
  = ({| shr_m := Z.pos mz; shr_r := false; shr_s := false |}, ez).
Proof.
  intros H. unfold shr_fexp. cbn [Zdigits2]. rewrite H, Z.sub_diag.
  reflexivity.
Qed.

Lemma binary_round_aux_canonical (s : bool) (mz : positive) (ez : Z) :
  fexp FloatOps.prec FloatOps.emax (Z.pos (digits2_pos mz) + ez) = ez ->
  ez <= 971 ->
  binary_round_aux FloatOps.prec FloatOps.emax s (Z.pos mz) ez loc_Exact
  = S754_finite s mz ez.
Proof.
  intros H He. unfold binary_round_aux.
  rewrite (shr_fexp_canonical mz ez H).
  cbn [shr_m loc_of_shr_record round_nearest_even].
  rewrite (shr_fexp_canonical mz ez H). cbn [shr_m].
  replace (ez <=? FloatOps.emax - FloatOps.prec) with true; [reflexivity|].
  symmetry. apply Z.leb_le. exact He.
Qed.

(** Rounding a number of at most 53 digits followed by zeros is exact: the
    result is the number itself, with its canonical exponent. *)
Lemma binary_round_exact (s : bool) (p k : positive) (t e : Z) :
  0 <= t ->
  Z.pos p = Z.pos k * 2 ^ t ->
  Z.pos (digits2_pos k) <= 53 ->
  -1074 <= e ->
  Z.max (Z.pos (digits2_pos k) + t + e - 53) (-1074) <= 971 ->
  exists mz,
    binary_round FloatOps.prec FloatOps.emax s p e
    = S754_finite s mz (Z.max (Z.pos (digits2_pos k) + t + e - 53) (-1074))
    /\ Z.pos mz
       = Z.pos k
         * 2 ^ (t + e - Z.max (Z.pos (digits2_pos k) + t + e - 53) (-1074)).
Proof.
  intros Ht Hp Hk He Hmax.
  set (dk := Z.pos (digits2_pos k)) in *.
  set (f := Z.max (dk + t + e - 53) (-1074)) in *.
  pose proof (digits2_pos_shifted p k t Ht Hp) as Hdp. fold dk in Hdp.
  unfold binary_round. rewrite fexp64, Hdp.
  replace (Z.max (dk + t + e - 53) (-1074)) with f by reflexivity.
  destruct (Z_le_dec f e) as [Hfe|Hfe].
  - (* the mantissa is shifted left, or kept *)
    pose proof (shl_align_value p e f Hfe) as Hv.
    pose proof (shl_align_exponent p e f) as Hx.
    destruct (shl_align p e f) as [mz ez]. simpl fst in Hv. simpl snd in Hx.
    rewrite Z.min_r in Hx by lia. subst ez.
    exists mz. split.
    + apply binary_round_aux_canonical; [|assumption].
      rewrite fexp64.
      rewrite (digits2_pos_shifted mz p (e - f)); [|lia | assumption].
      rewrite Hdp. unfold f. lia.
    + rewrite Hv, Hp, <- Z.mul_assoc, <- Z.pow_add_r by lia.
      f_equal. f_equal. lia.
  - (* the zeros at the end are shifted out *)
    assert (Hf : f = dk + t + e - 53) by (unfold f; lia).
    assert (Hsh : shl_align p e f = (p, e)).
    { unfold shl_align. destruct (f - e) eqn:E; try reflexivity. lia. }
    rewrite Hsh. unfold binary_round_aux.
    destruct (f - e) as [|n|n] eqn:En; try lia.
    assert (Hn : Z.pos n <= t) by lia.
    assert (Hpos : 0 < Z.pos k * 2 ^ (t - Z.pos n)).
    { apply Z.mul_pos_pos; [lia | apply Z.pow_pos_nonneg; lia]. }
    destruct (Z.pos k * 2 ^ (t - Z.pos n)) as [|mz|mz] eqn:Emz; try lia.
    assert (Hs1 : shr_fexp FloatOps.prec FloatOps.emax (Z.pos p) e loc_Exact
                  = ({| shr_m := Z.pos mz; shr_r := false; shr_s := false |},
                     f)).
    { unfold shr_fexp. cbn [Zdigits2]. rewrite fexp64, Hdp.
      replace (Z.max (dk + t + e - 53) (-1074)) with f by reflexivity.
      rewrite En. unfold shr. cbn [shr_record_of_loc].
      replace (Z.pos p) with (Z.pos mz * 2 ^ Z.pos n).
      - rewrite iter_shr_1_exact by lia. f_equal. lia.
      - rewrite Hp, <- Emz, <- Z.mul_assoc, <- Z.pow_add_r by lia.
        f_equal. f_equal. lia. }
    rewrite Hs1. cbn [shr_m loc_of_shr_record round_nearest_even].
    assert (Hd : Z.pos (digits2_pos mz) = 53).
    { rewrite (digits2_pos_shifted mz k (t - Z.pos n));
        [fold dk; lia | lia | symmetry; exact Emz]. }
    assert (Hc : fexp FloatOps.prec FloatOps.emax
                   (Z.pos (digits2_pos mz) + f) = f).
    { rewrite fexp64, Hd. lia. }
    rewrite (shr_fexp_canonical mz f Hc). cbn [shr_m].
    replace (f <=? FloatOps.emax - FloatOps.prec) with true
      by (symmetry; apply Z.leb_le; exact Hmax).
    exists mz. split; [reflexivity|].
    rewrite <- Emz. f_equal. f_equal. lia.
Qed.

Lemma valid_binary64 (s : bool) (m : positive) (e : Z) :
  valid_binary FloatOps.prec FloatOps.emax (S754_finite s m e) = true ->
  Z.pos (digits2_pos m) <= 53
  /\ -1074 <= e <= 971
  /\ (-1074 < e -> Z.pos (digits2_pos m) = 53).
Proof.
  intros Hv. simpl in Hv.
  unfold SpecFloat.bounded, SpecFloat.canonical_mantissa in Hv.
  apply andb_true_iff in Hv. destruct Hv as (Hc & He).
  apply Z.eqb_eq in Hc. apply Z.leb_le in He. rewrite fexp64 in Hc.
  unfold FloatOps.prec, FloatOps.emax in He. lia.
Qed.

Lemma digits2_pos_below (k : positive) (d : Z) :
  Z.pos k < 2 ^ d -> Z.pos (digits2_pos k) <= d.
Proof.
  intros H. pose proof (digits2_pos_lower k) as Hl.
  destruct (Z_le_dec (Z.pos (digits2_pos k)) d) as [Hd|Hd]; [assumption|].
  exfalso.
  assert (2 ^ d <= 2 ^ (Z.pos (digits2_pos k) - 1)).
  { destruct (Z_lt_dec d 0) as [Hn|Hn].
    - rewrite (Z.pow_neg_r 2 d) by lia. apply Z.pow_nonneg. lia.
    - apply Z.pow_le_mono_r; lia. }
  lia.
Qed.

(** One step of a loop on a number of magnitude at least 1 and below 2^53
    is exact: 1.0 is taken from the magnitude. *)
Lemma exact_step (s : bool) (m : positive) (e : Z) :
  valid_binary FloatOps.prec FloatOps.emax (S754_finite s m e) = true ->
  -52 <= e <= 0 ->
  exists r,
    (if s then FloatAxioms.SF64add (S754_finite true m e) SF64one
     else FloatAxioms.SF64sub (S754_finite false m e) SF64one) = r
    /\ below_two_pow_53 r = true
    /\ units r <= units (S754_finite s m e) - 2 ^ 52
    /\ (r = S754_zero false \/ exists mz ez, r = S754_finite s mz ez).
Proof.
  intros Hv He.
  destruct (valid_binary64 s m e Hv) as (_ & _ & Hd).
  specialize (Hd ltac:(lia)).
  pose proof (digits2_pos_lower m) as Hl. rewrite Hd in Hl.
  pose proof (digits2_pos_upper m) as Hu. rewrite Hd in Hu.
  change (2 ^ (53 - 1)) with (2 ^ 52) in Hl.
  set (mx := fst (shl_align m e (-52))).
  assert (Hmx : Z.pos mx = Z.pos m * 2 ^ (e + 52)).
  { unfold mx. rewrite shl_align_value by lia.
    replace (e - -52) with (e + 52) by lia. reflexivity. }
  assert (Hpow : 2 ^ 52 = 2 ^ (- e) * 2 ^ (e + 52)).
  { rewrite <- Z.pow_add_r by lia.
    replace (- e + (e + 52)) with 52 by lia. reflexivity. }
  assert (Hpe : 0 < 2 ^ (- e) <= 2 ^ 52).
  { split; [apply Z.pow_pos_nonneg; lia | apply Z.pow_le_mono_r; lia]. }
  assert (Hpt : 0 < 2 ^ (e + 52)) by (apply Z.pow_pos_nonneg; lia).
  assert (Hdiff : Z.pos mx - 2 ^ 52 = (Z.pos m - 2 ^ (- e)) * 2 ^ (e + 52)).
  { rewrite Hmx, Hpow at 1. ring_simplify. lia. }
  assert (Hstep :
    forall p, Z.pos p = Z.pos mx - 2 ^ 52 ->
      exists mz ez,
        binary_round FloatOps.prec FloatOps.emax s p (-52)
          = S754_finite s mz ez
        /\ ez <= 0
        /\ Z.pos mz * 2 ^ (ez + 52) <= Z.pos m * 2 ^ (e + 52) - 2 ^ 52).
  { intros p Hp. rewrite Hdiff in Hp.
    destruct (Z.pos m - 2 ^ (- e)) as [|k|k] eqn:Ek; try lia.
    assert (Hk : Z.pos (digits2_pos k) <= 53)
      by (apply digits2_pos_below; lia).
    set (f := Z.max (Z.pos (digits2_pos k) + (e + 52) + -52 - 53) (-1074)).
    destruct (binary_round_exact s p k (e + 52) (-52)) as (mz & Hr & Hmz);
      try lia; try assumption.
    fold f in Hr, Hmz. exists mz, f. split; [assumption|].
    split; [unfold f; lia|].
    rewrite <- Hmx, Hdiff, Hmz.
    destruct (Z_lt_dec (f + 52) 0) as [Hneg|Hnn].
    - rewrite (Z.pow_neg_r 2 (f + 52)) by lia. lia.
    - rewrite <- Z.mul_assoc, <- Z.pow_add_r by (unfold f; lia).
      replace (e + 52 + -52 - f + (f + 52)) with (e + 52) by lia. lia. }
  assert (Hmin : Z.min e (-52) = -52) by lia.
  cbn [units].
  destruct s.
  - (* the coordinate is negative: 1.0 is added *)
    unfold FloatAxioms.SF64add, SFadd, SF64one. cbv zeta. rewrite Hmin.
    change (fst (shl_align 4503599627370496 (-52) (-52)))
      with 4503599627370496%positive.
    fold mx. unfold cond_Zopp, binary_normalize.
    change (Z.pos 4503599627370496) with (2 ^ 52).
    destruct (- Z.pos mx + 2 ^ 52) as [|p|p] eqn:Ed.
    + eexists. split; [reflexivity|]. cbn [below_two_pow_53 units].
      split; [reflexivity|]. split; [lia | left; reflexivity].
    + exfalso. nia.
    + destruct (Hstep p ltac:(lia)) as (mz & ez & Hr & Hez & Hun).
      rewrite Hr. eexists. split; [reflexivity|].
      cbn [below_two_pow_53 units].
      split; [apply Z.leb_le; assumption|]. split; [assumption|].
      right. eauto.
  - (* the coordinate is 1 or more: 1.0 is subtracted *)
    unfold FloatAxioms.SF64sub, SFsub, SF64one. cbv zeta. rewrite Hmin.
    change (fst (shl_align 4503599627370496 (-52) (-52)))
      with 4503599627370496%positive.
    fold mx. unfold cond_Zopp, binary_normalize.
    change (Z.pos 4503599627370496) with (2 ^ 52).
    destruct (Z.pos mx - 2 ^ 52) as [|p|p] eqn:Ed.
    + eexists. split; [reflexivity|]. cbn [below_two_pow_53 units].
      split; [reflexivity|]. split; [lia | left; reflexivity].
    + destruct (Hstep p ltac:(lia)) as (mz & ez & Hr & Hez & Hun).
      rewrite Hr. eexists. split; [reflexivity|].
      cbn [below_two_pow_53 units].
      split; [apply Z.leb_le; assumption|]. split; [assumption|].
      right. eauto.
    + exfalso. nia.
Qed.

(** ** A step from a number between -1 and 0 *)

Lemma Zdigits2_below (m k : Z) :
  0 <= k -> 0 <= m < 2 ^ k -> Zdigits2 m <= k.
Proof.
  intros Hk (H0 & H1). destruct m as [|p|p]; simpl; [lia| |lia].
  apply digits2_pos_below. assumption.
Qed.

Lemma round_nearest_even_bounds (m : Z) (l : location) :
  0 <= m -> 0 <= round_nearest_even m l <= m + 1.
Proof.
  intros H. unfold round_nearest_even.
  destruct l as [|[| |]]; try lia. destruct (Z.even m); lia.
Qed.

Lemma shr_fexp_exponent_le (m e b : Z) (l : location) :
  fexp FloatOps.prec FloatOps.emax (Zdigits2 m + e) <= b -> e <= b ->
  snd (shr_fexp FloatOps.prec FloatOps.emax m e l) <= b.
Proof.
  intros Hf He. unfold shr_fexp, shr.
  destruct (fexp FloatOps.prec FloatOps.emax (Zdigits2 m + e) - e)
    as [|n|n] eqn:En; simpl snd; lia.
Qed.

Lemma shr_fexp_mantissa_lt (m e : Z) (l : location) :
  0 <= m < 2 ^ (- e) -> e <= -53 ->
  shr_m (fst (shr_fexp FloatOps.prec FloatOps.emax m e l))
  < 2 ^ (- snd (shr_fexp FloatOps.prec FloatOps.emax m e l)).
Proof.
  intros (H0 & H1) He.
  assert (Hd : Zdigits2 m <= - e) by (apply Zdigits2_below; lia).
  unfold shr_fexp, shr. rewrite fexp64.
  assert (Hr : 0 <= shr_m (shr_record_of_loc m l))
    by (destruct l as [|[| |]]; simpl; assumption).
  assert (Hm : shr_m (shr_record_of_loc m l) = m)
    by (destruct l as [|[| |]]; reflexivity).
  destruct (Z.max (Zdigits2 m + e - 53) (-1074) - e) as [|n|n] eqn:En;
    simpl fst; simpl snd; try (rewrite Hm; assumption).
  pose proof (iter_shr_1_bound n _ Hr) as Hb. rewrite Hm in Hb.
  pose proof (iter_shr_1_keeps_nonneg n _ Hr) as Hn.
  set (a := shr_m (SpecFloat.iter_pos shr_1 n (shr_record_of_loc m l))) in *.
  assert (Hp : 2 ^ (- e) = 2 ^ (- (e + Z.pos n)) * 2 ^ Z.pos n).
  { rewrite <- Z.pow_add_r by lia. f_equal. lia. }
  assert (H2 : 0 < 2 ^ Z.pos n) by (apply Z.pow_pos_nonneg; lia).
  rewrite Hp in H1. nia.
Qed.

(** A number below 1 is rounded to 1 at most. *)
Lemma round_below_one (s : bool) (mx ex : Z) (l : location) :
  0 <= mx < 2 ^ (- ex) -> ex <= -53 ->
  below_two_pow_53
    (binary_round_aux FloatOps.prec FloatOps.emax s mx ex l) = true.
Proof.
  intros Hm He. unfold binary_round_aux.
  pose proof (shr_fexp_keeps_nonneg FloatOps.prec FloatOps.emax mx ex l
                (proj1 Hm)) as H1.
  pose proof (shr_fexp_mantissa_lt mx ex l Hm He) as H3.
  assert (H2 : snd (shr_fexp FloatOps.prec FloatOps.emax mx ex l) <= -53).
  { apply shr_fexp_exponent_le; [|assumption]. rewrite fexp64.
    assert (Zdigits2 mx <= - ex) by (apply Zdigits2_below; lia). lia. }
  destruct (shr_fexp FloatOps.prec FloatOps.emax mx ex l) as [mrs' e'].
  simpl fst in *. simpl snd in *.
  pose proof (round_nearest_even_bounds (shr_m mrs')
                (loc_of_shr_record mrs') H1) as Hr.
  set (m1 := round_nearest_even (shr_m mrs') (loc_of_shr_record mrs')) in *.
  pose proof (shr_fexp_keeps_nonneg FloatOps.prec FloatOps.emax m1 e'
                loc_Exact (proj1 Hr)) as H4.
  assert (H5 : snd (shr_fexp FloatOps.prec FloatOps.emax m1 e' loc_Exact)
               <= -52).
  { apply shr_fexp_exponent_le; [|lia]. rewrite fexp64.
    assert (Zdigits2 m1 <= - e' + 1).
    { apply Zdigits2_below; [lia|]. rewrite Z.pow_add_r by lia.
      change (2 ^ 1) with 2. lia. }
    lia. }
  destruct (shr_fexp FloatOps.prec FloatOps.emax m1 e' loc_Exact)
    as [mrs'' e''].
  simpl fst in *. simpl snd in *.
  destruct (shr_m mrs'') as [|p|p]; [reflexivity| |lia].
  destruct (e'' <=? FloatOps.emax - FloatOps.prec) eqn:El.
  - cbn [below_two_pow_53]. apply Z.leb_le. lia.
  - apply Z.leb_gt in El. unfold FloatOps.emax, FloatOps.prec in El. lia.
Qed.

Lemma add_one_between (m : positive) (e : Z) :
  valid_binary FloatOps.prec FloatOps.emax (S754_finite true m e) = true ->
  e <= -53 ->
  not_below_zero (FloatAxioms.SF64add (S754_finite true m e) SF64one) = true
  /\ below_two_pow_53 (FloatAxioms.SF64add (S754_finite true m e) SF64one)
     = true.
Proof.
  intros Hv He.
  destruct (valid_binary64 true m e Hv) as (Hd & Hr & _).
  pose proof (digits2_pos_upper m) as Hu.
  assert (H53 : Z.pos m < 2 ^ 53).
  { eapply Z.lt_le_trans; [exact Hu|]. apply Z.pow_le_mono_r; lia. }
  unfold FloatAxioms.SF64add, SFadd, SF64one. cbv zeta.
  rewrite Z.min_l by lia.
  set (mx := fst (shl_align m e e)).
  set (my := fst (shl_align 4503599627370496 (-52) e)).
  assert (Hmx : Z.pos mx = Z.pos m).
  { unfold mx. rewrite shl_align_value by lia. rewrite Z.sub_diag. lia. }
  assert (Hmy : Z.pos my = 2 ^ (- e)).
  { unfold my. rewrite shl_align_value by lia.
    change (Z.pos 4503599627370496) with (2 ^ 52).
    rewrite <- Z.pow_add_r by lia. f_equal. lia. }
  assert (Hle : 2 ^ 53 <= 2 ^ (- e)) by (apply Z.pow_le_mono_r; lia).
  unfold cond_Zopp.
  assert (Hsum : 0 <= - Z.pos mx + Z.pos my < 2 ^ (- e)) by lia.
  split; [apply binary_normalize_not_below_zero; lia|].
  destruct (- Z.pos mx + Z.pos my) as [|p|p] eqn:Ep; [reflexivity| |lia].
  unfold binary_normalize, binary_round.
  set (f := fexp FloatOps.prec FloatOps.emax (Z.pos (digits2_pos p) + e)).
  pose proof (shl_align_exponent p e f) as Hx.
  assert (Hval : Z.pos (fst (shl_align p e f))
                 < 2 ^ (- snd (shl_align p e f))).
  { destruct (Z_le_dec f e) as [Hfe|Hfe].
    - rewrite shl_align_value, Hx, Z.min_r by lia.
      assert (Hp : 2 ^ (- f) = 2 ^ (- e) * 2 ^ (e - f)).
      { rewrite <- Z.pow_add_r by lia. f_equal. lia. }
      assert (H2 : 0 < 2 ^ (e - f)) by (apply Z.pow_pos_nonneg; lia).
      rewrite Hp. apply Z.mul_lt_mono_pos_r; lia.
    - assert (Hsh : shl_align p e f = (p, e)).
      { unfold shl_align. destruct (f - e) eqn:E; try reflexivity. lia. }
      rewrite Hsh. simpl. lia. }
  destruct (shl_align p e f) as [mz ez]. simpl fst in *. simpl snd in *.
  apply round_below_one; lia.
Qed.

(** ** The loops end *)

Lemma add_while_negative_more_fuel (fuel fuel' : nat) (c r : double) :
  add_while_negative fuel c = Some r -> (fuel <= fuel')%nat ->
  add_while_negative fuel' c = Some r.
Proof.
  revert fuel' c. induction fuel as [|fuel IH]; intros fuel' c H Hle;
    [discriminate|].
  destruct fuel' as [|fuel']; [lia|]. simpl in *.
  destruct (PrimFloat.ltb c PrimFloat.zero); [|assumption].
  apply IH; [assumption | lia].
Qed.

Lemma sub_while_at_least_one_more_fuel (fuel fuel' : nat) (c r : double) :
  sub_while_at_least_one fuel c = Some r -> (fuel <= fuel')%nat ->
  sub_while_at_least_one fuel' c = Some r.
Proof.
  revert fuel' c. induction fuel as [|fuel IH]; intros fuel' c H Hle;
    [discriminate|].
  destruct fuel' as [|fuel']; [lia|]. simpl in *.
  destruct (PrimFloat.leb PrimFloat.one c); [|assumption].
  apply IH; [assumption | lia].
Qed.

Lemma not_below_zero_test (x : spec_float) :
  not_below_zero x = true -> SFltb x SF64zero = false.
Proof.
  destruct x as [s|s| |s m e]; try discriminate;
    destruct s; try discriminate; reflexivity.
Qed.

Lemma sub_while_at_least_one_ends (n : nat) (c : double) :
  below_two_pow_53 (FloatOps.Prim2SF c) = true ->
  units (FloatOps.Prim2SF c) < (Z.of_nat n + 1) * 2 ^ 52 ->
  exists fuel r, sub_while_at_least_one fuel c = Some r.
Proof.
  revert c. induction n as [|n IH]; intros c Hb Hu.
  - (* fewer than 2^52 units: below 1 *)
    exists 1%nat, c. simpl.
    destruct (PrimFloat.leb PrimFloat.one c) eqn:E; [|reflexivity].
    exfalso. rewrite leb_one_spec in E.
    pose proof (FloatAxioms.Prim2SF_valid c) as Hv.
    destruct (FloatOps.Prim2SF c) as [s|s| |s m e]; try discriminate.
    destruct s; [discriminate|].
    destruct (at_least_one_aligned m e Hv E) as (_ & Hm).
    assert (He : -52 <= e).
    { unfold SFleb, SFcompare, SF64one in E.
      destruct (Z.compare_spec (-52) e); try discriminate; lia. }
    rewrite shl_align_value in Hm by lia. cbn [units] in Hu.
    replace (e - -52) with (e + 52) in Hm by lia.
    change (2 ^ 52) with 4503599627370496 in Hu. lia.
  - destruct (PrimFloat.leb PrimFloat.one c) eqn:E.
    + rewrite leb_one_spec in E.
      pose proof (FloatAxioms.Prim2SF_valid c) as Hv.
      pose proof (FloatAxioms.sub_spec c PrimFloat.one) as Hs.
      rewrite Prim2SF_one in Hs.
      destruct (FloatOps.Prim2SF c) as [s|s| |s m e] eqn:Ec;
        try discriminate.
      destruct s; [discriminate|].
      assert (He : -52 <= e).
      { unfold SFleb, SFcompare, SF64one in E.
        destruct (Z.compare_spec (-52) e); try discriminate; lia. }
      cbn [below_two_pow_53] in Hb. apply Z.leb_le in Hb.
      destruct (exact_step false m e Hv (conj He Hb))
        as (r & Hr & Hrb & Hru & _).
      rewrite Hr in Hs.
      destruct (IH (PrimFloat.sub c PrimFloat.one)) as (fuel & r' & Hf).
      * rewrite Hs. assumption.
      * rewrite Hs. rewrite Nat2Z.inj_succ in Hu.
        change (2 ^ 52) with 4503599627370496 in *. lia.
      * exists (S fuel), r'. simpl. rewrite leb_one_spec, Ec, E. assumption.
    + exists 1%nat, c. simpl. rewrite E. reflexivity.
Qed.

Lemma add_while_negative_ends (n : nat) (c : double) :
  below_two_pow_53 (FloatOps.Prim2SF c) = true ->
  units (FloatOps.Prim2SF c) < (Z.of_nat n + 1) * 2 ^ 52 ->
  exists fuel c1,
    add_while_negative fuel c = Some c1
    /\ below_two_pow_53 (FloatOps.Prim2SF c1) = true.
Proof.
  revert c. induction n as [|n IH]; intros c Hb Hu;
    (destruct (PrimFloat.ltb c PrimFloat.zero) eqn:E;
     [|exists 1%nat, c; simpl; rewrite E; split; [reflexivity | assumption]]);
    rewrite ltb_zero_spec in E;
    pose proof (FloatAxioms.Prim2SF_valid c) as Hv;
    pose proof (FloatAxioms.add_spec c PrimFloat.one) as Hs;
    rewrite Prim2SF_one in Hs;
    (destruct (FloatOps.Prim2SF c) as [s|s| |s m e] eqn:Ec;
     try discriminate; destruct s; try discriminate);
    cbn [below_two_pow_53] in Hb; apply Z.leb_le in Hb;
    destruct (Z_le_dec e (-53)) as [He|He].
  - (* between -1 and 0: one step *)
    destruct (add_one_between m e Hv He) as (Hn & Hbr).
    exists 2%nat, (PrimFloat.add c PrimFloat.one). simpl.
    rewrite ltb_zero_spec, Ec, E, ltb_zero_spec, Hs.
    rewrite (not_below_zero_test _ Hn). auto.
  - exfalso.
    destruct (valid_binary64 true m e Hv) as (_ & _ & Hd).
    specialize (Hd ltac:(lia)).
    pose proof (digits2_pos_lower m) as Hl. rewrite Hd in Hl.
    change (2 ^ (53 - 1)) with 4503599627370496 in Hl.
    cbn [units] in Hu. change (2 ^ 52) with 4503599627370496 in Hu.
    assert (0 < 2 ^ (e + 52)) by (apply Z.pow_pos_nonneg; lia).
    simpl Z.of_nat in Hu. nia.
  - destruct (add_one_between m e Hv He) as (Hn & Hbr).
    exists 2%nat, (PrimFloat.add c PrimFloat.one). simpl.
    rewrite ltb_zero_spec, Ec, E, ltb_zero_spec, Hs.
    rewrite (not_below_zero_test _ Hn). auto.
  - destruct (exact_step true m e Hv ltac:(lia))
      as (r & Hr & Hrb & Hru & _).
    rewrite Hr in Hs.
    destruct (IH (PrimFloat.add c PrimFloat.one)) as (fuel & c1 & Hf & Hc1).
    + rewrite Hs. assumption.
    + rewrite Hs. rewrite Nat2Z.inj_succ in Hu.
      change (2 ^ 52) with 4503599627370496 in *. lia.
    + exists (S fuel), c1. simpl. rewrite ltb_zero_spec, Ec, E. auto.
Qed.

Lemma Prim2SF_two_pow_53 :
  FloatOps.Prim2SF two_pow_53 = S754_finite false 4503599627370496 1.
Proof. reflexivity. Qed.

Lemma finite_ltb_cases (m1 m2 : positive) (e1 e2 : Z) :
  SFltb (S754_finite false m1 e1) (S754_finite false m2 e2) = true ->
  e1 < e2 \/ (e1 = e2 /\ Z.pos m1 < Z.pos m2).
Proof.
  unfold SFltb, SFcompare.
  destruct (Z.compare_spec e1 e2) as [He|He|He]; try discriminate.
  - rewrite Pos.compare_cont_spec. unfold Pos.switch_Eq.
    destruct (Pos.compare_spec m1 m2); try discriminate. intros _. lia.
  - intros _. lia.
Qed.

Lemma below_two_pow_53_of_test (c : double) :
  PrimFloat.ltb (PrimFloat.abs c) two_pow_53 = true ->
  below_two_pow_53 (FloatOps.Prim2SF c) = true.
Proof.
  rewrite FloatAxioms.ltb_spec, FloatAxioms.abs_spec, Prim2SF_two_pow_53.
  pose proof (FloatAxioms.Prim2SF_valid c) as Hv.
  destruct (FloatOps.Prim2SF c) as [s|s| |s m e]; try discriminate.
  - reflexivity.
  - cbn [SFabs]. intros H. apply finite_ltb_cases in H.
    cbn [below_two_pow_53]. apply Z.leb_le.
    destruct H as [H|(-> & H)]; [lia|]. exfalso.
    destruct (valid_binary64 s m 1 Hv) as (_ & _ & Hd).
    specialize (Hd ltac:(lia)).
    pose proof (digits2_pos_lower m) as Hl. rewrite Hd in Hl.
    change (2 ^ (53 - 1)) with 4503599627370496 in Hl. lia.
Qed.

Lemma units_nonneg (x : spec_float) : 0 <= units x.
Proof.
  destruct x as [s|s| |s m e]; cbn [units]; [lia | lia | lia |].
  apply Z.mul_nonneg_nonneg; [lia | apply Z.pow_nonneg; lia].
Qed.

Lemma units_bound (x : spec_float) :
  units x < (Z.of_nat (Z.to_nat (units x)) + 1) * 2 ^ 52.
Proof.
  pose proof (units_nonneg x). rewrite Z2Nat.id by assumption.
  change (2 ^ 52) with 4503599627370496. lia.
Qed.

(** X25: the loops end on every coordinate of magnitude below 2^53: some
    number of iterations reaches the [push_back], and the coordinate
    pushed is at least 0 and below 1. *)
Theorem coordinate_below_two_pow_53_is_wrapped :
  forall (coord : double),
    PrimFloat.ltb (PrimFloat.abs coord) two_pow_53 = true ->
    exists fuel pushed,
      wrap_coordinate fuel coord = Some pushed
      /\ PrimFloat.leb PrimFloat.zero pushed = true
      /\ PrimFloat.ltb pushed PrimFloat.one = true.
Proof.
  intros coord H.
  pose proof (below_two_pow_53_of_test coord H) as Hb.
  destruct (add_while_negative_ends _ coord Hb (units_bound _))
    as (fuel1 & c1 & H1 & Hb1).
  destruct (sub_while_at_least_one_ends _ c1 Hb1 (units_bound _))
    as (fuel2 & pushed & H2).
  assert (Hw : wrap_coordinate (Nat.max fuel1 fuel2) coord = Some pushed).
  { unfold wrap_coordinate.
    rewrite (add_while_negative_more_fuel fuel1 _ coord c1 H1)
      by apply Nat.le_max_l.
    cbn [bind]. apply (sub_while_at_least_one_more_fuel fuel2); [assumption|].
    apply Nat.le_max_r. }
  exists (Nat.max fuel1 fuel2), pushed. split; [assumption|].
  apply (wrapped_coordinate_range (Nat.max fuel1 fuel2) coord pushed);
    [|assumption].
  destruct (PrimFloat.is_nan coord) eqn:En; [|reflexivity].
  apply is_nan_Prim2SF in En. rewrite En in Hb. discriminate.
Qed.

Lemma coordinate_below_two_pow_53_is_wrapped_witness :
  exists fuel pushed,
    wrap_coordinate fuel minus_two_and_a_half = Some pushed
    /\ PrimFloat.leb PrimFloat.zero pushed = true
    /\ PrimFloat.ltb pushed PrimFloat.one = true.
Proof.
  apply (coordinate_below_two_pow_53_is_wrapped minus_two_and_a_half).
  reflexivity.
Defined.
